(** * Path planning: Dijkstra (dijkstra.cpp) and A* on a grid (a_star.cpp)

    A shallow embedding of the two source files of the repository, the
    search functions and the two [main] programs that read their input,
    call them and print the result, and the proofs of their properties.

    Conventions of the embedding.
    - A C++ [int] is a [Z]; an addition whose result leaves the range of
      [int] is undefined behaviour and ends the run with [Undefined].
    - [v[i]] on a [std::vector] with [i] out of range is undefined
      behaviour as well ([vec_at], [vec_set]).
    - A [while] loop is iterated by [while_loop], a bounded iterator whose
      bound is proved to be never reached.
    - The queue of [dijkstra] holds pairs [(distance, vertex)], compared as
      values by a total order: whatever the arrangement of the heap, [top]
      is the least pair, and two pairs that compare equal are the same
      pair.  It is kept as the list of its elements, and [pq_pop] takes the
      least one.
    - The queue of [aStarSearch] holds pointers to nodes, compared by the
      [fCost] the nodes have at the time of the comparison, and the search
      changes the [fCost] of nodes that are in the queue.  What [top] gives
      then depends on the arrangement of the heap, so the queue is kept as
      the array of the heap, with the [std::push_heap] and [std::pop_heap]
      of libstdc++ ([heap_push], [heap_pop]).
    - A [Node*] is the cell of the node: [allNodes[r][c]] is the one node
      made for the cell [(r, c)].
    - The [float] fields of a node only ever hold natural numbers (path
      lengths and Manhattan distances); they are kept as [Z], which is
      exact while the values stay below [2 ^ 24].
    - An input stream is the list of the integer literals that are left
      in it, what follows them (nothing, or text that is no integer) and
      its fail state; [IO.extract] is [operator>>(int&)] of libstdc++.
      Reading an [int] that no extraction has written is undefined
      behaviour.  What a program writes is the list of the operands of
      its [<<], each to [std::cout] or to [std::cerr].
    - [new] and the constructors of [std::vector] are taken to get the
      memory they ask for. *)

From stdpp Require Import gmap list strings pretty.
From Stdlib Require Import ZArith Lia.

Local Open Scope Z_scope.

(** ** Outcomes of a call *)

(** [std_length_error] is what [std::vector]'s constructor throws on a
    negative size.  [InvalidInputError] and [EmptyGraphError] are the error
    kinds of the specification; no path of the two source files throws
    them. *)
Inductive exception : Set :=
  | std_length_error
  | InvalidInputError
  | EmptyGraphError.

Inductive outcome (A : Type) : Type :=
  | Returns (a : A)
  | Throws (e : exception)
  | Undefined
  | Diverges.

Arguments Returns {A} a.
Arguments Throws {A} e.
Arguments Undefined {A}.
Arguments Diverges {A}.

(** ** Machine integers and vectors *)

Definition INT_MAX : Z := 2147483647.
Definition INT_MIN : Z := -2147483648.

Definition in_int (z : Z) : Prop := INT_MIN ≤ z ≤ INT_MAX.

(** [a + b] on [int]: [None] is signed overflow. *)
Definition int_add (a b : Z) : option Z :=
  let s := a + b in
  if (INT_MIN <=? s) && (s <=? INT_MAX) then Some s else None.

(** [v[i]], read. *)
Definition vec_at {A : Type} (v : list A) (i : Z) : option A :=
  if 0 <=? i then v !! Z.to_nat i else None.

(** [v[i] = x], write. *)
Definition vec_set {A : Type} (v : list A) (i : Z) (x : A) : option (list A) :=
  if (0 <=? i) && (i <? Z.of_nat (length v))
  then Some (<[Z.to_nat i := x]> v) else None.

(** ** Loops *)

(** [run i body st]: at most [i] iterations of a loop body that either
    continues with a new state or leaves the loop with a result. *)
Fixpoint run {S R : Type} (i : nat) (body : S → S + R) (st : S) : S + R :=
  match i with
  | O => inl st
  | Datatypes.S i' =>
      match body st with
      | inl st' => run i' body st'
      | inr r => inr r
      end
  end.

(** [while_loop k body st]: at most [2 ^ k] iterations, by doubling. *)
Fixpoint while_loop {S R : Type} (k : nat) (body : S → S + R) (st : S) : S + R :=
  match k with
  | O => match body st with inl st' => inl st' | inr r => inr r end
  | Datatypes.S k' =>
      match while_loop k' body st with
      | inl st' => while_loop k' body st'
      | inr r => inr r
      end
  end.

(** [loop_result body st r]: the loop started in [st] ends, after some
    number of iterations, with the result [r]. *)
Definition loop_result {S R : Type} (body : S → S + R) (st : S) (r : R) : Prop :=
  ∃ i, run i body st = inr r.

(** ** Priority queues *)

Section PriorityQueue.
Context {A : Type} `{EqDecision A}.
(** [leb x y]: [x] comes out no later than [y]. *)
Variable leb : A → A → bool.

Fixpoint pq_top (x : A) (l : list A) : A :=
  match l with
  | [] => x
  | y :: l' => pq_top (if leb x y then x else y) l'
  end.

Fixpoint pq_remove (m : A) (l : list A) : list A :=
  match l with
  | [] => []
  | y :: l' => if decide (y = m) then l' else y :: pq_remove m l'
  end.

(** [top()] followed by [pop()]. *)
Definition pq_pop (q : list A) : option (A * list A) :=
  match q with
  | [] => None
  | x :: l => let m := pq_top x l in Some (m, pq_remove m q)
  end.
End PriorityQueue.

(** ** The heap of libstdc++

    [std::priority_queue::push] is [push_back] then [std::push_heap];
    [pop] is [std::pop_heap] then [pop_back]; [top] is the first slot.
    The children of the slot [i] are the slots [2 i + 1] and [2 i + 2].
    libstdc++ moves a hole through the array and writes the value into it
    at the end; here the value travels with the hole, by exchanges, which
    gives the same array. *)

Section Heap.
Context {A : Type}.
(** The comparator of the queue. *)
Variable comp : A → A → bool.

Definition swap (i j : nat) (v : list A) : list A :=
  match v !! i, v !! j with
  | Some x, Some y => <[i := y]> (<[j := x]> v)
  | _, _ => v
  end.

(** [comp(first + i, first + j)]. *)
Definition comp_at (v : list A) (i j : nat) : bool :=
  match v !! i, v !! j with
  | Some x, Some y => comp x y
  | _, _ => false
  end.

(** [std::__push_heap] with [topIndex = 0]: the value in the slot [hole]
    goes up while [comp(parent, value)]. *)
Fixpoint push_heap_from (fuel hole : nat) (v : list A) : list A :=
  match fuel with
  | O => v
  | Datatypes.S fuel' =>
      if (0 <? hole)%nat && comp_at v ((hole - 1) / 2) hole
      then push_heap_from fuel' ((hole - 1) / 2) (swap ((hole - 1) / 2) hole v)
      else v
  end.

(** The first loop of [std::__adjust_heap]: the hole goes down to a slot
    without two children, each time to the child that [comp] puts last. *)
Fixpoint hole_to_leaf (fuel len hole : nat) (v : list A) : nat * list A :=
  match fuel with
  | O => (hole, v)
  | Datatypes.S fuel' =>
      if (hole <? (len - 1) / 2)%nat
      then
        let secondChild :=
          if comp_at v (2 * (hole + 1)) (2 * (hole + 1) - 1)
          then (2 * (hole + 1) - 1)%nat else (2 * (hole + 1))%nat in
        hole_to_leaf fuel' len secondChild (swap hole secondChild v)
      else (hole, v)
  end.

(** [std::__adjust_heap] on the first [len] slots, the hole in the slot 0:
    down to a leaf (an only child is taken too), then up again by
    [std::__push_heap].  [std::pop_heap] calls it on a heap of more than
    one element, so [len] is 1 at least and the subtractions on [nat] are
    those of the source.  The value that the source keeps aside travels
    with the hole here: the comparisons on the way down are between the
    two children of the hole, those on the way up between a parent and
    that value. *)
Definition adjust_heap (len : nat) (v : list A) : list A :=
  let '(hole, v1) := hole_to_leaf len len 0 v in
  if Nat.even len && (hole =? (len - 2) / 2)%nat
  then push_heap_from (2 * (hole + 1)) (2 * (hole + 1) - 1)
         (swap hole (2 * (hole + 1) - 1) v1)
  else push_heap_from (Datatypes.S hole) hole v1.

(** [push(x)]. *)
Definition heap_push (x : A) (v : list A) : list A :=
  push_heap_from (Datatypes.S (length v)) (length v) (v ++ [x]).

(** [top()] followed by [pop()]: the last slot takes the first element and
    is dropped; its value enters the rest at the slot 0. *)
Definition heap_pop (v : list A) : option (A * list A) :=
  match v with
  | [] => None
  | top :: rest =>
      match last rest with
      | None => Some (top, [])
      | Some value => Some (top, adjust_heap (length rest) (value :: removelast rest))
      end
  end.
End Heap.

(** * Dijkstra *)

Module Dijkstra.

(** [const int INF = numeric_limits<int>::max()]. *)
Definition INF : Z := INT_MAX.

(** [graph[u]] holds the pairs [(v, weight)] of the edges out of [u]. *)
Abbreviation graph_t := (list (list (Z * Z))).

(** [greater<pair<int,int>>] makes the queue a min-heap for the
    lexicographic order on [(distance, vertex)]. *)
Definition pair_leb (a b : Z * Z) : bool :=
  (a.1 <? b.1) || ((a.1 =? b.1) && (a.2 <=? b.2)).

(** The state of the loop: [dist] and [pq]. *)
Abbreviation state := (list Z * list (Z * Z))%type.

(** The [for] loop over [graph[u]]. *)
Fixpoint relax_edges (u : Z) (edges : list (Z * Z)) (dist : list Z)
    (pq : list (Z * Z)) : option state :=
  match edges with
  | [] => Some (dist, pq)
  | (v, weight) :: rest =>
      match vec_at dist u with
      | None => None
      | Some du =>
          match int_add du weight with
          | None => None
          | Some s =>
              match vec_at dist v with
              | None => None
              | Some dv =>
                  if s <? dv
                  then relax_edges u rest (<[Z.to_nat v := s]> dist) ((s, v) :: pq)
                  else relax_edges u rest dist pq
              end
          end
      end
  end.

(** One iteration of [while(!pq.empty())]. *)
Definition body (graph : graph_t) (st : state) : state + outcome (list Z) :=
  let '(dist, pq) := st in
  match pq_pop pair_leb pq with
  | None => inr (Returns dist)
  | Some ((currentDist, u), pq') =>
      match vec_at dist u with
      | None => inr Undefined
      | Some du =>
          if du <? currentDist then inl (dist, pq')
          else
            match vec_at graph u with
            | None => inr Undefined
            | Some edges =>
                match relax_edges u edges dist pq' with
                | None => inr Undefined
                | Some st' => inl st'
                end
            end
      end
  end.

(** The loop state after the initialisation, if it succeeds. *)
Definition init (n : Z) (source : Z) : option state :=
  match vec_set (replicate (Z.to_nat n) INF) source 0 with
  | None => None
  | Some dist => Some (dist, [(0, source)])
  end.

(** A bound on the iterations: [2 ^ fuel n] exceeds twice the sum of the
    distances above [INT_MIN], plus the queue length. *)
Definition fuel (n : Z) : nat := Z.to_nat (Z.log2 (2 ^ 33 * n + 2)) + 1.

Definition dijkstra (n : Z) (graph : graph_t) (source : Z) : outcome (list Z) :=
  if n <? 0 then Throws std_length_error
  else
    match init n source with
    | None => Undefined
    | Some st =>
        match while_loop (fuel n) (body graph) st with
        | inr r => r
        | inl _ => Diverges
        end
    end.

End Dijkstra.

(** * A* on a grid *)

Module AStar.

(** A cell [(row, col)].  [allNodes[r][c]] is the one [Node] object made
    for the cell, so a [Node*] is identified with the cell it stands for. *)
Abbreviation cell := (Z * Z)%type.

Record Node : Type := mkNode {
  row : Z;
  col : Z;
  gCost : Z;
  hCost : Z;
  fCost : Z;
  parent : option cell
}.

(** [Node(int r, int c)]. *)
Definition new_Node (r c : Z) : Node :=
  {| row := r; col := c; gCost := 0; hCost := 0; fCost := 0; parent := None |}.

(** The source subtracts and adds in [int] and converts the sum to
    [float].  The value is kept as the exact integer: it is the one the
    source computes when the four coordinates are in [int] and the sum is
    [2 ^ 24] at most (no subtraction leaves [int] then, and the conversion
    is exact), as for the cells of any grid of less than [2 ^ 24] lines
    and columns in all. *)
Definition heuristicManhattan (row1 col1 row2 col2 : Z) : Z :=
  Z.abs (row1 - row2) + Z.abs (col1 - col2).

Definition isValid (row col rows cols : Z) : bool :=
  (0 <=? row) && (row <? rows) && (0 <=? col) && (col <? cols).

(** [grid[r][c]]. *)
Definition grid_at (grid : list (list Z)) (r c : Z) : option Z :=
  match vec_at grid r with
  | None => None
  | Some line => vec_at line c
  end.

(** The search state: the node objects, [closedSet] and [openSet]. *)
Record state : Type := mkState {
  allNodes : gmap cell Node;
  closedSet : gset cell;
  openSet : list cell
}.

(** [CompareFCost], read on the node objects as they are at the call. *)
Definition fcost_of (nodes : gmap cell Node) (p : cell) : Z :=
  match nodes !! p with
  | Some nd => fCost nd
  | None => 0
  end.

(** [a->fCost > b->fCost]. *)
Definition CompareFCost (nodes : gmap cell Node) (a b : cell) : bool :=
  fcost_of nodes b <? fcost_of nodes a.

Definition all_cells (rows cols : Z) : list cell :=
  r ← seqZ 0 rows; c ← seqZ 0 cols; [(r, c)].

(** The two nested loops that fill [allNodes]. *)
Definition new_nodes (rows cols : Z) : gmap cell Node :=
  list_to_map ((λ p : cell, (p, new_Node p.1 p.2)) <$> all_cells rows cols).

(** [dRow], [dCol]. *)
Definition directions : list (Z * Z) := [(-1, 0); (1, 0); (0, -1); (0, 1)].

(** The body of [for(int i = 0; i < 4; i++)], for the direction [d]. *)
Definition explore (grid : list (list Z)) (rows cols goalRow goalCol : Z)
    (current : cell) (st : state) (d : Z * Z) : option state :=
  match allNodes st !! current with
  | None => None
  | Some cur =>
      let nr := row cur + d.1 in
      let nc := col cur + d.2 in
      if negb (isValid nr nc rows cols) then Some st
      else
        match grid_at grid nr nc with
        | None => None
        | Some v =>
            if v =? 1 then Some st
            else if decide ((nr, nc) ∈ closedSet st) then Some st
            else
              match allNodes st !! (nr, nc) with
              | None => None
              | Some neighbor =>
                  let tentativeGCost := gCost cur + 1 in
                  if (tentativeGCost <? gCost neighbor)
                     || bool_decide (parent neighbor = None)
                  then
                    let h := heuristicManhattan nr nc goalRow goalCol in
                    let nodes :=
                      <[(nr, nc) :=
                          {| row := row neighbor; col := col neighbor;
                             gCost := tentativeGCost; hCost := h;
                             fCost := tentativeGCost + h;
                             parent := Some current |}]> (allNodes st) in
                    Some {| allNodes := nodes;
                            closedSet := closedSet st;
                            openSet := heap_push (CompareFCost nodes) (nr, nc)
                                         (openSet st) |}
                  else Some st
              end
        end
  end.

Fixpoint explore_all (grid : list (list Z)) (rows cols goalRow goalCol : Z)
    (current : cell) (st : state) (ds : list (Z * Z)) : option state :=
  match ds with
  | [] => Some st
  | d :: ds' =>
      match explore grid rows cols goalRow goalCol current st d with
      | None => None
      | Some st' => explore_all grid rows cols goalRow goalCol current st' ds'
      end
  end.

(** One iteration of [while(temp != nullptr)]. *)
Definition reconstruct_body (nodes : gmap cell Node)
    (st : list cell * option cell) : (list cell * option cell) + outcome (list cell) :=
  let '(path, temp) := st in
  match temp with
  | None => inr (Returns path)
  | Some p =>
      match nodes !! p with
      | None => inr Undefined
      | Some nd => inl (path ++ [(row nd, col nd)], parent nd)
      end
  end.

(** A bound for the loops over a map of [n] nodes. *)
Definition fuel (n : Z) : nat := Z.to_nat (Z.log2 (5 * n + 2)) + 1.

(** The path from the goal back along [parent], then [std::reverse]. *)
Definition reconstruct (nodes : gmap cell Node) (goal : cell) : outcome (list cell) :=
  match while_loop (fuel (Z.of_nat (size nodes))) (reconstruct_body nodes) ([], Some goal) with
  | inr (Returns path) => Returns (reverse path)
  | inr o => o
  | inl _ => Diverges
  end.

(** One iteration of [while(!openSet.empty())]. *)
Definition body (grid : list (list Z)) (rows cols goalRow goalCol : Z)
    (st : state) : state + outcome (list cell) :=
  match heap_pop (CompareFCost (allNodes st)) (openSet st) with
  | None => inr (Returns [])
  | Some (current, open') =>
      match allNodes st !! current with
      | None => inr Undefined
      | Some cur =>
          if decide ((row cur, col cur) ∈ closedSet st)
          then inl {| allNodes := allNodes st; closedSet := closedSet st;
                      openSet := open' |}
          else
            let st1 := {| allNodes := allNodes st;
                          closedSet := {[ (row cur, col cur) ]} ∪ closedSet st;
                          openSet := open' |} in
            if decide (current = (goalRow, goalCol))
            then inr (reconstruct (allNodes st) (goalRow, goalCol))
            else
              match explore_all grid rows cols goalRow goalCol current st1 directions with
              | None => inr Undefined
              | Some st' => inl st'
              end
      end
  end.

(** The state at the first test of the loop. *)
Definition init (grid : list (list Z)) (startRow startCol goalRow goalCol : Z)
    : option state :=
  match vec_at grid 0 with
  | None => None
  | Some line0 =>
      let rows := Z.of_nat (length grid) in
      let cols := Z.of_nat (length line0) in
      let nodes := new_nodes rows cols in
      match nodes !! (startRow, startCol) with
      | None => None
      | Some startNode =>
          let h := heuristicManhattan startRow startCol goalRow goalCol in
          match nodes !! (goalRow, goalCol) with
          | None => None
          | Some _ =>
              let nodes' :=
                <[(startRow, startCol) :=
                    {| row := row startNode; col := col startNode;
                       gCost := 0; hCost := h; fCost := 0 + h;
                       parent := parent startNode |}]> nodes in
              Some {| allNodes := nodes';
                      closedSet := ∅;
                      openSet := heap_push (CompareFCost nodes')
                                   (startRow, startCol) [] |}
          end
      end
  end.

Definition grid_rows (grid : list (list Z)) : Z := Z.of_nat (length grid).

Definition grid_cols (grid : list (list Z)) : Z :=
  match grid with
  | [] => 0
  | line0 :: _ => Z.of_nat (length line0)
  end.

Definition aStarSearch (grid : list (list Z))
    (startRow startCol goalRow goalCol : Z) : outcome (list cell) :=
  match init grid startRow startCol goalRow goalCol with
  | None => Undefined
  | Some st =>
      match while_loop (fuel (grid_rows grid * grid_cols grid))
              (body grid (grid_rows grid) (grid_cols grid) goalRow goalCol) st with
      | inr r => r
      | inl _ => Diverges
      end
  end.

End AStar.

(** * Specification-level notions *)

Module DijkstraSpec.
Import Dijkstra.

(** [n] adjacency lists, every edge into [[0, n)]. *)
Definition well_formed (n : Z) (graph : graph_t) : Prop :=
  Z.of_nat (length graph) = n ∧
  ∀ u edges v w, vec_at graph u = Some edges → (v, w) ∈ edges → 0 ≤ v < n.

Definition nonneg_weights (graph : graph_t) : Prop :=
  ∀ u edges v w, vec_at graph u = Some edges → (v, w) ∈ edges → 0 ≤ w.

(** [walk graph s v W]: some path from [s] to [v] along the edges of
    [graph] has the sum [W] of its edge weights. *)
Inductive walk (graph : graph_t) (s : Z) : Z → Z → Prop :=
  | walk_here : walk graph s s 0
  | walk_edge u W edges v w :
      walk graph s u W →
      vec_at graph u = Some edges →
      (v, w) ∈ edges →
      walk graph s v (W + w).

Definition reachable (graph : graph_t) (s v : Z) : Prop :=
  ∃ W, walk graph s v W.

(** [W] is the minimum sum of edge weights over the paths from [s] to [v]. *)
Definition shortest (graph : graph_t) (s v W : Z) : Prop :=
  walk graph s v W ∧ ∀ W', walk graph s v W' → W ≤ W'.

(** No addition of the run leaves [int]: the run adds an edge weight to
    the distance of a node only when it expands the node, and then the
    distance is the shortest one and is below [INF]. *)
Definition no_overflow (graph : graph_t) (s : Z) : Prop :=
  ∀ u W edges v w,
    shortest graph s u W → W < INF →
    vec_at graph u = Some edges → (v, w) ∈ edges → W + w ≤ INT_MAX.

(** The iteration [st] expands [u]: it pops an entry of [u] that is not
    stale and goes on to relax the edges out of [u]. *)
Definition expands (st : state) (u : Z) : Prop :=
  ∃ c q' du, pq_pop pair_leb st.2 = Some ((c, u), q') ∧
             vec_at st.1 u = Some du ∧ ¬ (c > du).

(** [u] has been expanded at the distance [d]: its distance is [d], no key
    of the queue is below [d], and the entries of [u] left are above [d]. *)
Definition frozen (u d : Z) (st : state) : Prop :=
  vec_at st.1 u = Some d ∧
  (∀ c x, (c, x) ∈ st.2 → d ≤ c) ∧
  (∀ c, (c, u) ∈ st.2 → d < c).

(** [graph] with the weight of the [i]-th edge out of [u] replaced by [w']. *)
Definition set_weight (graph : graph_t) (u i : nat) (w' : Z) : graph_t :=
  match graph !! u with
  | None => graph
  | Some edges =>
      match edges !! i with
      | None => graph
      | Some (v, _) => <[u := <[i := (v, w')]> edges]> graph
      end
  end.

Definition sumZ (l : list Z) : Z := foldr Z.add 0 l.

Definition well_formedb (n : Z) (graph : graph_t) : bool :=
  (Z.of_nat (length graph) =? n) &&
  forallb (forallb (λ e : Z * Z, (0 <=? e.1) && (e.1 <? n))) graph.

Definition nonneg_weightsb (graph : graph_t) : bool :=
  forallb (forallb (λ e : Z * Z, 0 <=? e.2)) graph.

(** The sample of the source's comment, with both directions of each edge. *)
Definition sample : graph_t :=
  [ [(1, 4); (2, 2)];
    [(0, 4); (2, 3); (3, 2)];
    [(0, 2); (1, 3); (3, 4)];
    [(1, 2); (2, 4); (4, 1)];
    [(3, 1)] ].

(** A path whose weight is one more than [INT_MAX]. *)
Definition heavy : graph_t := [ [(1, 2147483647)]; [(2, 1)]; [] ].

(** A path whose weight is [INT_MAX], one step from leaving [int]. *)
Definition brink : graph_t := [ [(1, 1)]; [(2, 2147483646)]; [] ].

(** A graph with a negative weight. *)
Definition negative : graph_t := [ [(1, 5); (2, 10)]; []; [(1, -8)] ].

(** The sum of the distances, each counted from [INT_MIN]. *)
Definition weight_sum (dist : list Z) : Z := sumZ ((λ d, d - INT_MIN) <$> dist).

(** The measure that decreases at each iteration. *)
Definition measure (st : state) : nat :=
  Z.to_nat (2 * weight_sum st.1 + Z.of_nat (length st.2)).

(** The edges out of [x] are relaxed with respect to the distance [d] of [x]. *)
Definition closed_at (graph : graph_t) (dist : list Z) (x d : Z) : Prop :=
  ∀ edges v w, vec_at graph x = Some edges → (v, w) ∈ edges →
    ∃ dv, vec_at dist v = Some dv ∧ dv ≤ d + w.

(** The invariant of the loop of [dijkstra]. *)
Record inv (n : Z) (graph : graph_t) (source : Z) (st : state) : Prop := {
  inv_len : Z.of_nat (length st.1) = n;
  inv_le : ∀ v d, vec_at st.1 v = Some d →
             d ≤ INF ∧ (d < INF → walk graph source v d);
  inv_src : vec_at st.1 source = Some 0;
  inv_pq : ∀ c x, (c, x) ∈ st.2 →
             c < INF ∧ ∃ d, vec_at st.1 x = Some d ∧ d ≤ c;
  inv_closed : ∀ x d, vec_at st.1 x = Some d → d < INF →
                 (d, x) ∈ st.2 ∨ closed_at graph st.1 x d;
  inv_nodup : NoDup st.2
}.

(** What the array returned for [source] says of the node [v]. *)
Definition distance_of (graph : graph_t) (source : Z) (dist : list Z) (v : Z) : Prop :=
  ∃ d, vec_at dist v = Some d ∧ d ≤ INF ∧
       (∀ W, walk graph source v W → d ≤ W) ∧
       (d < INF → walk graph source v d).

(** [low_walk graph s a v b]: some path from [s] to [v] takes the running
    sum of the edge weights from [a] to [b], and the sum is below [INF]
    all along. *)
Inductive low_walk (graph : graph_t) (s a : Z) : Z → Z → Prop :=
  | low_here : a < INF → low_walk graph s a s a
  | low_edge u b edges v w :
      low_walk graph s a u b →
      vec_at graph u = Some edges →
      (v, w) ∈ edges →
      b + w < INF →
      low_walk graph s a v (b + w).

(** The edges out of [x] are relaxed with respect to the distance [d] of
    [x], but for the edges [rest] that the iteration on [u] has still to
    look at. *)
Definition closed_but (graph : graph_t) (dist : list Z) (u : Z)
    (rest : list (Z * Z)) (x d : Z) : Prop :=
  ∀ edges v w, vec_at graph x = Some edges → (v, w) ∈ edges →
    (x = u ∧ (v, w) ∈ rest) ∨ ∃ dv, vec_at dist v = Some dv ∧ dv ≤ d + w.

(** What the loops of [dijkstra] keep whatever the signs of the weights:
    the outer loop with [rest = []], the loop over the edges of [u] with
    the edges that are left. *)
Record inv_any (n : Z) (graph : graph_t) (source u : Z) (rest : list (Z * Z))
    (st : state) : Prop := {
  any_len : Z.of_nat (length st.1) = n;
  any_walk : ∀ v d, vec_at st.1 v = Some d →
               d ≤ INF ∧ (d < INF → low_walk graph source 0 v d);
  any_src : ∃ d, vec_at st.1 source = Some d ∧ d ≤ 0;
  any_pq : ∀ c x, (c, x) ∈ st.2 →
             c < INF ∧ ∃ d, vec_at st.1 x = Some d ∧ d ≤ c;
  any_closed : ∀ x d, vec_at st.1 x = Some d → d < INF →
                 (d, x) ∈ st.2 ∨ closed_but graph st.1 u rest x d
}.

(** A cycle of negative weight that a path from the source leads into. *)
Definition loop2 : graph_t := [ [(1, 1)]; [(0, -2)] ].

End DijkstraSpec.

Module AStarSpec.
Import AStar.

(** The cell is inside the grid. *)
Definition in_grid (grid : list (list Z)) (p : cell) : Prop :=
  isValid p.1 p.2 (grid_rows grid) (grid_cols grid) = true.

(** The cell exists and is not an obstacle (the source tests [== 1]). *)
Definition walkable (grid : list (list Z)) (p : cell) : Prop :=
  ∃ v, grid_at grid p.1 p.2 = Some v ∧ v ≠ 1.

Definition walkableb (grid : list (list Z)) (p : cell) : bool :=
  match grid_at grid p.1 p.2 with
  | Some v => negb (v =? 1)
  | None => false
  end.

(** One orthogonal step. *)
Definition adjacent (p q : cell) : Prop :=
  Z.abs (q.1 - p.1) + Z.abs (q.2 - p.2) = 1.

Definition adjacentb (p q : cell) : bool :=
  Z.abs (q.1 - p.1) + Z.abs (q.2 - p.2) =? 1.

(** An edge of the implicit graph: from any cell to a neighbour that is
    inside the grid and walkable. *)
Definition step (grid : list (list Z)) (p q : cell) : Prop :=
  in_grid grid q ∧ walkable grid q ∧
  ∃ d, d ∈ directions ∧ q = (p.1 + d.1, p.2 + d.2).

(** [rpath grid s l v]: the cells [l], from [s] to [v], each one step
    from the one before. *)
Inductive rpath (grid : list (list Z)) (s : cell) : list cell → cell → Prop :=
  | rpath_here : rpath grid s [s] s
  | rpath_snoc l u v : rpath grid s l u → step grid u v → rpath grid s (l ++ [v]) v.

(** Consecutive cells of a sequence are one orthogonal step apart. *)
Fixpoint stepwise (l : list cell) : Prop :=
  match l with
  | [] => True
  | p :: l' => (match l' with [] => True | q :: _ => adjacent p q end) ∧ stepwise l'
  end.

Fixpoint stepwiseb (l : list cell) : bool :=
  match l with
  | [] => true
  | p :: l' => (match l' with [] => true | q :: _ => adjacentb p q end) && stepwiseb l'
  end.

(** A 4-connected path of the grid: walkable cells of the grid, each one
    orthogonal step from the one before. *)
Definition grid_path (grid : list (list Z)) (l : list cell) : Prop :=
  Forall (λ p, in_grid grid p ∧ walkable grid p) l ∧ stepwise l.

Definition grid_pathb (grid : list (list Z)) (l : list cell) : bool :=
  forallb (λ p, isValid p.1 p.2 (grid_rows grid) (grid_cols grid) && walkableb grid p) l
  && stepwiseb l.

(** The Manhattan distance to the goal. *)
Definition h (goal p : cell) : Z := heuristicManhattan p.1 p.2 goal.1 goal.2.

(** The node of the cell has a recorded cost: it is the start or has a parent. *)
Definition seen (start p : cell) (nd : Node) : Prop := p = start ∨ parent nd ≠ None.

(** The invariant of the loop of [aStarSearch]. *)
Record inv (grid : list (list Z)) (start goal : cell) (st : state) : Prop := {
  inv_dom : ∀ p, is_Some (allNodes st !! p) ↔ in_grid grid p;
  inv_key : ∀ p nd, allNodes st !! p = Some nd →
              row nd = p.1 ∧ col nd = p.2 ∧ 0 ≤ gCost nd;
  inv_start : ∃ nd, allNodes st !! start = Some nd ∧ gCost nd = 0 ∧
                    parent nd = None ∧ fCost nd = h goal start;
  inv_parent : ∀ p nd q, allNodes st !! p = Some nd → parent nd = Some q →
                 q ∈ closedSet st ∧ step grid q p ∧
                 (∃ nq, allNodes st !! q = Some nq ∧ gCost nd = gCost nq + 1) ∧
                 fCost nd = gCost nd + h goal p;
  inv_fresh : ∀ p nd, allNodes st !! p = Some nd → ¬ (seen start p nd) →
                gCost nd = 0 ∧ (p ∉ closedSet st) ∧ (p ∉ openSet st);
  inv_seen : ∀ p nd, allNodes st !! p = Some nd → seen start p nd →
               p ∈ closedSet st ∨ p ∈ openSet st;
  inv_goal : goal ∉ closedSet st;
  inv_start_closed : ∀ p, p ∈ closedSet st → start ∈ closedSet st;
  inv_inside : ∀ p, p ∈ closedSet st ∨ p ∈ openSet st → in_grid grid p
}.

(** Every line of the grid has the length of the first one. *)
Definition rectangular (grid : list (list Z)) : Prop :=
  ∀ line, line ∈ grid → Z.of_nat (length line) = grid_cols grid.

Definition rectangularb (grid : list (list Z)) : bool :=
  forallb (λ line, Z.of_nat (length line) =? grid_cols grid) grid.

(** The chain of parents from [p]. *)
Inductive chain (nodes : gmap cell Node) : cell → list cell → Prop :=
  | chain_end p nd :
      nodes !! p = Some nd → parent nd = None → chain nodes p [p]
  | chain_cons p nd q l :
      nodes !! p = Some nd → parent nd = Some q → chain nodes q l →
      chain nodes p (p :: l).

(** The measure that decreases at each iteration. *)
Definition measure (st : state) : nat :=
  5 * size (dom (allNodes st) ∖ closedSet st) + length (openSet st).

(** The grid of the specification's scenario. *)
Definition grid3 : list (list Z) := [[0; 0; 0]; [0; 1; 0]; [0; 0; 0]].

(** A grid on which the sequence returned is not a shortest path. *)
Definition detour : list (list Z) :=
  [[1; 0; 0; 0; 0; 1; 0]; [0; 0; 1; 0; 0; 1; 0]; [0; 0; 0; 0; 0; 0; 0]].

(** The iteration [st] expands [u]: it pops [u] when [u] is not closed. *)
Definition expands (st : state) (u : cell) : Prop :=
  ∃ open', heap_pop (CompareFCost (allNodes st)) (openSet st) = Some (u, open') ∧
           u ∉ closedSet st.


(** The grid with 1 on its obstacles and 0 on its other cells. *)
Definition obstacles_only (grid : list (list Z)) : list (list Z) :=
  map (map (λ v : Z, if v =? 1 then 1 else 0)) grid.

(** A path of the grid leads from [s] to [g]. *)
Definition connected (grid : list (list Z)) (s g : cell) : Prop :=
  ∃ q, grid_path grid q ∧ head q = Some s ∧ last q = Some g.

(** The neighbours of the closed cells have been reached (they are closed
    or in the queue), but for the pairs [pending c v] that the loop over
    the directions has still to look at. *)
Definition covered (grid : list (list Z)) (pending : cell → cell → Prop)
    (st : state) : Prop :=
  ∀ c v, c ∈ closedSet st → step grid c v →
         pending c v ∨ v ∈ closedSet st ∨ v ∈ openSet st.

Definition none_pending : cell → cell → Prop := λ _ _, False.

(** During the expansion of [u], when the directions [ds] are done. *)
Definition pending_of (u : cell) (ds : list (Z * Z)) : cell → cell → Prop :=
  λ c v, c = u ∧ ∀ d, d ∈ ds → v ≠ (u.1 + d.1, u.2 + d.2).

End AStarSpec.

(** * The two [main] functions *)

(** ** Streams *)

Module IO.

(** An input stream as [operator>>(int&)] sees it: the integer literals
    at its front, what follows them (text that is no integer literal, or
    the end of the file), and whether the stream has failed. *)
Record istream : Type := mkIstream {
  literals : list Z;
  garbage : bool;
  failed : bool
}.

(** A literal outside [int] is read as the nearest bound. *)
Definition clamp (z : Z) : Z :=
  if z <? INT_MIN then INT_MIN else if INT_MAX <? z then INT_MAX else z.

(** [s >> x] for an [int x]: the value written to [x], if any, and the
    stream after it.  On a stream that has failed, and at the end of the
    file, nothing is written and [x] is left as it was; on text that is no
    integer literal 0 is written; a literal outside [int] writes the
    nearest bound.  In each of the three cases the stream fails. *)
Definition extract (s : istream) : option Z * istream :=
  if failed s then (None, s)
  else
    match literals s with
    | z :: rest =>
        if (INT_MIN <=? z) && (z <=? INT_MAX)
        then (Some z, {| literals := rest; garbage := garbage s; failed := false |})
        else (Some (clamp z),
              {| literals := rest; garbage := garbage s; failed := true |})
    | [] =>
        (if garbage s then Some 0 else None,
         {| literals := []; garbage := garbage s; failed := true |})
    end.

(** The end of a line. *)
Definition nl : string := String (Ascii.ascii_of_nat 10) EmptyString.

(** What is written, piece by piece, and to which stream. *)
Inductive output : Type :=
  | Cout (s : string)
  | Cerr (s : string).

End IO.

(** ** [main] of dijkstra.cpp *)

Module DijkstraMain.
Import IO Dijkstra.

(** [graph[u].push_back(e)]. *)
Definition push_back (graph : graph_t) (u : Z) (e : Z * Z) : option graph_t :=
  match vec_at graph u with
  | None => None
  | Some edges => Some (<[Z.to_nat u := edges ++ [e]]> graph)
  end.

(** One iteration of the loop over the edges: [u], [v] and [w] are not
    initialised before they are read from the stream. *)
Definition read_edge (graph : graph_t) (s : istream) : option (graph_t * istream) :=
  let '(u, s1) := extract s in
  let '(v, s2) := extract s1 in
  let '(w, s3) := extract s2 in
  match u, v, w with
  | Some u, Some v, Some w =>
      match push_back graph u (v, w) with
      | None => None
      | Some g1 =>
          match push_back g1 v (u, w) with
          | None => None
          | Some g2 => Some (g2, s3)
          end
      end
  | _, _, _ => None
  end.

(** [for(int i = 0; i < m; i++)]. *)
Fixpoint read_edges (m : nat) (graph : graph_t) (s : istream)
    : option (graph_t * istream) :=
  match m with
  | O => Some (graph, s)
  | Datatypes.S m' =>
      match read_edge graph s with
      | None => None
      | Some (g, s') => read_edges m' g s'
      end
  end.

(** The body of the loop that writes the distances. *)
Definition print_distance (i d : Z) : list output :=
  if d =? INT_MAX
  then [Cout "Vertex "; Cout (pretty i); Cout (": INF" +:+ nl)]
  else [Cout "Vertex "; Cout (pretty i); Cout ": "; Cout (pretty d); Cout nl].

(** [for(int i = 0; i < n; i++)], from [i] on, [k] iterations. *)
Fixpoint print_distances (k : nat) (i : Z) (distances : list Z) : option (list output) :=
  match k with
  | O => Some []
  | Datatypes.S k' =>
      match vec_at distances i with
      | None => None
      | Some d =>
          match print_distances k' (i + 1) distances with
          | None => None
          | Some out => Some (print_distance i d ++ out)
          end
      end
  end.

(** [main]: what is written and the exit status.  An exception that
    leaves [main] ends the program. *)
Definition main (cin : istream) : outcome (list output * Z) :=
  let '(n, s1) := extract cin in
  let '(m, s2) := extract s1 in
  match n with
  | None => Undefined
  | Some n =>
      if n <? 0 then Throws std_length_error
      else
        match m with
        | None => Undefined
        | Some m =>
            match read_edges (Z.to_nat m) (replicate (Z.to_nat n) []) s2 with
            | None => Undefined
            | Some (graph, s3) =>
                match (extract s3).1 with
                | None => Undefined
                | Some source =>
                    match dijkstra n graph source with
                    | Returns distances =>
                        match print_distances (Z.to_nat n) 0 distances with
                        | None => Undefined
                        | Some out =>
                            Returns ([Cout "Shortest distances from vertex ";
                                      Cout (pretty source); Cout (":" +:+ nl)] ++ out, 0)
                        end
                    | Throws e => Throws e
                    | Undefined => Undefined
                    | Diverges => Diverges
                    end
                end
            end
        end
  end.

End DijkstraMain.

(** ** [main] of a_star.cpp *)

Module AStarMain.
Import IO AStar.

(** [for(int c = 0; c < cols; c++) fin >> grid[r][c]]: the cells are 0
    before they are read. *)
Fixpoint read_line (cols : nat) (s : istream) : list Z * istream :=
  match cols with
  | O => ([], s)
  | Datatypes.S cols' =>
      let '(x, s1) := extract s in
      let '(line, s2) := read_line cols' s1 in
      (default 0 x :: line, s2)
  end.

(** [for(int r = 0; r < rows; r++)]. *)
Fixpoint read_grid (rows cols : nat) (s : istream) : list (list Z) * istream :=
  match rows with
  | O => ([], s)
  | Datatypes.S rows' =>
      let '(line, s1) := read_line cols s in
      let '(grid, s2) := read_grid rows' cols s1 in
      (line :: grid, s2)
  end.

(** [grid[r][c] = x]. *)
Definition grid_set (grid : list (list Z)) (r c x : Z) : option (list (list Z)) :=
  match vec_at grid r with
  | None => None
  | Some line =>
      match vec_set line c x with
      | None => None
      | Some line' => vec_set grid r line'
      end
  end.

(** The body of the loop that marks the path on the grid. *)
Definition mark (startRow startCol goalRow goalCol : Z) (grid : list (list Z))
    (p : cell) : option (list (list Z)) :=
  if negb ((p.1 =? startRow) && (p.2 =? startCol))
     && negb ((p.1 =? goalRow) && (p.2 =? goalCol))
  then grid_set grid p.1 p.2 2
  else Some grid.

Fixpoint mark_path (startRow startCol goalRow goalCol : Z) (grid : list (list Z))
    (path : list cell) : option (list (list Z)) :=
  match path with
  | [] => Some grid
  | p :: path' =>
      match mark startRow startCol goalRow goalCol grid p with
      | None => None
      | Some grid' => mark_path startRow startCol goalRow goalCol grid' path'
      end
  end.

(** The body of the loop that writes the coordinates of the path. *)
Definition print_step (p : cell) : list output :=
  [Cout "("; Cout (pretty p.1); Cout ", "; Cout (pretty p.2); Cout ") "].

(** What is written for the cell [(r, c)] of the grid: nothing when its
    value is none of 0, 1 and 2. *)
Definition print_cell (startRow startCol goalRow goalCol : Z) (grid : list (list Z))
    (r c : Z) : option (list output) :=
  if (r =? startRow) && (c =? startCol) then Some [Cout "S "]
  else if (r =? goalRow) && (c =? goalCol) then Some [Cout "G "]
  else
    match grid_at grid r c with
    | None => None
    | Some x =>
        Some (if x =? 0 then [Cout ". "]
              else if x =? 1 then [Cout "# "]
              else if x =? 2 then [Cout "P "]
              else [])
    end.

(** [for(int c = 0; c < cols; c++)], from [c] on, [k] iterations. *)
Fixpoint print_cells (startRow startCol goalRow goalCol : Z) (grid : list (list Z))
    (r : Z) (k : nat) (c : Z) : option (list output) :=
  match k with
  | O => Some []
  | Datatypes.S k' =>
      match print_cell startRow startCol goalRow goalCol grid r c with
      | None => None
      | Some out =>
          match print_cells startRow startCol goalRow goalCol grid r k' (c + 1) with
          | None => None
          | Some out' => Some (out ++ out')
          end
      end
  end.

(** [for(int r = 0; r < rows; r++)], from [r] on, [k] iterations. *)
Fixpoint print_rows (startRow startCol goalRow goalCol : Z) (grid : list (list Z))
    (cols : nat) (k : nat) (r : Z) : option (list output) :=
  match k with
  | O => Some []
  | Datatypes.S k' =>
      match print_cells startRow startCol goalRow goalCol grid r cols 0 with
      | None => None
      | Some out =>
          match print_rows startRow startCol goalRow goalCol grid cols k' (r + 1) with
          | None => None
          | Some out' => Some (out ++ [Cout nl] ++ out')
          end
      end
  end.

(** The branch of [main] that writes a path that was found. *)
Definition print_found (rows cols : Z) (grid : list (list Z)) (path : list cell)
    : option (list output) :=
  match mark_path 0 0 (rows - 1) (cols - 1) grid path with
  | None => None
  | Some marked =>
      match print_rows 0 0 (rows - 1) (cols - 1) marked (Z.to_nat cols)
              (Z.to_nat rows) 0 with
      | None => None
      | Some out =>
          Some ([Cout "Path found ("; Cout (pretty (length path)); Cout (" steps):" +:+ nl)]
                ++ mjoin (print_step <$> path) ++ [Cout nl] ++ out)
      end
  end.

(** [main], after the dimensions are read and found positive. *)
Definition search_map (rows cols : Z) (s : istream) : outcome (list output * Z) :=
  let grid := (read_grid (Z.to_nat rows) (Z.to_nat cols) s).1 in
  match grid_at grid 0 0 with
  | None => Undefined
  | Some a =>
      if a =? 1
      then Returns ([Cerr ("Start or goal is on an obstacle. Exiting." +:+ nl)], 1)
      else
        match grid_at grid (rows - 1) (cols - 1) with
        | None => Undefined
        | Some b =>
            if b =? 1
            then Returns ([Cerr ("Start or goal is on an obstacle. Exiting." +:+ nl)], 1)
            else
              match aStarSearch grid 0 0 (rows - 1) (cols - 1) with
              | Returns [] => Returns ([Cout ("No path found." +:+ nl)], 0)
              | Returns path =>
                  match print_found rows cols grid path with
                  | None => Undefined
                  | Some out => Returns (out, 0)
                  end
              | Throws e => Throws e
              | Undefined => Undefined
              | Diverges => Diverges
              end
        end
  end.

(** [main]: [fin] is the stream on map.txt when the file could be opened;
    what is written and the exit status.  [rows] and [cols] are not
    initialised before they are read from the stream. *)
Definition main (fin : option istream) : outcome (list output * Z) :=
  match fin with
  | None => Returns ([Cerr ("Error: Could not open map.txt" +:+ nl)], 1)
  | Some s =>
      let '(rows, s1) := extract s in
      let '(cols, s2) := extract s1 in
      match rows with
      | None => Undefined
      | Some rows =>
          if rows <=? 0 then Returns ([Cerr ("Invalid map dimensions." +:+ nl)], 1)
          else
            match cols with
            | None => Undefined
            | Some cols =>
                if cols <=? 0 then Returns ([Cerr ("Invalid map dimensions." +:+ nl)], 1)
                else search_map rows cols s2
            end
      end
  end.

End AStarMain.

(** ** Notions for the two [main] functions *)

Module MainSpec.
Import IO Dijkstra DijkstraSpec AStar AStarSpec.

(** [graph] has the edge from [u] to [v] with the weight [w]. *)
Definition edge (graph : graph_t) (u v w : Z) : Prop :=
  ∃ edges, vec_at graph u = Some edges ∧ (v, w) ∈ edges.

(** Every edge is there in both directions. *)
Definition undirected (graph : graph_t) : Prop :=
  ∀ u v w, edge graph u v w → edge graph v u w.

(** The literals of a list of edges [(u, v, w)]. *)
Fixpoint flat (triples : list (Z * Z * Z)) : list Z :=
  match triples with
  | [] => []
  | (u, v, w) :: rest => u :: v :: w :: flat rest
  end.

(** The edges [(u, v, w)] join [u] and [v], either way. *)
Definition joins (triples : list (Z * Z * Z)) (u v w : Z) : Prop :=
  (u, v, w) ∈ triples ∨ (v, u, w) ∈ triples.

(** The edges are between nodes of [[0, n)]. *)
Definition endpoints_in (n : Z) (triples : list (Z * Z * Z)) : Prop :=
  Forall (λ t : Z * Z * Z, 0 ≤ t.1.1 < n ∧ 0 ≤ t.1.2 < n) triples.

(** The lines written for an array of distances. *)
Definition report (dist : list Z) : list output :=
  mjoin (imap (λ i d, DijkstraMain.print_distance (Z.of_nat i) d) dist).

(** The literals that a stream still gives. *)
Definition readable (s : istream) : list Z :=
  if failed s then [] else literals s.

(** A grid of [rows] lines of [cols] cells. *)
Definition shape (rows cols : nat) (grid : list (list Z)) : Prop :=
  length grid = rows ∧ Forall (λ line, length line = cols) grid.



End MainSpec.

(** * Loops: lemmas *)

Section Loops.
Context {S R : Type}.
Implicit Types (body : S → S + R) (st : S).

Lemma run_S (i : nat) body st :
  run (Datatypes.S i) body st =
  match body st with inl st' => run i body st' | inr r => inr r end.
Proof. done. Qed.

Lemma run_add (a b : nat) body st :
  run (a + b) body st =
  match run a body st with inl st' => run b body st' | inr r => inr r end.
Proof.
  revert st. induction a as [|a IH]; intros st; simpl; [done|].
  destruct (body st) as [st'|r]; [apply IH | done].
Qed.

Lemma while_loop_run (k : nat) body st :
  while_loop k body st = run (2 ^ k)%nat body st.
Proof.
  revert st. induction k as [|k IH]; intros st.
  - simpl. by destruct (body st).
  - cbn [while_loop]. replace (2 ^ Datatypes.S k)%nat with (2 ^ k + 2 ^ k)%nat
      by (rewrite Nat.pow_succ_r'; lia).
    rewrite run_add, IH. destruct (run (2 ^ k) body st); [apply IH | done].
Qed.

Lemma run_inr_mono (i j : nat) body st r :
  (i ≤ j)%nat → run i body st = inr r → run j body st = inr r.
Proof.
  intros Hij H. replace j with (i + (j - i))%nat by lia.
  by rewrite run_add, H.
Qed.

(** An invariant holds in every state the loop reaches. *)
Lemma run_inl_invariant (I : S → Prop) body :
  (∀ st st', I st → body st = inl st' → I st') →
  ∀ i st st', I st → run i body st = inl st' → I st'.
Proof.
  intros Hstep. induction i as [|i IH]; intros st st' HI H; simpl in H.
  - by simplify_eq.
  - destruct (body st) as [st1|r] eqn:E; [|done]. eauto.
Qed.

(** A result comes out of a state the loop reaches. *)
Lemma run_inr_invariant (I : S → Prop) body :
  (∀ st st', I st → body st = inl st' → I st') →
  ∀ i st r, I st → run i body st = inr r →
  ∃ st', I st' ∧ body st' = inr r.
Proof.
  intros Hstep. induction i as [|i IH]; intros st r HI H; simpl in H; [done|].
  destruct (body st) as [st1|r1] eqn:E.
  - eauto.
  - simplify_eq. eauto.
Qed.


(** A loop whose body decreases a measure ends within that many rounds. *)
Lemma run_terminates (I : S → Prop) (mu : S → nat) body :
  (∀ st st', I st → body st = inl st' → I st' ∧ (mu st' < mu st)%nat) →
  ∀ i st, I st → (mu st < i)%nat → ∃ r, run i body st = inr r.
Proof.
  intros Hstep. induction i as [|i IH]; intros st HI Hlt; [lia|].
  simpl. destruct (body st) as [st1|r] eqn:E; [|eauto].
  destruct (Hstep _ _ HI E) as [HI1 Hmu]. apply IH; [done|lia].
Qed.

(** The state after [i] rounds and the state after [j ≥ i] rounds. *)
Lemma run_inl_split (i j : nat) body st st' :
  (i ≤ j)%nat → run j body st = inl st' →
  ∃ sti, run i body st = inl sti ∧ run (j - i) body sti = inl st'.
Proof.
  intros Hij H. replace j with (i + (j - i))%nat in H by lia.
  rewrite run_add in H. destruct (run i body st) as [sti|]; [eauto|done].
Qed.

Lemma loop_result_unique body st (r1 r2 : R) :
  loop_result body st r1 → loop_result body st r2 → r1 = r2.
Proof.
  intros [i Hi] [j Hj].
  apply (run_inr_mono i (i `max` j)) in Hi; [|lia].
  apply (run_inr_mono j (i `max` j)) in Hj; [|lia]. congruence.
Qed.

Lemma while_loop_result (k : nat) body st (r : R) :
  while_loop k body st = inr r → loop_result body st r.
Proof. rewrite while_loop_run. intros H. by eexists. Qed.

Lemma while_loop_first (k : nat) body st (r : R) :
  body st = inr r → while_loop k body st = inr r.
Proof.
  intros H. rewrite while_loop_run. apply (run_inr_mono 1); [|by rewrite run_S, H].
  clear. induction k; simpl; lia.
Qed.

End Loops.

(** * Priority queues: lemmas *)

Section PriorityQueueLemmas.
Context {A : Type} `{EqDecision A}.
Variable leb : A → A → bool.
Hypothesis leb_total : ∀ x y, leb x y = true ∨ leb y x = true.
Hypothesis leb_trans : ∀ x y z, leb x y = true → leb y z = true → leb x z = true.

Lemma pq_top_elem (x : A) (l : list A) : pq_top leb x l ∈ x :: l.
Proof.
  revert x. induction l as [|y l IH]; intros x; simpl; [left|].
  pose proof (IH (if leb x y then x else y)) as Hin.
  apply elem_of_cons in Hin as [->|Hin]; [|by do 2 right].
  destruct (leb x y); [left | right; left].
Qed.

Lemma pq_top_least (l : list A) (x y : A) :
  y ∈ x :: l → leb (pq_top leb x l) y = true.
Proof.
  revert x y. induction l as [|z l IH]; intros x y Hy; simpl.
  - apply list_elem_of_singleton in Hy as ->. by destruct (leb_total x x).
  - set (x' := if leb x z then x else z).
    assert (Hx : leb x' x = true).
    { subst x'. destruct (leb x z) eqn:E; [by destruct (leb_total x x)|].
      destruct (leb_total x z); congruence. }
    assert (Hz : leb x' z = true).
    { subst x'. destruct (leb x z) eqn:E; [done|]. by destruct (leb_total z z). }
    assert (Hm : leb (pq_top leb x' l) x' = true) by (apply IH; left).
    apply elem_of_cons in Hy as [->|Hy]; [by eapply leb_trans|].
    apply elem_of_cons in Hy as [->|Hy]; [by eapply leb_trans|].
    apply IH. by right.
Qed.

Lemma pq_remove_perm (m : A) (l : list A) :
  m ∈ l → l ≡ₚ m :: pq_remove m l.
Proof.
  induction l as [|y l IH]; intros Hm; [set_solver|].
  simpl. destruct (decide (y = m)) as [->|Hne]; [done|].
  apply elem_of_cons in Hm as [->|Hm]; [done|].
  rewrite (IH Hm) at 1. apply Permutation_swap.
Qed.

Lemma pq_pop_spec (q : list A) (m : A) (q' : list A) :
  pq_pop leb q = Some (m, q') →
  m ∈ q ∧ q ≡ₚ m :: q' ∧ ∀ y, y ∈ q → leb m y = true.
Proof.
  destruct q as [|x l]; [done|]. unfold pq_pop. intros [= <- <-].
  pose proof (pq_top_elem x l) as Hin.
  split_and!; [done| by apply pq_remove_perm |]. intros y. apply pq_top_least.
Qed.

Lemma pq_pop_none (q : list A) : pq_pop leb q = None → q = [].
Proof. by destruct q. Qed.

End PriorityQueueLemmas.

(** * Machine integers and vectors: lemmas *)

Lemma int_add_Some (a b s : Z) :
  int_add a b = Some s ↔ s = a + b ∧ in_int (a + b).
Proof.
  unfold int_add, in_int. cbn zeta.
  destruct (INT_MIN <=? a + b) eqn:E1; destruct (a + b <=? INT_MAX) eqn:E2;
    simpl; split; try (intros [= <-]); try (intros [-> ?]); try done;
    try (split; [done|lia]); lia.
Qed.

Lemma vec_at_Some {A : Type} (v : list A) (i : Z) (x : A) :
  vec_at v i = Some x ↔ 0 ≤ i ∧ v !! Z.to_nat i = Some x.
Proof.
  unfold vec_at. destruct (0 <=? i) eqn:E; split; try done.
  - intros H. split; [lia|done].
  - by intros [_ H].
  - intros [H _]. lia.
Qed.

Lemma vec_at_range {A : Type} (v : list A) (i : Z) (x : A) :
  vec_at v i = Some x → 0 ≤ i < Z.of_nat (length v).
Proof.
  intros [H0 H]%vec_at_Some. apply lookup_lt_Some in H. lia.
Qed.

Lemma vec_at_is_Some {A : Type} (v : list A) (i : Z) :
  0 ≤ i < Z.of_nat (length v) → ∃ x, vec_at v i = Some x.
Proof.
  intros H. destruct (lookup_lt_is_Some_2 v (Z.to_nat i)) as [x Hx]; [lia|].
  exists x. apply vec_at_Some. split; [lia|done].
Qed.

Lemma vec_at_insert_eq {A : Type} (v : list A) (i : Z) (x y : A) :
  vec_at v i = Some y → vec_at (<[Z.to_nat i := x]> v) i = Some x.
Proof.
  intros [H0 H]%vec_at_Some. apply vec_at_Some. split; [done|].
  apply list_lookup_insert_eq. by eapply lookup_lt_Some.
Qed.

Lemma vec_at_insert_ne {A : Type} (v : list A) (i j : Z) (x : A) :
  0 ≤ i → i ≠ j → vec_at (<[Z.to_nat i := x]> v) j = vec_at v j.
Proof.
  intros H0 Hne. unfold vec_at. destruct (0 <=? j) eqn:E; [|done].
  apply list_lookup_insert_ne. lia.
Qed.

Lemma vec_set_Some {A : Type} (v : list A) (i : Z) (x : A) (v' : list A) :
  vec_set v i x = Some v' ↔
  0 ≤ i < Z.of_nat (length v) ∧ v' = <[Z.to_nat i := x]> v.
Proof.
  unfold vec_set.
  destruct (0 <=? i) eqn:E1; destruct (i <? Z.of_nat (length v)) eqn:E2; simpl;
    split; try (intros [= <-]); try (intros [? ->]); try done;
    try (split; [lia|done]); lia.
Qed.

(** * Dijkstra: proofs *)

Module DijkstraProofs.
Import Dijkstra DijkstraSpec.

Lemma pair_leb_total (x y : Z * Z) : pair_leb x y = true ∨ pair_leb y x = true.
Proof. unfold pair_leb. destruct x, y; simpl. lia. Qed.

Lemma pair_leb_trans (x y z : Z * Z) :
  pair_leb x y = true → pair_leb y z = true → pair_leb x z = true.
Proof. unfold pair_leb. destruct x, y, z; simpl. lia. Qed.

Lemma pair_leb_fst (x y : Z * Z) : pair_leb x y = true → x.1 ≤ y.1.
Proof. unfold pair_leb. destruct x, y; simpl. lia. Qed.

Lemma pop_spec (q : list (Z * Z)) (m : Z * Z) (q' : list (Z * Z)) :
  pq_pop pair_leb q = Some (m, q') →
  m ∈ q ∧ q ≡ₚ m :: q' ∧ ∀ y, y ∈ q → m.1 ≤ y.1.
Proof.
  intros H. apply (pq_pop_spec _ pair_leb_total pair_leb_trans) in H
    as (H1 & H2 & H3).
  split_and!; [done..|]. intros y Hy. by apply pair_leb_fst, H3.
Qed.

(** What the loop over the edges out of [u] does to [dist] and [pq], when
    no weight is negative. *)
Lemma relax_edges_char (u du : Z) (edges : list (Z * Z)) :
  (∀ v w, (v, w) ∈ edges → 0 ≤ w) →
  ∀ (dist : list Z) (pq : list (Z * Z)) (dist' : list Z) (pq' : list (Z * Z)),
  relax_edges u edges dist pq = Some (dist', pq') →
  vec_at dist u = Some du →
  ∃ new : list (Z * Z),
    pq' = new ++ pq ∧
    length dist' = length dist ∧
    vec_at dist' u = Some du ∧
    (∀ x d, vec_at dist x = Some d →
       ∃ d', vec_at dist' x = Some d' ∧ d' ≤ d ∧ (d' < d → (d', x) ∈ new)) ∧
    (∀ c x, (c, x) ∈ new →
       ∃ w d d', (x, w) ∈ edges ∧ c = du + w ∧ vec_at dist x = Some d ∧ c < d ∧
                 vec_at dist' x = Some d' ∧ d' ≤ c) ∧
    NoDup new ∧
    (∀ v w, (v, w) ∈ edges →
       in_int (du + w) ∧ ∃ dv, vec_at dist' v = Some dv ∧ dv ≤ du + w).
Proof.
  induction edges as [|[v w] rest IH]; intros Hw dist pq dist' pq' H Hu.
  - simpl in H. simplify_eq. exists []. split_and!; try done.
    + intros x d Hx. exists d. split_and!; [done|lia|lia].
    + intros c x Hin. by apply elem_of_nil in Hin.
    + constructor.
    + intros v w Hin. by apply elem_of_nil in Hin.
  - simpl in H. rewrite Hu in H.
    destruct (int_add du w) as [s|] eqn:Hs; [|done].
    apply int_add_Some in Hs as [-> Hint].
    destruct (vec_at dist v) as [dv|] eqn:Hv; [|done].
    assert (0 ≤ w) as Hw0 by (apply (Hw v); left).
    assert (Hw' : ∀ v0 w0, (v0, w0) ∈ rest → 0 ≤ w0)
      by (intros ???; eapply Hw; by right).
    pose proof (vec_at_range _ _ _ Hv) as Hvr.
    destruct (du + w <? dv) eqn:Hlt.
    + apply Z.ltb_lt in Hlt.
      assert (v ≠ u) as Hne by (intros ->; simplify_eq; lia).
      assert (Hu1 : vec_at (<[Z.to_nat v := du + w]> dist) u = Some du)
        by (rewrite vec_at_insert_ne; [done|lia|done]).
      destruct (IH Hw' _ _ _ _ H Hu1)
        as (new & -> & Hlen & Hu' & Hdec & Hnew & Hnd & Hcl).
      assert (Hv1 : vec_at (<[Z.to_nat v := du + w]> dist) v = Some (du + w))
        by (by eapply vec_at_insert_eq).
      destruct (Hdec _ _ Hv1) as (dv' & Hdv' & Hle & Hin).
      exists (new ++ [(du + w, v)]). split_and!.
      * by rewrite <- app_assoc.
      * by rewrite Hlen, length_insert.
      * done.
      * intros x d Hx. destruct (decide (x = v)) as [->|Hxv].
        -- simplify_eq. exists dv'. split_and!; [done|lia|].
           intros _. apply elem_of_app.
           destruct (decide (dv' < du + w)); [left; auto|right].
           replace dv' with (du + w) by lia. left.
        -- rewrite <- (vec_at_insert_ne dist v x (du + w)) in Hx by (lia || done).
           destruct (Hdec _ _ Hx) as (d' & ? & ? & Hin').
           exists d'. split_and!; [done..|]. intros ?. apply elem_of_app. auto.
      * intros c x [Hin'|Hin']%elem_of_app.
        -- destruct (Hnew _ _ Hin') as (w0 & d & d' & ? & ? & Hd & ? & ? & ?).
           destruct (decide (x = v)) as [->|Hxv].
           ++ rewrite Hv1 in Hd. injection Hd as <-. exists w0, dv, d'.
              split_and!; [by right|done|done|lia|done|done].
           ++ rewrite vec_at_insert_ne in Hd by (lia || done).
              exists w0, d, d'. split_and!; [by right|done..].
        -- apply list_elem_of_singleton in Hin'. simplify_eq.
           exists w, dv, dv'. split_and!; [left|done..].
      * apply NoDup_app. split_and!; [done| |apply NoDup_singleton].
        intros e He ->%list_elem_of_singleton.
        destruct (Hnew _ _ He) as (? & d & ? & ? & ? & Hd & ? & ? & ?).
        rewrite Hv1 in Hd. injection Hd as <-. lia.
      * intros v0 w0 [Heq|Hin']%elem_of_cons.
        -- simplify_eq. split; [done|]. exists dv'. split; [done|lia].
        -- by apply Hcl.
    + apply Z.ltb_ge in Hlt.
      destruct (IH Hw' _ _ _ _ H Hu)
        as (new & -> & Hlen & Hu' & Hdec & Hnew & Hnd & Hcl).
      exists new. split_and!; try done.
      * intros c x Hin'.
        destruct (Hnew _ _ Hin') as (w0 & d & d' & ? & ? & Hd & ? & ? & ?).
        exists w0, d, d'. split_and!; [by right|done..].
      * intros v0 w0 [Heq|Hin']%elem_of_cons.
        -- simplify_eq. split; [done|].
           destruct (Hdec _ _ Hv) as (d' & ? & ? & _). exists d'. split; [done|lia].
        -- by apply Hcl.
Qed.

Lemma relax_edges_defined (u du : Z) (edges : list (Z * Z)) :
  ∀ (dist : list Z) (pq : list (Z * Z)),
  vec_at dist u = Some du →
  (∀ v w, (v, w) ∈ edges →
     0 ≤ w ∧ in_int (du + w) ∧ 0 ≤ v < Z.of_nat (length dist)) →
  is_Some (relax_edges u edges dist pq).
Proof.
  induction edges as [|[v w] rest IH]; intros dist pq Hu Hall; [by eexists|].
  simpl. rewrite Hu.
  destruct (Hall v w) as (Hw & Hint & Hv); [left|].
  destruct (int_add du w) as [s|] eqn:Hs.
  2:{ assert (int_add du w = Some (du + w)) by (by apply int_add_Some). congruence. }
  apply int_add_Some in Hs as [-> _].
  destruct (vec_at_is_Some dist v Hv) as [dv Hdv]. rewrite Hdv.
  assert (Hrest : ∀ l : list Z, length l = length dist →
            ∀ v0 w0, (v0, w0) ∈ rest →
            0 ≤ w0 ∧ in_int (du + w0) ∧ 0 ≤ v0 < Z.of_nat (length l)).
  { intros l Hl v0 w0 Hin. rewrite Hl. apply Hall. by right. }
  destruct (du + w <? dv) eqn:Hlt.
  - apply Z.ltb_lt in Hlt. apply IH.
    + rewrite vec_at_insert_ne; [done|lia|]. intros ->. simplify_eq. lia.
    + apply Hrest. by rewrite length_insert.
  - apply IH; [done|]. by apply Hrest.
Qed.

Lemma sumZ_insert (l : list Z) (i : nat) (d x : Z) :
  l !! i = Some d → sumZ (<[i := x]> l) = sumZ l - d + x.
Proof.
  revert i. induction l as [|y l IH]; intros [|i] H; simpl in *; try done.
  - simplify_eq. lia.
  - rewrite (IH i H). lia.
Qed.

Lemma weight_sum_cons (y : Z) (l : list Z) :
  weight_sum (y :: l) = y - INT_MIN + weight_sum l.
Proof. done. Qed.

Lemma weight_sum_insert (l : list Z) (i : nat) (d x : Z) :
  l !! i = Some d → weight_sum (<[i := x]> l) = weight_sum l - d + x.
Proof.
  intros H. unfold weight_sum. rewrite list_fmap_insert.
  rewrite (sumZ_insert _ i (d - INT_MIN)); [lia|].
  by rewrite list_lookup_fmap, H.
Qed.

Lemma weight_sum_nonneg (l : list Z) : Forall in_int l → 0 ≤ weight_sum l.
Proof.
  induction 1 as [|y l Hy _ IH]; [done|].
  rewrite weight_sum_cons. unfold in_int, INT_MIN, INT_MAX in *. lia.
Qed.

Lemma weight_sum_bound (l : list Z) :
  Forall in_int l → weight_sum l ≤ Z.of_nat (length l) * (2 ^ 32 - 1).
Proof.
  induction 1 as [|y l Hy _ IH]; [done|].
  rewrite weight_sum_cons, length_cons. unfold in_int, INT_MIN, INT_MAX in *. lia.
Qed.

(** Whatever the graph, the loop over the edges keeps the distances in
    [int] and pays for each entry it pushes with a smaller distance. *)
Lemma relax_edges_measure (u : Z) (edges : list (Z * Z)) :
  ∀ (dist : list Z) (pq : list (Z * Z)) (dist' : list Z) (pq' : list (Z * Z)),
  relax_edges u edges dist pq = Some (dist', pq') →
  Forall in_int dist →
  Forall in_int dist' ∧ length dist' = length dist ∧
  2 * weight_sum dist' + Z.of_nat (length pq')
    ≤ 2 * weight_sum dist + Z.of_nat (length pq).
Proof.
  induction edges as [|[v w] rest IH]; intros dist pq dist' pq' H Hint.
  - simpl in H. by simplify_eq.
  - simpl in H. destruct (vec_at dist u) as [du|]; [|done].
    destruct (int_add du w) as [s|] eqn:Hs; [|done].
    apply int_add_Some in Hs as [-> Hs].
    destruct (vec_at dist v) as [dv|] eqn:Hv; [|done].
    destruct (du + w <? dv) eqn:Hlt; [|by apply IH].
    apply Z.ltb_lt in Hlt. apply vec_at_Some in Hv as [Hv0 Hv].
    apply IH in H as (H1 & H2 & H3).
    + split_and!; [done|by rewrite H2, length_insert|].
      rewrite (weight_sum_insert _ _ dv) in H3 by done.
      simpl in H3. lia.
    + apply Forall_insert; done.
Qed.

Lemma body_measure (graph : graph_t) (st st' : state) :
  Forall in_int st.1 → body graph st = inl st' →
  Forall in_int st'.1 ∧ length st'.1 = length st.1 ∧
  (measure st' < measure st)%nat.
Proof.
  destruct st as [dist pq]. intros Hint H. unfold body in H.
  destruct (pq_pop pair_leb pq) as [[[c u] pq']|] eqn:Hpop; [|done].
  apply pop_spec in Hpop as (_ & Hperm & _).
  apply Permutation_length in Hperm. simpl in Hperm.
  pose proof (weight_sum_nonneg _ Hint) as Hnn.
  destruct (vec_at dist u) as [du|]; [|done].
  destruct (du <? c).
  - simplify_eq. split_and!; [done..|]. unfold measure, weight_sum in *. simpl in *. lia.
  - destruct (vec_at graph u) as [edges|]; [|done].
    destruct (relax_edges u edges dist pq') as [[dist1 pq1]|] eqn:Hr; [|done].
    simplify_eq. apply relax_edges_measure in Hr as (H1 & H2 & H3); [|done].
    split_and!; [done..|].
    pose proof (weight_sum_nonneg _ H1).
    unfold measure, weight_sum in *. simpl in *. lia.
Qed.

Lemma init_Some (n source : Z) (st : state) :
  init n source = Some st ↔
  0 ≤ source < n ∧
  st = (<[Z.to_nat source := 0]> (replicate (Z.to_nat n) INF), [(0, source)]).
Proof.
  unfold init. destruct (vec_set _ source 0) as [d|] eqn:E.
  - apply vec_set_Some in E as [Hr ->]. rewrite length_replicate in Hr.
    split; [intros [= <-]; split; [lia|done] | by intros [_ ->]].
  - split; [done|]. intros [Hr _].
    assert (is_Some (vec_set (replicate (Z.to_nat n) INF) source 0)) as [? HH].
    { eexists. apply vec_set_Some. split; [|done]. rewrite length_replicate. lia. }
    congruence.
Qed.

Lemma init_in_int (n source : Z) (st : state) :
  init n source = Some st →
  Forall in_int st.1 ∧ Z.of_nat (length st.1) = n ∧ (measure st < 2 ^ fuel n)%nat.
Proof.
  intros [Hs ->]%init_Some. simpl.
  assert (Hint : Forall in_int (<[Z.to_nat source := 0]> (replicate (Z.to_nat n) INF))).
  { apply Forall_insert; [apply Forall_replicate|]; unfold in_int, INF, INT_MIN, INT_MAX; lia. }
  split_and!; [done| rewrite length_insert, length_replicate; lia |].
  pose proof (weight_sum_bound _ Hint) as Hb.
  pose proof (weight_sum_nonneg _ Hint) as Hnn.
  rewrite length_insert, length_replicate in Hb.
  unfold measure, fuel. simpl. fold (weight_sum (<[Z.to_nat source := 0]> (replicate (Z.to_nat n) INF))).
  set (x := 2 ^ 33 * n + 2).
  assert (0 < x) by (unfold x; lia).
  pose proof (Z.log2_spec x ltac:(done)) as [_ Hlog].
  pose proof (Z.log2_nonneg x).
  apply Nat2Z.inj_lt. rewrite Nat2Z.inj_pow, Z2Nat.id by lia.
  rewrite Nat2Z.inj_add, Z2Nat.id by lia.
  change (Z.of_nat 2) with 2. change (Z.of_nat 1) with 1.
  replace (Z.log2 x + 1) with (Z.succ (Z.log2 x)) by lia.
  unfold x in *. lia.
Qed.

Lemma body_result (graph : graph_t) (st : state) (r : outcome (list Z)) :
  body graph st = inr r → r = Undefined ∨ (r = Returns st.1 ∧ st.2 = []).
Proof.
  destruct st as [dist pq]. unfold body.
  destruct (pq_pop pair_leb pq) as [[[c u] pq']|] eqn:Hpop.
  - destruct (vec_at dist u); [|intros [= <-]; by left].
    destruct (_ <? _); [done|].
    destruct (vec_at graph u); [|intros [= <-]; by left].
    destruct (relax_edges _ _ _ _); [done|intros [= <-]; by left].
  - intros [= <-]. right. split; [done|]. by apply pq_pop_none in Hpop.
Qed.

(** The call always comes to an end. *)
Lemma dijkstra_loop_terminates (n : Z) (graph : graph_t) (source : Z) (st : state) :
  init n source = Some st →
  ∃ r, while_loop (fuel n) (body graph) st = inr r.
Proof.
  intros Hst. apply init_in_int in Hst as (Hint & _ & Hm).
  rewrite while_loop_run.
  apply (run_terminates (λ st, Forall in_int st.1) measure); [|done..].
  intros st1 st2 H1 H2. destruct (body_measure _ _ _ H1 H2) as (? & ? & ?). done.
Qed.

Lemma dijkstra_not_Diverges (n : Z) (graph : graph_t) (source : Z) :
  dijkstra n graph source ≠ Diverges.
Proof.
  unfold dijkstra. destruct (n <? 0); [done|].
  destruct (init n source) as [st|] eqn:Hst; [|done].
  destruct (dijkstra_loop_terminates _ graph _ _ Hst) as [r Hr]. rewrite Hr.
  rewrite while_loop_run in Hr.
  apply (run_inr_invariant (λ _, True)) in Hr as (st' & _ & Hr); [|done..].
  apply body_result in Hr as [->|[-> _]]; done.
Qed.

Section Invariant.
Variables (n : Z) (graph : graph_t) (source : Z).
Hypothesis Hnn : nonneg_weights graph.
Hypothesis Hsrc : 0 ≤ source < n.

Lemma walk_nonneg (v W : Z) : walk graph source v W → 0 ≤ W.
Proof.
  induction 1 as [|u W edges v w _ IH Hu Hin]; [done|].
  pose proof (Hnn _ _ _ _ Hu Hin). lia.
Qed.

Lemma init_inv (st : state) : init n source = Some st → inv n graph source st.
Proof.
  intros [_ ->]%init_Some.
  assert (Hs : vec_at (replicate (Z.to_nat n) INF) source = Some INF).
  { apply vec_at_Some. split; [lia|]. apply lookup_replicate_2. lia. }
  assert (Hs' : vec_at (<[Z.to_nat source := 0]> (replicate (Z.to_nat n) INF)) source
                = Some 0) by (by eapply vec_at_insert_eq).
  assert (Hall : ∀ v d,
            vec_at (<[Z.to_nat source := 0]> (replicate (Z.to_nat n) INF)) v = Some d →
            (v = source ∧ d = 0) ∨ d = INF).
  { intros v d Hv. destruct (decide (v = source)) as [->|Hne].
    - left. split; [done|congruence].
    - right. rewrite vec_at_insert_ne in Hv by lia.
      apply vec_at_Some in Hv as [_ Hv]. by apply lookup_replicate in Hv as [-> _]. }
  constructor; simpl.
  - rewrite length_insert, length_replicate. lia.
  - intros v d Hv. destruct (Hall _ _ Hv) as [[-> ->]| ->].
    + split; [unfold INF, INT_MAX; lia|]. intros _. constructor.
    + split; [lia|]. lia.
  - done.
  - intros c x [= -> ->]%list_elem_of_singleton. split; [unfold INF, INT_MAX; lia|].
    exists 0. split; [done|lia].
  - intros x d Hx Hlt. left. destruct (Hall _ _ Hx) as [[-> ->]| ->]; [left|lia].
  - apply NoDup_singleton.
Qed.

(** Every path from the source is accounted for: by the distance of its
    end, by an entry of the queue, or its weight is [INF] at least. *)
Lemma inv_frontier (st : state) (v W : Z) :
  inv n graph source st → walk graph source v W →
  (∃ d, vec_at st.1 v = Some d ∧ d ≤ W) ∨ (∃ c x, (c, x) ∈ st.2 ∧ c ≤ W) ∨
  INF ≤ W.
Proof.
  intros Hinv. induction 1 as [|u W edges v w Hwalk IH Hu Hin].
  - left. exists 0. split; [apply Hinv|done].
  - pose proof (Hnn _ _ _ _ Hu Hin) as Hw.
    destruct IH as [(d & Hd & Hle)|[(c & x & Hcx & Hle)|HINF]].
    2:{ right. left. exists c, x. split; [done|lia]. }
    2:{ right. right. lia. }
    destruct (decide (d < INF)) as [Hlt|Hge].
    + destruct (inv_closed _ _ _ _ Hinv _ _ Hd Hlt) as [Hq|Hcl].
      * right. left. exists d, u. split; [done|lia].
      * destruct (Hcl _ _ _ Hu Hin) as (dv & Hdv & Hdvle).
        left. exists dv. split; [done|lia].
    + right. right. lia.
Qed.

Lemma body_inv (st st' : state) :
  inv n graph source st → body graph st = inl st' → inv n graph source st'.
Proof.
  destruct st as [dist pq]. intros Hinv H. unfold body in H.
  destruct (pq_pop pair_leb pq) as [[[c u] pq']|] eqn:Hpop; [|done].
  apply pop_spec in Hpop as (Hin & Hperm & Hmin).
  destruct (inv_pq _ _ _ _ Hinv _ _ Hin) as (HcINF & du & Hu & Hduc). simpl in *.
  rewrite Hu in H.
  assert (Hsub : ∀ e, e ∈ pq' → e ∈ pq) by (intros e He; rewrite Hperm; by right).
  assert (Hnd : NoDup ((c, u) :: pq')) by (rewrite <- Hperm; apply Hinv).
  apply NoDup_cons in Hnd as [Hnotin Hnd'].
  assert (Hother : ∀ e, e ∈ pq → e ≠ (c, u) → e ∈ pq').
  { intros e He Hne. rewrite Hperm in He. apply elem_of_cons in He as [?|?]; done. }
  destruct (du <? c) eqn:Hstale.
  - (* a stale entry *)
    apply Z.ltb_lt in Hstale. simplify_eq. constructor; simpl; try apply Hinv.
    + intros c0 x Hc0. apply (inv_pq _ _ _ _ Hinv). by apply Hsub.
    + intros x d Hx Hlt. destruct (inv_closed _ _ _ _ Hinv _ _ Hx Hlt) as [Hq|Hcl];
        [left|by right].
      apply Hother; [done|]. simpl in *. intros [= -> ->]. simplify_eq. lia.
    + done.
  - (* the node [u] is expanded *)
    apply Z.ltb_ge in Hstale. assert (c = du) as -> by lia.
    destruct (vec_at graph u) as [edges|] eqn:Hg; [|done].
    destruct (relax_edges u edges dist pq') as [[dist1 pq1]|] eqn:Hr; [|done].
    simplify_eq.
    assert (Hw : ∀ v w, (v, w) ∈ edges → 0 ≤ w) by (intros v w ?; by eapply Hnn).
    destruct (relax_edges_char u du edges Hw _ _ _ _ Hr Hu)
      as (new & -> & Hlen & Hu' & Hdec & Hnew & Hndnew & Hcl).
    assert (Hwalku : walk graph source u du)
      by (by apply (inv_le _ _ _ _ Hinv u du Hu)).
    assert (Hback : ∀ x d', vec_at dist1 x = Some d' →
              ∃ d, vec_at dist x = Some d ∧ d' ≤ d ∧ (d' < d → (d', x) ∈ new)).
    { intros x d' Hx. pose proof (vec_at_range _ _ _ Hx) as Hxr. rewrite Hlen in Hxr.
      destruct (vec_at_is_Some _ _ Hxr) as [d Hd].
      destruct (Hdec _ _ Hd) as (d'' & Hd'' & ? & ?). simplify_eq. eauto. }
    constructor; simpl.
    + rewrite Hlen. apply Hinv.
    + intros v d' Hv. destruct (Hback _ _ Hv) as (d & Hd & Hle & Hlt).
      destruct (inv_le _ _ _ _ Hinv _ _ Hd) as [HdINF Hdwalk].
      split; [lia|]. intros Hd'.
      destruct (decide (d' < d)) as [Hdd|Hdd].
      * destruct (Hnew _ _ (Hlt Hdd)) as (w & ? & ? & Hvw & -> & _).
        by econstructor.
      * replace d' with d by lia. apply Hdwalk. lia.
    + destruct (Hdec _ _ (inv_src _ _ _ _ Hinv)) as (d' & Hd' & Hle & Hlt).
      destruct (decide (d' < 0)) as [Hneg|?]; [|by replace 0 with d' by lia].
      destruct (Hnew _ _ (Hlt Hneg)) as (w & ? & ? & Hvw & -> & _).
      pose proof (walk_nonneg _ _ Hwalku). pose proof (Hw _ _ Hvw). lia.
    + intros c x [Hc|Hc]%elem_of_app.
      * destruct (Hnew _ _ Hc) as (w & d & d' & ? & -> & Hd & ? & Hd' & ?).
        destruct (inv_le _ _ _ _ Hinv _ _ Hd) as [? _]. split; [lia|]. eauto.
      * destruct (inv_pq _ _ _ _ Hinv _ _ (Hsub _ Hc)) as (? & d & Hd & ?).
        split; [done|]. destruct (Hdec _ _ Hd) as (d' & ? & ? & _).
        exists d'. split; [done|lia].
    + intros x d' Hx Hlt. destruct (Hback _ _ Hx) as (d & Hd & Hle & Hin').
      destruct (decide (x = u)) as [->|Hxu].
      { right. simplify_eq. intros edges' v w Hg' Hvw. simplify_eq.
        by destruct (Hcl _ _ Hvw) as [_ ?]. }
      destruct (decide (d' < d)) as [Hdd|Hdd].
      { left. apply elem_of_app. left. auto. }
      assert (d' = d) as -> by lia.
      destruct (inv_closed _ _ _ _ Hinv _ _ Hd Hlt) as [Hq|Hclx].
      * left. apply elem_of_app. right. apply Hother; [done|]. congruence.
      * right. intros edges' v w Hg' Hvw.
        destruct (Hclx _ _ _ Hg' Hvw) as (dv & Hdv & ?).
        destruct (Hdec _ _ Hdv) as (dv' & ? & ? & _). exists dv'. split; [done|lia].
    + apply NoDup_app. split_and!; [done| |done].
      intros [c x] Hc Hc'.
      destruct (Hnew _ _ Hc) as (w & d & d' & ? & ? & Hd & ? & _).
      destruct (inv_pq _ _ _ _ Hinv _ _ (Hsub _ Hc')) as (_ & d0 & Hd0 & ?).
      simpl in *. simplify_eq. lia.
Qed.

(** When the queue is empty the distances are the shortest ones, cut at [INF]. *)
Lemma inv_final (dist : list Z) (v : Z) :
  inv n graph source (dist, []) → 0 ≤ v < n → distance_of graph source dist v.
Proof.
  intros Hinv Hv. rewrite <- (inv_len _ _ _ _ Hinv) in Hv.
  destruct (vec_at_is_Some _ _ Hv) as [d Hd]. exists d.
  destruct (inv_le _ _ _ _ Hinv _ _ Hd) as [Hle Hwalk].
  split_and!; [done..| |done].
  intros W HW.
  destruct (inv_frontier _ _ _ Hinv HW) as [(d' & Hd' & ?)|[(c & x & Hin & _)|?]].
  - simpl in *. simplify_eq. done.
  - by apply elem_of_nil in Hin.
  - lia.
Qed.

(** The entry that is popped and not stale carries the shortest distance
    of its node. *)
Lemma inv_pop_shortest (dist : list Z) (pq pq' : list (Z * Z)) (c u : Z) :
  inv n graph source (dist, pq) →
  pq_pop pair_leb pq = Some ((c, u), pq') →
  vec_at dist u = Some c →
  shortest graph source u c ∧ c < INF.
Proof.
  intros Hinv Hpop Hu. apply pop_spec in Hpop as (Hin & _ & Hmin).
  destruct (inv_pq _ _ _ _ Hinv _ _ Hin) as (Hc & _).
  split; [|done]. split; [by apply (inv_le _ _ _ _ Hinv u c Hu)|].
  intros W HW.
  destruct (inv_frontier _ _ _ Hinv HW) as [(d & Hd & ?)|[(c' & x & Hin' & ?)|?]].
  - simpl in *. simplify_eq. done.
  - specialize (Hmin _ Hin'). simpl in *. lia.
  - lia.
Qed.

(** Without overflow no iteration has undefined behaviour. *)
Lemma body_defined (st : state) :
  well_formed n graph → no_overflow graph source → inv n graph source st →
  body graph st ≠ inr Undefined.
Proof.
  destruct st as [dist pq]. intros Hwf Hno Hinv. unfold body.
  destruct (pq_pop pair_leb pq) as [[[c u] pq']|] eqn:Hpop; [|done].
  pose proof Hpop as (Hin & _ & _)%pop_spec.
  destruct (inv_pq _ _ _ _ Hinv _ _ Hin) as (HcINF & du & Hu & Hduc). simpl in *.
  rewrite Hu. destruct (du <? c) eqn:Hstale; [done|].
  apply Z.ltb_ge in Hstale. assert (c = du) as -> by lia.
  pose proof (vec_at_range _ _ _ Hu) as Hur.
  pose proof (inv_len _ _ _ _ Hinv) as Hdl. simpl in Hdl. rewrite Hdl in Hur.
  destruct Hwf as [Hlen Hedges]. rewrite <- Hlen in Hur.
  destruct (vec_at_is_Some _ _ Hur) as [edges Hg]. rewrite Hg.
  destruct (inv_pop_shortest _ _ _ _ _ Hinv Hpop Hu) as [Hsh _].
  destruct (relax_edges_defined u du edges dist pq' Hu) as [st' ->]; [|done].
  intros v w Hvw. pose proof (Hnn _ _ _ _ Hg Hvw) as Hw.
  pose proof (Hno _ _ _ _ _ Hsh HcINF Hg Hvw) as Hov.
  pose proof (walk_nonneg _ _ (proj1 Hsh)) as Hdu.
  pose proof (Hedges _ _ _ _ Hg Hvw). rewrite Hdl.
  unfold in_int, INT_MIN, INT_MAX in *. lia.
Qed.

(** The array a call returns. *)
Lemma dijkstra_Returns (dist : list Z) :
  dijkstra n graph source = Returns dist →
  Z.of_nat (length dist) = n ∧ ∀ v, 0 ≤ v < n → distance_of graph source dist v.
Proof.
  unfold dijkstra. destruct (n <? 0); [done|].
  destruct (init n source) as [st|] eqn:Hst; [|done].
  destruct (while_loop _ _ _) as [|r] eqn:Hloop; [done|]. intros ->.
  rewrite while_loop_run in Hloop.
  apply (run_inr_invariant (inv n graph source)) in Hloop as (st' & Hinv & Hr).
  - apply body_result in Hr as [?|[[= ->] Hq]]; [done|].
    destruct st' as [d q]. simpl in *. subst q.
    split; [apply Hinv | intros v Hv; by apply inv_final].
  - intros ????. by eapply body_inv.
  - by apply init_inv.
Qed.

Lemma dijkstra_defined :
  well_formed n graph → no_overflow graph source →
  ∃ dist, dijkstra n graph source = Returns dist.
Proof.
  intros Hwf Hno. unfold dijkstra. destruct (n <? 0) eqn:Hn; [lia|].
  destruct (init n source) as [st|] eqn:Hst.
  2:{ assert (is_Some (init n source)) as [? ?]; [|congruence].
      eexists. by apply init_Some. }
  destruct (dijkstra_loop_terminates _ graph _ _ Hst) as [r Hr]. rewrite Hr.
  rewrite while_loop_run in Hr.
  apply (run_inr_invariant (inv n graph source)) in Hr as (st' & Hinv & Hr).
  - pose proof (body_defined _ Hwf Hno Hinv) as Hdef.
    apply body_result in Hr as Hr'. destruct Hr' as [->|[-> _]]; [done|eauto].
  - intros ????. by eapply body_inv.
  - by apply init_inv.
Qed.

(** *** A node is expanded once *)

Lemma expands_frozen (st st' : state) (u : Z) :
  inv n graph source st → expands st u → body graph st = inl st' →
  ∃ d, frozen u d st'.
Proof.
  destruct st as [dist pq]. intros Hinv (c & pq' & du & Hpop & Hu & Hns) H.
  simpl in *. unfold body in H. rewrite Hpop, Hu in H.
  apply pop_spec in Hpop as (Hin & Hperm & Hmin).
  destruct (inv_pq _ _ _ _ Hinv _ _ Hin) as (HcINF & du' & Hu' & Hduc).
  simpl in *. simplify_eq. assert (c = du) as -> by lia.
  destruct (du <? du) eqn:E; [apply Z.ltb_lt in E; lia|].
  destruct (vec_at graph u) as [edges|] eqn:Hg; [|done].
  destruct (relax_edges u edges dist pq') as [[dist1 pq1]|] eqn:Hr; [|done].
  simplify_eq.
  assert (Hw : ∀ v w, (v, w) ∈ edges → 0 ≤ w) by (intros v w ?; by eapply Hnn).
  destruct (relax_edges_char u du edges Hw _ _ _ _ Hr Hu)
    as (new & -> & Hlen & Hu1 & Hdec & Hnew & Hndnew & Hcl).
  assert (Hnd : NoDup ((du, u) :: pq')) by (rewrite <- Hperm; apply Hinv).
  apply NoDup_cons in Hnd as [Hnotin _].
  exists du. split_and!; simpl.
  - done.
  - intros c x [Hc|Hc]%elem_of_app.
    + destruct (Hnew _ _ Hc) as (w & ? & ? & Hvw & -> & _).
      pose proof (Hw _ _ Hvw). lia.
    + apply (Hmin (c, x)). rewrite Hperm. by right.
  - intros c [Hc|Hc]%elem_of_app.
    + destruct (Hnew _ _ Hc) as (w & d & ? & Hvw & -> & Hd & ? & _).
      pose proof (Hw _ _ Hvw). simplify_eq. lia.
    + assert (du ≤ c) by (apply (Hmin (c, u)); rewrite Hperm; by right).
      destruct (decide (c = du)) as [->|?]; [done|lia].
Qed.

Lemma frozen_step (st st' : state) (u d : Z) :
  inv n graph source st → frozen u d st → body graph st = inl st' →
  frozen u d st'.
Proof.
  destruct st as [dist pq]. intros Hinv (Hd & Hkeys & Hu) H.
  simpl in *. unfold body in H.
  destruct (pq_pop pair_leb pq) as [[[c x] pq']|] eqn:Hpop; [|done].
  apply pop_spec in Hpop as (Hin & Hperm & Hmin).
  assert (Hsub : ∀ e, e ∈ pq' → e ∈ pq) by (intros e He; rewrite Hperm; by right).
  destruct (inv_pq _ _ _ _ Hinv _ _ Hin) as (HcINF & dx & Hx & Hdxc). simpl in *.
  rewrite Hx in H. destruct (dx <? c) eqn:Hstale.
  - simplify_eq. split_and!; simpl; [done|..]; intros; [eapply Hkeys|eapply Hu]; eauto.
  - apply Z.ltb_ge in Hstale. assert (c = dx) as -> by lia.
    destruct (vec_at graph x) as [edges|] eqn:Hg; [|done].
    destruct (relax_edges x edges dist pq') as [[dist1 pq1]|] eqn:Hr; [|done].
    simplify_eq.
    assert (Hw : ∀ v w, (v, w) ∈ edges → 0 ≤ w) by (intros v w ?; by eapply Hnn).
    destruct (relax_edges_char x dx edges Hw _ _ _ _ Hr Hx)
      as (new & -> & Hlen & Hx1 & Hdec & Hnew & Hndnew & Hcl).
    pose proof (Hkeys _ _ Hin) as Hddx.
    assert (Hnewkeys : ∀ c y, (c, y) ∈ new → d ≤ c ∧ y ≠ u).
    { intros c y Hc. destruct (Hnew _ _ Hc) as (w & d0 & ? & Hvw & -> & Hd0 & ? & _).
      pose proof (Hw _ _ Hvw). split; [lia|]. intros ->. simplify_eq. lia. }
    split_and!; simpl.
    + destruct (Hdec _ _ Hd) as (d' & Hd' & Hle & Hlt).
      destruct (decide (d' < d)) as [Hdd|?]; [|by replace d with d' by lia].
      destruct (Hnewkeys _ _ (Hlt Hdd)) as [_ ?]. done.
    + intros c y [Hc|Hc]%elem_of_app; [by apply Hnewkeys in Hc as [? _]|].
      eapply Hkeys. eauto.
    + intros c [Hc|Hc]%elem_of_app; [by apply Hnewkeys in Hc as [_ ?]|].
      apply Hu. eauto.
Qed.

Lemma frozen_not_expands (st : state) (u d : Z) :
  frozen u d st → ¬ expands st u.
Proof.
  destruct st as [dist pq]. intros (Hd & _ & Hu) (c & pq' & du & Hpop & Hdu & Hns).
  simpl in *. apply pop_spec in Hpop as (Hin & _). specialize (Hu _ Hin).
  simplify_eq. lia.
Qed.

Lemma expands_once (st0 sti stj : state) (i j : nat) (u : Z) :
  init n source = Some st0 → (i < j)%nat →
  run i (body graph) st0 = inl sti →
  run j (body graph) st0 = inl stj →
  expands sti u → ¬ expands stj u.
Proof.
  intros Hst0 Hij Hi Hj Hexp.
  assert (Hstep : ∀ st st', inv n graph source st → body graph st = inl st' →
                            inv n graph source st') by (intros ????; by eapply body_inv).
  pose proof (init_inv _ Hst0) as Hinv0.
  pose proof (run_inl_invariant _ _ Hstep _ _ _ Hinv0 Hi) as Hinvi.
  destruct (run_inl_split (Datatypes.S i) j _ _ _ ltac:(lia) Hj) as (st1 & Hi1 & Hrest).
  replace (Datatypes.S i) with (i + 1)%nat in Hi1 by lia.
  rewrite run_add, Hi in Hi1. simpl in Hi1.
  destruct (body graph sti) as [st1'|] eqn:Hb; [|done]. simplify_eq.
  destruct (expands_frozen _ _ _ Hinvi Hexp Hb) as [d Hfr].
  eapply (frozen_not_expands _ u d).
  assert (Hboth : inv n graph source stj ∧ frozen u d stj); [|by destruct Hboth].
  eapply (run_inl_invariant (λ st, inv n graph source st ∧ frozen u d st));
    [|split; [by eapply Hstep|exact Hfr]|exact Hrest].
  intros st st' [H1 H2] H3. split; [by eapply body_inv|by eapply frozen_step].
Qed.

End Invariant.

(** *** The checks on the input *)

Lemma forallb_elem {A : Type} (f : A → bool) (l : list A) (x : A) :
  forallb f l = true → x ∈ l → f x = true.
Proof. intros H Hx. eapply forallb_forall; [done|]. by apply list_elem_of_In. Qed.

Lemma well_formedb_true (n : Z) (graph : graph_t) :
  well_formedb n graph = true → well_formed n graph.
Proof.
  intros [Hlen Hall]%andb_true_iff. split; [lia|].
  intros u edges v w [_ Hu%list_elem_of_lookup_2]%vec_at_Some Hin.
  pose proof (forallb_elem _ _ _ (forallb_elem _ _ _ Hall Hu) Hin). simpl in *. lia.
Qed.

Lemma nonneg_weightsb_true (graph : graph_t) :
  nonneg_weightsb graph = true → nonneg_weights graph.
Proof.
  intros Hall u edges v w [_ Hu%list_elem_of_lookup_2]%vec_at_Some Hin.
  pose proof (forallb_elem _ _ _ (forallb_elem _ _ _ Hall Hu) Hin). simpl in *. lia.
Qed.

Lemma dijkstra_source_out_of_range (n : Z) (graph : graph_t) (source : Z) :
  0 ≤ n → ¬ (0 ≤ source < n) → dijkstra n graph source = Undefined.
Proof.
  intros Hn Hs. unfold dijkstra. destruct (n <? 0) eqn:E; [lia|].
  destruct (init n source) as [st|] eqn:Hst; [|done].
  by apply init_Some in Hst as [? _].
Qed.

Lemma dijkstra_not_Throws_spec (n : Z) (graph : graph_t) (source : Z) :
  dijkstra n graph source ≠ Throws InvalidInputError ∧
  dijkstra n graph source ≠ Throws EmptyGraphError.
Proof.
  unfold dijkstra. destruct (n <? 0); [done|].
  destruct (init n source) as [st|] eqn:Hst; [|done].
  destruct (dijkstra_loop_terminates _ graph _ _ Hst) as [r Hr]. rewrite Hr.
  rewrite while_loop_run in Hr.
  apply (run_inr_invariant (λ _, True)) in Hr as (st' & _ & Hr); [|done..].
  apply body_result in Hr as [->|[-> _]]; done.
Qed.

(** *** A heavier edge *)

Lemma set_weight_edge (graph : graph_t) (u i : nat) (edges : list (Z * Z))
    (v w w' : Z) (x : Z) (edges' : list (Z * Z)) (v0 w0 : Z) :
  graph !! u = Some edges → edges !! i = Some (v, w) → w ≤ w' →
  vec_at (set_weight graph u i w') x = Some edges' → (v0, w0) ∈ edges' →
  ∃ edges0 w1, vec_at graph x = Some edges0 ∧ (v0, w1) ∈ edges0 ∧ w1 ≤ w0.
Proof.
  intros Hu Hi Hw. unfold set_weight. rewrite Hu, Hi.
  intros [Hx0 Hx]%vec_at_Some Hin.
  destruct (decide (Z.to_nat x = u)) as [<-|Hne].
  - rewrite list_lookup_insert_eq in Hx by (by eapply lookup_lt_Some).
    injection Hx as <-. exists edges.
    apply list_elem_of_lookup in Hin as [j Hj].
    destruct (decide (j = i)) as [->|Hji].
    + rewrite list_lookup_insert_eq in Hj by (by eapply lookup_lt_Some).
      injection Hj as <- <-. exists w. split_and!; [by apply vec_at_Some| |done].
      by eapply list_elem_of_lookup_2.
    + rewrite list_lookup_insert_ne in Hj by done.
      exists w0. split_and!; [by apply vec_at_Some| |done].
      by eapply list_elem_of_lookup_2.
  - rewrite list_lookup_insert_ne in Hx by done.
    exists edges', w0. split_and!; [by apply vec_at_Some|done..].
Qed.

Lemma set_weight_walk (graph : graph_t) (u i : nat) (edges : list (Z * Z))
    (v w w' : Z) (s x W' : Z) :
  graph !! u = Some edges → edges !! i = Some (v, w) → w ≤ w' →
  walk (set_weight graph u i w') s x W' →
  ∃ W, walk graph s x W ∧ W ≤ W'.
Proof.
  intros Hu Hi Hw. induction 1 as [|y W' edges' x w0 _ (W & HW & Hle) Hy Hin].
  - exists 0. split; [constructor|done].
  - destruct (set_weight_edge _ _ _ _ _ _ _ _ _ _ _ Hu Hi Hw Hy Hin)
      as (edges0 & w1 & ? & ? & ?).
    exists (W + w1). split; [by econstructor|lia].
Qed.

Lemma set_weight_nonneg (graph : graph_t) (u i : nat)
    (edges : list (Z * Z)) (v w w' : Z) :
  graph !! u = Some edges → edges !! i = Some (v, w) → w ≤ w' →
  nonneg_weights graph → nonneg_weights (set_weight graph u i w').
Proof.
  intros Hu Hi Hw Hnn x edges' v0 w0 Hx Hin.
  destruct (set_weight_edge _ _ _ _ _ _ _ _ _ _ _ Hu Hi Hw Hx Hin)
    as (edges0 & w1 & Hx0 & Hin0 & ?).
  pose proof (Hnn _ _ _ _ Hx0 Hin0). lia.
Qed.

Lemma dijkstra_monotone (n : Z) (graph : graph_t) (source : Z) (u i : nat)
    (edges : list (Z * Z)) (v w w' : Z) (dist dist' : list Z) :
  nonneg_weights graph →
  graph !! u = Some edges → edges !! i = Some (v, w) → w ≤ w' →
  dijkstra n graph source = Returns dist →
  dijkstra n (set_weight graph u i w') source = Returns dist' →
  Forall2 Z.le dist dist'.
Proof.
  intros Hnn Hu Hi Hw Hd Hd'.
  pose proof (set_weight_nonneg _ _ _ _ _ _ _ Hu Hi Hw Hnn) as Hnn'.
  assert (0 ≤ source < n) as Hsrc.
  { unfold dijkstra in Hd. destruct (n <? 0); [done|].
    destruct (init n source) as [st|] eqn:Hst; [|done].
    by apply init_Some in Hst as [? _]. }
  destruct (dijkstra_Returns _ _ _ Hnn Hsrc _ Hd) as [Hlen Hdist].
  destruct (dijkstra_Returns _ _ _ Hnn' Hsrc _ Hd') as [Hlen' Hdist'].
  apply Forall2_same_length_lookup_2; [lia|].
  intros j d d' Hj Hj'.
  assert (0 ≤ Z.of_nat j < n) as Hjn by (apply lookup_lt_Some in Hj; lia).
  destruct (Hdist _ Hjn) as (d0 & Hd0 & _ & Hlow & _).
  destruct (Hdist' _ Hjn) as (d0' & Hd0' & HINF & _ & Hwalk').
  apply vec_at_Some in Hd0 as [_ Hd0]. apply vec_at_Some in Hd0' as [_ Hd0'].
  rewrite Nat2Z.id in Hd0, Hd0'. simplify_eq.
  destruct (decide (d' < INF)) as [Hlt|?].
  - destruct (set_weight_walk _ _ _ _ _ _ _ _ _ _ Hu Hi Hw (Hwalk' Hlt)) as (W & HW & ?).
    specialize (Hlow _ HW). lia.
  - pose proof (Hdist _ Hjn) as (d0 & Hd0 & ? & _).
    apply vec_at_Some in Hd0 as [_ Hd0]. rewrite Nat2Z.id in Hd0. simplify_eq. lia.
Qed.

(** *** Three graphs *)

Lemma heavy_walks (v W : Z) :
  walk heavy 0 v W →
  (v = 0 ∧ W = 0) ∨ (v = 1 ∧ W = 2147483647) ∨ (v = 2 ∧ W = 2147483648).
Proof.
  induction 1 as [|u W edges v w _ IH Hu Hin]; [by left|].
  destruct IH as [[-> ->]|[[-> ->]|[-> ->]]]; vm_compute in Hu; injection Hu as <-.
  - apply list_elem_of_singleton in Hin as [= -> ->]. right; left. done.
  - apply list_elem_of_singleton in Hin as [= -> ->]. right; right. done.
  - by apply elem_of_nil in Hin.
Qed.

Lemma heavy_shortest : shortest heavy 0 2 2147483648.
Proof.
  split.
  - change 2147483648 with (0 + 2147483647 + 1).
    eapply (walk_edge heavy 0 1 _ [(2, 1)]); [|done|left].
    eapply (walk_edge heavy 0 0 _ [(1, 2147483647)]); [constructor|done|left].
  - intros W' [[? ?]|[[? ?]|[_ ->]]]%heavy_walks; [done..|lia].
Qed.

Lemma sample_edges (u : Z) (edges : list (Z * Z)) (v w : Z) :
  vec_at sample u = Some edges → (v, w) ∈ edges →
  0 ≤ u < 5 ∧ w ≤ 4.
Proof.
  intros Hu Hin. pose proof (vec_at_range _ _ _ Hu) as Hr. simpl in Hr.
  split; [lia|].
  pose proof (forallb_elem (forallb (λ e : Z * Z, e.2 <=? 4)) sample edges eq_refl) as H1.
  apply vec_at_Some in Hu as [_ Hu%list_elem_of_lookup_2].
  pose proof (forallb_elem _ _ _ (H1 Hu) Hin). simpl in *. lia.
Qed.

Lemma sample_reached (u : Z) : 0 ≤ u < 5 → ∃ W, walk sample 0 u W ∧ W ≤ 7.
Proof.
  intros Hu.
  assert (walk sample 0 0 0) as H0 by constructor.
  assert (walk sample 0 1 (0 + 4)) as H1
    by (eapply (walk_edge sample 0 0 _ _ 1 4); [done|done|set_solver]).
  assert (walk sample 0 2 (0 + 2)) as H2
    by (eapply (walk_edge sample 0 0 _ _ 2 2); [done|done|set_solver]).
  assert (walk sample 0 3 (0 + 4 + 2)) as H3
    by (eapply (walk_edge sample 0 1 _ _ 3 2); [done|done|set_solver]).
  assert (walk sample 0 4 (0 + 4 + 2 + 1)) as H4
    by (eapply (walk_edge sample 0 3 _ _ 4 1); [done|done|set_solver]).
  assert (u = 0 ∨ u = 1 ∨ u = 2 ∨ u = 3 ∨ u = 4) as [->|[->|[->|[->| ->]]]] by lia;
    eexists; (split; [eassumption|lia]).
Qed.

Lemma sample_no_overflow : no_overflow sample 0.
Proof.
  intros u W edges v w [_ Hmin] _ Hu Hin.
  destruct (sample_edges _ _ _ _ Hu Hin) as [Hur Hw].
  destruct (sample_reached _ Hur) as (W0 & HW0 & ?).
  specialize (Hmin _ HW0). unfold INT_MAX. lia.
Qed.

Lemma set_weight_well_formed (n : Z) (graph : graph_t) (u i : nat)
    (edges : list (Z * Z)) (v w w' : Z) :
  graph !! u = Some edges → edges !! i = Some (v, w) → w ≤ w' →
  well_formed n graph → well_formed n (set_weight graph u i w').
Proof.
  intros Hu Hi Hw [Hlen Hwf]. split.
  - unfold set_weight. rewrite Hu, Hi. by rewrite length_insert.
  - intros x edges' v0 w0 Hx Hin.
    destruct (set_weight_edge _ _ _ _ _ _ _ _ _ _ _ Hu Hi Hw Hx Hin)
      as (edges0 & w1 & Hx0 & Hin0 & _).
    by eapply Hwf.
Qed.

(** With both runs free of overflow, both return, and no entry is lower
    for the heavier edge. *)
Lemma dijkstra_monotone_total (n : Z) (graph : graph_t) (source : Z) (u i : nat)
    (edges : list (Z * Z)) (v w w' : Z) :
  well_formed n graph → nonneg_weights graph → 0 ≤ source < n →
  graph !! u = Some edges → edges !! i = Some (v, w) → w ≤ w' →
  no_overflow graph source → no_overflow (set_weight graph u i w') source →
  ∃ dist dist', dijkstra n graph source = Returns dist ∧
                dijkstra n (set_weight graph u i w') source = Returns dist' ∧
                Forall2 Z.le dist dist'.
Proof.
  intros Hwf Hnn Hsrc Hu Hi Hw Hno Hno'.
  pose proof (set_weight_nonneg _ _ _ _ _ _ _ Hu Hi Hw Hnn) as Hnn'.
  pose proof (set_weight_well_formed n _ _ _ _ _ _ _ Hu Hi Hw Hwf) as Hwf'.
  destruct (dijkstra_defined _ _ _ Hnn Hsrc Hwf Hno) as [dist Hd].
  destruct (dijkstra_defined _ _ _ Hnn' Hsrc Hwf' Hno') as [dist' Hd'].
  exists dist, dist'. split_and!; [done..|].
  by eapply (dijkstra_monotone n graph source u i edges v w w').
Qed.

(** No overflow where the weights and the distances are small. *)
Lemma no_overflow_bounded (graph : graph_t) (s B D : Z) :
  (∀ u edges v w, vec_at graph u = Some edges → (v, w) ∈ edges → w ≤ B) →
  (∀ u edges, vec_at graph u = Some edges → ∃ W, walk graph s u W ∧ W ≤ D) →
  D + B ≤ INT_MAX → no_overflow graph s.
Proof.
  intros HB HD Hle u W edges v w [_ Hmin] _ Hu Hin.
  pose proof (HB _ _ _ _ Hu Hin). destruct (HD _ _ Hu) as (W0 & HW0 & ?).
  specialize (Hmin _ HW0). lia.
Qed.

Lemma sample_raised_no_overflow : no_overflow (set_weight sample 0 0 9) 0.
Proof.
  assert (set_weight sample 0 0 9 =
          [ [(1, 9); (2, 2)]; [(0, 4); (2, 3); (3, 2)]; [(0, 2); (1, 3); (3, 4)];
            [(1, 2); (2, 4); (4, 1)]; [(3, 1)] ]) as -> by reflexivity.
  set (g := [ [(1, 9); (2, 2)]; [(0, 4); (2, 3); (3, 2)]; [(0, 2); (1, 3); (3, 4)];
              [(1, 2); (2, 4); (4, 1)]; [(3, 1)] ] : graph_t).
  apply (no_overflow_bounded g 0 9 7); [| |unfold INT_MAX; lia].
  - intros u edges v w Hu Hin.
    pose proof (forallb_elem (forallb (λ e : Z * Z, e.2 <=? 9)) g edges eq_refl) as H1.
    apply vec_at_Some in Hu as [_ Hu%list_elem_of_lookup_2].
    pose proof (forallb_elem _ _ _ (H1 Hu) Hin). simpl in *. lia.
  - intros u edges Hu. pose proof (vec_at_range _ _ _ Hu) as Hr. simpl in Hr.
    assert (walk g 0 0 0) as H0 by constructor.
    assert (walk g 0 2 (0 + 2)) as H2
      by (eapply (walk_edge g 0 0 _ _ 2 2); [done|done|set_solver]).
    assert (walk g 0 1 (0 + 2 + 3)) as H1
      by (eapply (walk_edge g 0 2 _ _ 1 3); [done|done|set_solver]).
    assert (walk g 0 3 (0 + 2 + 4)) as H3
      by (eapply (walk_edge g 0 2 _ _ 3 4); [done|done|set_solver]).
    assert (walk g 0 4 (0 + 2 + 4 + 1)) as H4
      by (eapply (walk_edge g 0 3 _ _ 4 1); [done|done|set_solver]).
    assert (u = 0 ∨ u = 1 ∨ u = 2 ∨ u = 3 ∨ u = 4) as [->|[->|[->|[->| ->]]]] by lia;
      eexists; (split; [eassumption|lia]).
Qed.

End DijkstraProofs.

(** * Dijkstra with weights of any sign: proofs *)

Module DijkstraAnyProofs.
Import Dijkstra DijkstraSpec DijkstraProofs.

Section AnyWeights.
Variables (n : Z) (graph : graph_t) (source : Z).

Lemma init_inv_any (st : state) :
  init n source = Some st → inv_any n graph source source [] st.
Proof.
  intros [Hsrc ->]%init_Some.
  assert (Hs : vec_at (replicate (Z.to_nat n) INF) source = Some INF).
  { apply vec_at_Some. split; [lia|]. apply lookup_replicate_2. lia. }
  assert (Hs' : vec_at (<[Z.to_nat source := 0]> (replicate (Z.to_nat n) INF)) source
                = Some 0) by (by eapply vec_at_insert_eq).
  assert (Hall : ∀ v d,
            vec_at (<[Z.to_nat source := 0]> (replicate (Z.to_nat n) INF)) v = Some d →
            (v = source ∧ d = 0) ∨ d = INF).
  { intros v d Hv. destruct (decide (v = source)) as [->|Hne].
    - left. split; [done|congruence].
    - right. rewrite vec_at_insert_ne in Hv by lia.
      apply vec_at_Some in Hv as [_ Hv]. by apply lookup_replicate in Hv as [-> _]. }
  constructor; simpl.
  - rewrite length_insert, length_replicate. lia.
  - intros v d Hv. destruct (Hall _ _ Hv) as [[-> ->]| ->].
    + split; [unfold INF, INT_MAX; lia|]. intros _. constructor. unfold INF, INT_MAX. lia.
    + split; [lia|]. lia.
  - exists 0. split; [done|lia].
  - intros c x [= -> ->]%list_elem_of_singleton. split; [unfold INF, INT_MAX; lia|].
    exists 0. split; [done|lia].
  - intros x d Hx Hlt. left. destruct (Hall _ _ Hx) as [[-> ->]| ->]; [left|lia].
Qed.

(** The loop over the edges of [u]: each edge it looks at is relaxed for
    the distance that [u] has then, and when that distance changes later
    on, [u] is in the queue with the new one. *)
Lemma relax_edges_any (u : Z) (all : list (Z * Z)) :
  vec_at graph u = Some all →
  ∀ (rest : list (Z * Z)) (dist : list Z) (pq : list (Z * Z)) (st' : state),
  (∀ e, e ∈ rest → e ∈ all) →
  inv_any n graph source u rest (dist, pq) →
  (∃ du, vec_at dist u = Some du ∧ du < INF) →
  relax_edges u rest dist pq = Some st' →
  inv_any n graph source u [] st'.
Proof.
  intros Hall. induction rest as [|[v w] rest IH]; intros dist pq st' Hsub HI Hu H.
  { simpl in H. by simplify_eq. }
  simpl in H. destruct Hu as (du & Hu & Hdu). rewrite Hu in H.
  destruct (int_add du w) as [s|] eqn:Hs; [|done].
  apply int_add_Some in Hs as [-> _].
  destruct (vec_at dist v) as [dv|] eqn:Hv; [|done].
  pose proof (vec_at_range _ _ _ Hv) as Hvr.
  destruct HI as [Hlen Hwalk Hsrc Hpq Hcl]. simpl in *.
  assert (Hrest : ∀ e, e ∈ rest → e ∈ all) by (intros e He; apply Hsub; by right).
  destruct (du + w <? dv) eqn:Hlt.
  - apply Z.ltb_lt in Hlt.
    assert (Hv1 : vec_at (<[Z.to_nat v := du + w]> dist) v = Some (du + w))
      by (by eapply vec_at_insert_eq).
    assert (Hne : ∀ x, x ≠ v →
              vec_at (<[Z.to_nat v := du + w]> dist) x = vec_at dist x)
      by (intros x Hx; apply vec_at_insert_ne; [lia|done]).
    assert (Hdec : ∀ x d, vec_at dist x = Some d →
              ∃ d', vec_at (<[Z.to_nat v := du + w]> dist) x = Some d' ∧ d' ≤ d).
    { intros x d Hx. destruct (decide (x = v)) as [->|Hxv].
      - exists (du + w). split; [done|]. simplify_eq. lia.
      - exists d. rewrite Hne by done. split; [done|lia]. }
    destruct (Hwalk _ _ Hv) as [Hdv _].
    apply (IH _ _ _ Hrest) in H; [done| |].
    + constructor; simpl.
      * rewrite length_insert. done.
      * intros x d Hx. destruct (decide (x = v)) as [->|Hxv].
        -- rewrite Hv1 in Hx. simplify_eq. split; [lia|]. intros _.
           apply (low_edge _ _ _ u du all); [|done| |lia].
           ++ by apply (Hwalk u du).
           ++ apply Hsub. left.
        -- rewrite Hne in Hx by done. by apply Hwalk.
      * destruct Hsrc as (d0 & Hd0 & Hle). destruct (Hdec _ _ Hd0) as (d' & Hd' & ?).
        exists d'. split; [done|lia].
      * intros c x [[= -> ->]|Hin]%elem_of_cons.
        -- split; [lia|]. exists (du + w). split; [done|lia].
        -- destruct (Hpq _ _ Hin) as (Hc & d & Hd & Hle). split; [done|].
           destruct (Hdec _ _ Hd) as (d' & Hd' & ?). exists d'. split; [done|lia].
      * intros x d Hx Hd. destruct (decide (x = v)) as [->|Hxv].
        { rewrite Hv1 in Hx. simplify_eq. left. left. }
        rewrite Hne in Hx by done.
        destruct (Hcl _ _ Hx Hd) as [Hin|Hc]; [left; by right|]. right.
        intros edges v' w' Hg Hin. destruct (Hc _ _ _ Hg Hin) as [[-> He]|(dv' & Hdv' & Hle)].
        -- apply elem_of_cons in He as [[= -> ->]|He]; [|left; done].
           right. exists (du + w). split; [done|]. simplify_eq. lia.
        -- right. destruct (Hdec _ _ Hdv') as (d' & Hd' & ?). exists d'. split; [done|lia].
    + destruct (decide (u = v)) as [->|Huv].
      * exists (du + w). split; [done|lia].
      * exists du. rewrite Hne by done. done.
  - apply Z.ltb_ge in Hlt. apply (IH _ _ _ Hrest) in H; [done| |by exists du].
    constructor; simpl; [done..|].
    intros x d Hx Hd. destruct (Hcl _ _ Hx Hd) as [Hin|Hc]; [by left|]. right.
    intros edges v' w' Hg Hin. destruct (Hc _ _ _ Hg Hin) as [[-> He]|?]; [|by right].
    apply elem_of_cons in He as [[= -> ->]|He]; [|left; done].
    right. exists dv. split; [done|]. simplify_eq. lia.
Qed.

Lemma body_inv_any (st st' : state) :
  inv_any n graph source source [] st → body graph st = inl st' →
  inv_any n graph source source [] st'.
Proof.
  destruct st as [dist pq]. intros HI H. unfold body in H.
  destruct (pq_pop pair_leb pq) as [[[c u] pq']|] eqn:Hpop; [|done].
  apply pop_spec in Hpop as (Hin & Hperm & _).
  assert (Hmem : ∀ e, e ∈ pq ↔ e = (c, u) ∨ e ∈ pq').
  { intros e. rewrite Hperm. apply elem_of_cons. }
  destruct (vec_at dist u) as [du|] eqn:Hu; [|done].
  pose proof HI as [Hlen Hwalk Hsrc Hpq Hcl]. simpl in *.
  destruct (Hpq _ _ Hin) as (Hcu & d & Hd & Hle). rewrite Hu in Hd.
  injection Hd as ->.
  destruct (d <? c) eqn:Hlt.
  - apply Z.ltb_lt in Hlt. injection H as <-. constructor; simpl; [done..| |].
    + intros c' x Hx. apply Hpq, Hmem. by right.
    + intros x d' Hx Hd'. destruct (Hcl _ _ Hx Hd') as [[[= -> ->]|?]%Hmem|?].
      * simplify_eq. lia.
      * by left.
      * by right.
  - apply Z.ltb_ge in Hlt. assert (d = c) as -> by lia.
    destruct (vec_at graph u) as [edges|] eqn:Hg; [|done].
    destruct (relax_edges u edges dist pq') as [st1|] eqn:Hr; [|done].
    injection H as <-.
    assert (inv_any n graph source u [] st1) as [H1 H2 H3 H4 H5].
    { apply (relax_edges_any u edges Hg edges dist pq'); [done| |by exists c|done].
      constructor; simpl; [done..| |].
      - intros c' x Hx. apply Hpq, Hmem. by right.
      - intros x d' Hx Hd'. destruct (Hcl _ _ Hx Hd') as [[[= -> ->]|?]%Hmem|Hc].
        + right. intros edges' v w Hg' Hin'. left. split; [done|]. congruence.
        + by left.
        + right. intros edges' v w Hg' Hin'.
          destruct (Hc _ _ _ Hg' Hin') as [[_ []%elem_of_nil]|?]. by right. }
    constructor; [done..|].
    intros x d Hx Hd. destruct (H5 _ _ Hx Hd) as [?|Hc]; [by left|]. right.
    intros edges' v w Hg' Hin'.
    destruct (Hc _ _ _ Hg' Hin') as [[_ []%elem_of_nil]|?]. by right.
Qed.

(** Whatever the weights, the array returned has the source at 0 or
    below, every entry below [INF] the weight of a path that stays below
    [INF], and every edge out of such an entry relaxed. *)
Lemma dijkstra_any (dist : list Z) :
  dijkstra n graph source = Returns dist →
  Z.of_nat (length dist) = n ∧
  (∃ d, vec_at dist source = Some d ∧ d ≤ 0) ∧
  (∀ v d, vec_at dist v = Some d →
     d ≤ INF ∧ (d < INF → low_walk graph source 0 v d)) ∧
  (∀ x d, vec_at dist x = Some d → d < INF → closed_at graph dist x d).
Proof.
  unfold dijkstra. destruct (n <? 0); [done|].
  destruct (init n source) as [st|] eqn:Hst; [|done].
  apply init_inv_any in Hst.
  destruct (while_loop (fuel n) (body graph) st) as [?|r] eqn:Hw; [done|].
  intros ->. rewrite while_loop_run in Hw.
  apply (run_inr_invariant (inv_any n graph source source [])) in Hw
    as (st' & HI & Hb); [|apply body_inv_any|done].
  apply body_result in Hb as [?|[Hd Hq]]; [done|]. injection Hd as ->.
  destruct HI as [H1 H2 H3 H4 H5]. split_and!; [done..|].
  intros x d Hx Hd. destruct (H5 _ _ Hx Hd) as [Hin|Hc].
  - rewrite Hq in Hin. by apply elem_of_nil in Hin.
  - intros edges v w Hg Hin. destruct (Hc _ _ _ Hg Hin) as [[_ []%elem_of_nil]|?]. done.
Qed.

End AnyWeights.

Lemma low_walk_below (graph : graph_t) (x a y b : Z) :
  low_walk graph x a y b → b < INF.
Proof. by destruct 1. Qed.

(** Along a path that stays below [INF], relaxed distances go up by the
    weight of the path at most. *)
Lemma low_walk_potential (graph : graph_t) (dist : list Z) (x a y b dx : Z) :
  (∀ u d, vec_at dist u = Some d → d < INF → closed_at graph dist u d) →
  low_walk graph x a y b → vec_at dist x = Some dx → dx ≤ a →
  ∃ dy, vec_at dist y = Some dy ∧ dy ≤ dx + (b - a).
Proof.
  intros Hrel Hw Hx Hle. induction Hw as [|u b edges v w Hw IH Hg Hin Hb].
  - exists dx. split; [done|lia].
  - destruct IH as (du & Hu & Hdu). apply low_walk_below in Hw.
    destruct (Hrel u du Hu ltac:(lia) _ _ _ Hg Hin) as (dv & Hv & Hdv).
    exists dv. split; [done|lia].
Qed.

Lemma dijkstra_low_shortest (n : Z) (graph : graph_t) (source : Z) (dist : list Z)
    (v : Z) :
  dijkstra n graph source = Returns dist → 0 ≤ v < n →
  ∃ d, vec_at dist v = Some d ∧ d ≤ INF ∧
       (d < INF → low_walk graph source 0 v d) ∧
       (∀ W, low_walk graph source 0 v W → d ≤ W).
Proof.
  intros (Hlen & (d0 & Hd0 & Hle0) & Hwalk & Hrel)%dijkstra_any Hv.
  assert (is_Some (vec_at dist v)) as [d Hd] by (apply vec_at_is_Some; lia).
  exists d. destruct (Hwalk _ _ Hd) as [H1 H2]. split_and!; [done..|].
  intros W HW.
  destruct (low_walk_potential graph dist source 0 v W d0 Hrel HW Hd0 Hle0)
    as (d' & Hd' & ?).
  simplify_eq. lia.
Qed.

Lemma dijkstra_negative_cycle (n : Z) (graph : graph_t) (source u W0 W1 : Z) :
  0 ≤ n → low_walk graph source 0 u W0 → low_walk graph u W0 u W1 → W1 < W0 →
  dijkstra n graph source = Undefined.
Proof.
  intros Hn H0 H1 Hneg.
  destruct (dijkstra n graph source) as [dist|e| |] eqn:Hd; [| |done|].
  - exfalso. apply dijkstra_any in Hd as (Hlen & (d0 & Hd0 & Hle0) & Hwalk & Hrel).
    destruct (low_walk_potential graph dist source 0 u W0 d0 Hrel H0 Hd0 Hle0)
      as (du & Hu & Hdu).
    destruct (low_walk_potential graph dist u W0 u W1 du Hrel H1 Hu ltac:(lia))
      as (du' & Hu' & Hdu').
    simplify_eq. lia.
  - exfalso. unfold dijkstra in Hd. destruct (n <? 0) eqn:E; [lia|].
    destruct (init n source) as [st|] eqn:Hst; [|done].
    destruct (while_loop (fuel n) (body graph) st) as [?|r] eqn:Hw; [done|].
    rewrite while_loop_run in Hw.
    apply (run_inr_invariant (λ _, True)) in Hw as (st' & _ & Hb); [|done..].
    apply body_result in Hb as [->|[-> _]]; done.
  - by apply dijkstra_not_Diverges in Hd.
Qed.

End DijkstraAnyProofs.

(** * The heap: lemmas *)

Section HeapLemmas.
Context {A : Type}.
Variable comp : A → A → bool.
Implicit Types (v : list A) (x : A).

Lemma length_swap (i j : nat) v : length (swap i j v) = length v.
Proof.
  unfold swap. destruct (v !! i), (v !! j); try done. by rewrite !length_insert.
Qed.

Lemma elem_of_swap (i j : nat) v x : x ∈ swap i j v ↔ x ∈ v.
Proof.
  unfold swap. destruct (v !! i) as [a|] eqn:Hi; [|done].
  destruct (v !! j) as [b|] eqn:Hj; [|done].
  pose proof (lookup_lt_Some _ _ _ Hi). pose proof (lookup_lt_Some _ _ _ Hj).
  rewrite !list_elem_of_lookup. split.
  - intros [k Hk]. apply list_lookup_insert_Some in Hk as [(-> & -> & _)|[? Hk]]; [eauto|].
    apply list_lookup_insert_Some in Hk as [(-> & -> & _)|[? Hk]]; eauto.
  - intros [k Hk]. destruct (decide (k = i)) as [->|Hki].
    + assert (x = a) as -> by congruence. destruct (decide (i = j)) as [->|Hij].
      * exists j. rewrite list_lookup_insert_eq by (by rewrite length_insert). congruence.
      * exists j. rewrite list_lookup_insert_ne by done.
        by rewrite list_lookup_insert_eq.
    + destruct (decide (k = j)) as [->|Hkj].
      * assert (x = b) as -> by congruence. exists i.
        by rewrite list_lookup_insert_eq by (by rewrite length_insert).
      * exists k. by rewrite !list_lookup_insert_ne.
Qed.

Lemma push_heap_from_spec (fuel hole : nat) v :
  length (push_heap_from comp fuel hole v) = length v ∧
  ∀ x, x ∈ push_heap_from comp fuel hole v ↔ x ∈ v.
Proof.
  revert hole v. induction fuel as [|fuel IH]; intros hole v; cbn [push_heap_from]; [done|].
  destruct (_ && _); [|done].
  destruct (IH ((hole - 1) / 2)%nat (swap ((hole - 1) / 2) hole v)) as [Hl He].
  split; [by rewrite Hl, length_swap|]. intros x. by rewrite He, elem_of_swap.
Qed.

Lemma hole_to_leaf_spec (fuel len hole : nat) v :
  length (hole_to_leaf comp fuel len hole v).2 = length v ∧
  ∀ x, x ∈ (hole_to_leaf comp fuel len hole v).2 ↔ x ∈ v.
Proof.
  revert hole v. induction fuel as [|fuel IH]; intros hole v; cbn [hole_to_leaf]; [done|].
  destruct (hole <? _)%nat; [|done].
  match goal with |- context [hole_to_leaf comp fuel len ?s ?w] =>
    destruct (IH s w) as [Hl He] end.
  split; [by rewrite Hl, length_swap|]. intros x. by rewrite He, elem_of_swap.
Qed.

Lemma adjust_heap_spec (len : nat) v :
  length (adjust_heap comp len v) = length v ∧
  ∀ x, x ∈ adjust_heap comp len v ↔ x ∈ v.
Proof.
  unfold adjust_heap.
  pose proof (hole_to_leaf_spec len len 0 v) as [Hl He].
  destruct (hole_to_leaf comp len len 0 v) as [hole v1]. cbn [snd] in *.
  destruct (_ && _).
  - match goal with |- context [push_heap_from comp ?f ?i ?w] =>
      destruct (push_heap_from_spec f i w) as [Hl' He'] end.
    split; [by rewrite Hl', length_swap|]. intros x. by rewrite He', elem_of_swap.
  - destruct (push_heap_from_spec (Datatypes.S hole) hole v1) as [Hl' He'].
    split; [by rewrite Hl'|]. intros x. by rewrite He'.
Qed.

Lemma length_heap_push x v :
  length (heap_push comp x v) = Datatypes.S (length v).
Proof.
  unfold heap_push.
  destruct (push_heap_from_spec (Datatypes.S (length v)) (length v) (v ++ [x])) as [Hl _].
  rewrite Hl, length_app. simpl. lia.
Qed.

Lemma elem_of_heap_push x v y : y ∈ heap_push comp x v ↔ y = x ∨ y ∈ v.
Proof.
  unfold heap_push.
  destruct (push_heap_from_spec (Datatypes.S (length v)) (length v) (v ++ [x])) as [_ He].
  rewrite He, elem_of_app, list_elem_of_singleton. tauto.
Qed.

Lemma heap_push_nil x : heap_push comp x [] = [x].
Proof. done. Qed.

Lemma heap_pop_spec v (m : A) v' :
  heap_pop comp v = Some (m, v') →
  head v = Some m ∧ length v = Datatypes.S (length v') ∧
  (∀ y, y ∈ v' → y ∈ v) ∧ (∀ y, y ∈ v → y = m ∨ y ∈ v').
Proof.
  destruct v as [|top rest]; [done|]. unfold heap_pop.
  destruct (last rest) as [value|] eqn:Hlast.
  - intros [= <- <-]. apply last_Some in Hlast as [rest' ->].
    rewrite removelast_last.
    destruct (adjust_heap_spec (length (rest' ++ [value])) (value :: rest')) as [Hl He].
    split_and!; [done|simpl; rewrite Hl, length_app; simpl; lia|..].
    + intros y Hy%He. right. rewrite elem_of_app, list_elem_of_singleton.
      apply elem_of_cons in Hy as [->|?]; auto.
    + intros y [->|Hy]%elem_of_cons; [by left|]. right. apply He.
      apply elem_of_app in Hy as [?| ->%list_elem_of_singleton]; [by right|by left].
  - intros [= <- <-]. apply last_None in Hlast as ->.
    split_and!; [done|done|by intros y Hy%elem_of_nil|].
    intros y Hy. left. by apply list_elem_of_singleton in Hy.
Qed.

Lemma heap_pop_None v : heap_pop comp v = None → v = [].
Proof. destruct v as [|top rest]; [done|]. unfold heap_pop. by destruct (last rest). Qed.

(** The bounds of the two loops are not reached. *)
Lemma push_heap_from_fuel (fuel fuel' hole : nat) v :
  (hole < fuel)%nat → (hole < fuel')%nat →
  push_heap_from comp fuel hole v = push_heap_from comp fuel' hole v.
Proof.
  revert fuel' hole v. induction fuel as [|fuel IH]; intros fuel' hole v H1 H2; [lia|].
  destruct fuel' as [|fuel']; [lia|]. cbn [push_heap_from].
  destruct (0 <? hole)%nat eqn:E; [|done]. apply Nat.ltb_lt in E.
  destruct (comp_at comp v _ _); [|done]. cbn [andb].
  assert ((hole - 1) / 2 < hole)%nat.
  { apply (Nat.le_lt_trans _ (hole - 1)); [|lia]. apply Nat.Div0.div_le_upper_bound. lia. }
  apply IH; lia.
Qed.

Lemma hole_to_leaf_fuel (fuel fuel' len hole : nat) v :
  (len ≤ fuel + hole)%nat → (len ≤ fuel' + hole)%nat →
  hole_to_leaf comp fuel len hole v = hole_to_leaf comp fuel' len hole v.
Proof.
  revert fuel' hole v. induction fuel as [|fuel IH]; intros fuel' hole v H1 H2.
  - destruct fuel' as [|fuel']; [done|]. cbn [hole_to_leaf].
    destruct (hole <? (len - 1) / 2)%nat eqn:E; [|done]. apply Nat.ltb_lt in E.
    assert ((len - 1) / 2 ≤ len - 1)%nat by (apply Nat.Div0.div_le_upper_bound; lia). lia.
  - destruct fuel' as [|fuel']; cbn [hole_to_leaf].
    + destruct (hole <? (len - 1) / 2)%nat eqn:E; [|done]. apply Nat.ltb_lt in E.
      assert ((len - 1) / 2 ≤ len - 1)%nat by (apply Nat.Div0.div_le_upper_bound; lia). lia.
    + destruct (hole <? (len - 1) / 2)%nat eqn:E; [|done].
      destruct (comp_at comp v _ _); apply IH; lia.
Qed.

End HeapLemmas.

(** * A*: proofs *)

Module AStarProofs.
Import AStar AStarSpec.

Lemma open_pop_spec (nodes : gmap cell Node) (q : list cell) (m : cell) (q' : list cell) :
  heap_pop (CompareFCost nodes) q = Some (m, q') →
  m ∈ q ∧ length q = Datatypes.S (length q') ∧
  (∀ y, y ∈ q' → y ∈ q) ∧ (∀ y, y ∈ q → y = m ∨ y ∈ q').
Proof.
  intros (Hhd & ? & ? & ?)%heap_pop_spec. split_and!; [|done..].
  destruct q; [done|]. injection Hhd as ->. by left.
Qed.

Lemma isValid_true (r c rows cols : Z) :
  isValid r c rows cols = true ↔ 0 ≤ r < rows ∧ 0 ≤ c < cols.
Proof. unfold isValid. lia. Qed.

Lemma elem_of_all_cells (rows cols : Z) (p : cell) :
  p ∈ all_cells rows cols ↔ isValid p.1 p.2 rows cols = true.
Proof.
  unfold all_cells. rewrite isValid_true, list_elem_of_bind. split.
  - intros (r & (c & ->%list_elem_of_singleton & Hc%elem_of_seqZ)%list_elem_of_bind
              & Hr%elem_of_seqZ). simpl. lia.
  - intros [Hr Hc]. exists p.1. split; [|apply elem_of_seqZ; lia].
    apply list_elem_of_bind. exists p.2. split; [|apply elem_of_seqZ; lia].
    destruct p. by apply list_elem_of_singleton.
Qed.

Lemma NoDup_all_cells (rows cols : Z) : NoDup (all_cells rows cols).
Proof.
  unfold all_cells. apply NoDup_bind; [| |apply NoDup_seqZ].
  - intros r1 r2 p _ _
      (c1 & ->%list_elem_of_singleton & _)%list_elem_of_bind
      (c2 & [= -> _]%list_elem_of_singleton & _)%list_elem_of_bind. done.
  - intros r _. apply NoDup_bind; [| |apply NoDup_seqZ].
    + intros c1 c2 p _ _ ->%list_elem_of_singleton [= ->]%list_elem_of_singleton. done.
    + intros c _. apply NoDup_singleton.
Qed.

Lemma length_all_cells (rows cols : Z) :
  length (all_cells rows cols) = (Z.to_nat rows * Z.to_nat cols)%nat.
Proof.
  unfold all_cells.
  assert (Hin : ∀ r : Z, length (seqZ 0 cols ≫= λ c, [(r, c)]) = Z.to_nat cols).
  { intros r. rewrite <- (length_seqZ 0 cols).
    induction (seqZ 0 cols) as [|c l IH]; csimpl; [done|]. by rewrite IH. }
  rewrite <- (length_seqZ 0 rows).
  induction (seqZ 0 rows) as [|r l IH]; csimpl; [done|].
  rewrite length_app, IH, Hin. done.
Qed.

Lemma keys_of_graph {A B : Type} (f : A → B) (l : list A) :
  ((λ x, (x, f x)) <$> l).*1 = l.
Proof. induction l as [|x l IH]; csimpl; [done|]. by rewrite IH. Qed.

Lemma new_nodes_lookup (rows cols : Z) (p : cell) :
  new_nodes rows cols !! p =
  if isValid p.1 p.2 rows cols then Some (new_Node p.1 p.2) else None.
Proof.
  unfold new_nodes. destruct (isValid p.1 p.2 rows cols) eqn:E.
  - apply elem_of_list_to_map_1.
    + rewrite keys_of_graph. apply NoDup_all_cells.
    + apply list_elem_of_fmap. exists p. split; [done|]. by apply elem_of_all_cells.
  - apply not_elem_of_list_to_map_1. rewrite keys_of_graph.
    intros Hq%elem_of_all_cells. congruence.
Qed.

Lemma size_new_nodes (rows cols : Z) :
  size (new_nodes rows cols) = (Z.to_nat rows * Z.to_nat cols)%nat.
Proof.
  unfold new_nodes. rewrite map_size_list_to_map.
  - by rewrite length_fmap, length_all_cells.
  - rewrite keys_of_graph. apply NoDup_all_cells.
Qed.

Lemma elem_of_directions (d : Z * Z) :
  d ∈ directions ↔ Z.abs d.1 + Z.abs d.2 = 1.
Proof.
  unfold directions. destruct d as [a b]. simpl. split.
  - rewrite !elem_of_cons, elem_of_nil. intros [?|[?|[?|[?|[]]]]]; simplify_eq; done.
  - intros H. rewrite !elem_of_cons.
    assert ((a = -1 ∧ b = 0) ∨ (a = 1 ∧ b = 0) ∨ (a = 0 ∧ b = -1) ∨ (a = 0 ∧ b = 1))
      as [[-> ->]|[[-> ->]|[[-> ->]|[-> ->]]]] by lia; auto.
Qed.

Lemma step_adjacent (grid : list (list Z)) (p q : cell) :
  step grid p q ↔ in_grid grid q ∧ walkable grid q ∧ adjacent p q.
Proof.
  unfold step, adjacent. split.
  - intros (? & ? & d & Hd%elem_of_directions & ->). simpl. split_and!; [done..|].
    replace (p.1 + d.1 - p.1) with d.1 by lia.
    replace (p.2 + d.2 - p.2) with d.2 by lia. done.
  - intros (? & ? & Hadj). split_and!; [done..|].
    exists (q.1 - p.1, q.2 - p.2). split; [by apply elem_of_directions|].
    destruct q. simpl. f_equal; lia.
Qed.

Lemma vec_at_0 {A : Type} (l : list A) : vec_at l 0 = head l.
Proof. by destruct l. Qed.

Lemma astar_init_Some (grid : list (list Z)) (sr sc gr gc : Z) (st : state) :
  init grid sr sc gr gc = Some st ↔
  in_grid grid (sr, sc) ∧ in_grid grid (gr, gc) ∧
  st = {| allNodes :=
            <[(sr, sc) := {| row := sr; col := sc; gCost := 0;
                             hCost := heuristicManhattan sr sc gr gc;
                             fCost := 0 + heuristicManhattan sr sc gr gc;
                             parent := None |}]>
              (new_nodes (grid_rows grid) (grid_cols grid));
          closedSet := ∅;
          openSet := [(sr, sc)] |}.
Proof.
  unfold init, in_grid. rewrite vec_at_0. destruct grid as [|line0 grid'].
  { simpl. split; [done|]. intros (H & _). apply isValid_true in H as [_ ?].
    simpl in *. lia. }
  cbn [head]. change (Z.of_nat (length (line0 :: grid'))) with (grid_rows (line0 :: grid')).
  change (Z.of_nat (length line0)) with (grid_cols (line0 :: grid')).
  rewrite !new_nodes_lookup. cbn [fst snd].
  destruct (isValid sr sc _ _); [|split; [done|by intros [? _]]].
  destruct (isValid gr gc _ _); [|split; [done|by intros (_ & ? & _)]].
  simpl. split; [by intros [= <-]|by intros (_ & _ & ->)].
Qed.

Section Search.
Variables (grid : list (list Z)) (sr sc gr gc : Z).
Let start : cell := (sr, sc).
Let goal : cell := (gr, gc).
Let rows : Z := grid_rows grid.
Let cols : Z := grid_cols grid.

(** What one round of the loop over the directions does. *)
Lemma explore_char (st st' : state) (u : cell) (cur : Node) (d : Z * Z) :
  explore grid rows cols gr gc u st d = Some st' →
  allNodes st !! u = Some cur → row cur = u.1 → col cur = u.2 →
  let v : cell := (u.1 + d.1, u.2 + d.2) in
  (st' = st ∧
   (¬ in_grid grid v ∨ grid_at grid v.1 v.2 = Some 1 ∨ v ∈ closedSet st ∨
    ∃ nb, allNodes st !! v = Some nb ∧ gCost nb ≤ gCost cur + 1 ∧
          parent nb ≠ None))
  ∨
  (in_grid grid v ∧ walkable grid v ∧ (v ∉ closedSet st) ∧
   ∃ nb nodes, allNodes st !! v = Some nb ∧
         (gCost cur + 1 < gCost nb ∨ parent nb = None) ∧
         nodes = <[v := {| row := row nb; col := col nb;
                           gCost := gCost cur + 1; hCost := h goal v;
                           fCost := gCost cur + 1 + h goal v;
                           parent := Some u |}]> (allNodes st) ∧
         st' = {| allNodes := nodes;
                  closedSet := closedSet st;
                  openSet := heap_push (CompareFCost nodes) v (openSet st) |}).
Proof.
  intros H Hu Hr Hc v. unfold explore in H. rewrite Hu, Hr, Hc in H.
  unfold in_grid, walkable, h, goal. fold rows cols. subst v. cbn [fst snd] in *.
  destruct (isValid (u.1 + d.1) (u.2 + d.2) rows cols) eqn:Hval; simpl in H.
  2:{ left. injection H as <-. split; [done|]. by left. }
  destruct (grid_at grid (u.1 + d.1) (u.2 + d.2)) as [x|] eqn:Hx; [|done].
  destruct (x =? 1) eqn:Hx1.
  { apply Z.eqb_eq in Hx1 as ->. left. injection H as <-. auto. }
  apply Z.eqb_neq in Hx1.
  destruct (decide ((u.1 + d.1, u.2 + d.2) ∈ closedSet st)) as [Hcl|Hcl].
  { left. injection H as <-. auto. }
  destruct (allNodes st !! (u.1 + d.1, u.2 + d.2)) as [nb|] eqn:Hnb; [|done].
  destruct ((gCost cur + 1 <? gCost nb) || bool_decide (parent nb = None)) eqn:Hcond.
  - right. apply orb_true_iff in Hcond.
    rewrite Z.ltb_lt, bool_decide_eq_true in Hcond.
    split_and!; [done|by exists x|done|]. eexists nb, _. split_and!; [done..|].
    by injection H as <-.
  - left. apply orb_false_iff in Hcond as [Hlt Hpar]. apply Z.ltb_ge in Hlt.
    apply bool_decide_eq_false in Hpar. injection H as <-. split; [done|].
    do 3 right. eauto.
Qed.

Lemma astar_init_inv (st : state) :
  init grid sr sc gr gc = Some st → inv grid start goal st.
Proof.
  intros (Hs & Hg & ->)%astar_init_Some.
  set (s0 := {| row := sr; col := sc; gCost := 0;
                hCost := heuristicManhattan sr sc gr gc;
                fCost := 0 + heuristicManhattan sr sc gr gc; parent := None |}).
  assert (Hlook : ∀ p nd,
            <[(sr, sc) := s0]> (new_nodes (grid_rows grid) (grid_cols grid)) !! p = Some nd →
            in_grid grid p ∧ row nd = p.1 ∧ col nd = p.2 ∧ gCost nd = 0 ∧
            parent nd = None ∧ (p = start → nd = s0)).
  { intros p nd. rewrite lookup_insert. case_decide as Hp.
    - intros [= <-]. subst p. by split_and!.
    - rewrite new_nodes_lookup. unfold in_grid.
      destruct (isValid _ _ _ _); [|done]. intros [= <-]. by split_and!. }
  constructor; simpl.
  - intros p. rewrite lookup_insert. case_decide as Hp; [subst p; by split|].
    rewrite new_nodes_lookup. unfold in_grid.
    destruct (isValid _ _ _ _); split; try done; by intros [].
  - intros p nd (? & ? & ? & ? & _)%Hlook. split_and!; [done..|lia].
  - exists s0. rewrite lookup_insert_eq. by split_and!.
  - intros p nd q (? & ? & ? & ? & ? & _)%Hlook. congruence.
  - intros p nd (? & ? & ? & ? & ? & _)%Hlook Hseen. split_and!; [done|set_solver|].
    intros ->%list_elem_of_singleton. apply Hseen. by left.
  - intros p nd (? & ? & ? & ? & ? & _)%Hlook [->|?]; [|done].
    right. by apply list_elem_of_singleton.
  - set_solver.
  - set_solver.
  - intros p [?| ->%list_elem_of_singleton]; [set_solver|done].
Qed.

(** A cell that is closed or open has a recorded cost. *)
Lemma inv_seen_of (st : state) (p : cell) :
  inv grid start goal st → p ∈ closedSet st ∨ p ∈ openSet st →
  ∃ nd, allNodes st !! p = Some nd ∧ seen start p nd.
Proof.
  intros Hinv Hp. pose proof (inv_inside _ _ _ _ Hinv _ Hp) as Hin.
  apply (inv_dom _ _ _ _ Hinv) in Hin as [nd Hnd].
  exists nd. split; [done|].
  destruct (decide (seen start p nd)) as [?|Hns]; [done|].
  destruct (inv_fresh _ _ _ _ Hinv _ _ Hnd Hns) as (_ & ? & ?). by destruct Hp.
Qed.

Lemma node_key (st : state) (p : cell) (nd : Node) :
  inv grid start goal st → allNodes st !! p = Some nd →
  (row nd, col nd) = p ∧ in_grid grid p.
Proof.
  intros Hinv Hnd. destruct (inv_key _ _ _ _ Hinv _ _ Hnd) as (-> & -> & _).
  split; [by destruct p|]. apply (inv_dom _ _ _ _ Hinv). by eexists.
Qed.

(** The popped cell, when it is open, not closed and not the goal, is closed. *)
Lemma close_inv (st : state) (u : cell) (open' : list cell) :
  inv grid start goal st →
  heap_pop (CompareFCost (allNodes st)) (openSet st) = Some (u, open') →
  u ∉ closedSet st → u ≠ goal → in_grid grid u →
  inv grid start goal
    {| allNodes := allNodes st; closedSet := {[u]} ∪ closedSet st; openSet := open' |}.
Proof.
  intros Hinv (Hin & _ & Hsub & Hcase)%open_pop_spec Hncl Hng Hug.
  destruct (inv_seen_of _ _ Hinv (or_intror Hin)) as (nu & Hnu & Hseenu).
  constructor; simpl; try apply Hinv.
  - intros p nd q Hp Hpar.
    destruct (inv_parent _ _ _ _ Hinv _ _ _ Hp Hpar) as (? & ? & ? & ?).
    split_and!; [set_solver|done..].
  - intros p nd Hp Hns. destruct (inv_fresh _ _ _ _ Hinv _ _ Hp Hns) as (? & ? & ?).
    split_and!; [done| |by auto]. set_solver.
  - intros p nd Hp Hs. destruct (inv_seen _ _ _ _ Hinv _ _ Hp Hs) as [?|Ho]; [set_solver|].
    destruct (Hcase _ Ho) as [->|?]; [set_solver|by right].
  - pose proof (inv_goal _ _ _ _ Hinv). set_solver.
  - intros p Hp. apply elem_of_union in Hp as [->%elem_of_singleton|Hp].
    + destruct (parent nu) as [q|] eqn:Hpar.
      * destruct (inv_parent _ _ _ _ Hinv _ _ _ Hnu Hpar) as (Hq & _).
        apply (inv_start_closed _ _ _ _ Hinv) in Hq. set_solver.
      * destruct Hseenu as [->|?]; [set_solver|done].
    + apply (inv_start_closed _ _ _ _ Hinv) in Hp. set_solver.
  - intros p [[->%elem_of_singleton|?]%elem_of_union|?]; [done|..];
      apply (inv_inside _ _ _ _ Hinv); auto.
Qed.

(** A popped cell that is closed already is dropped. *)
Lemma discard_inv (st : state) (u : cell) (open' : list cell) :
  inv grid start goal st →
  heap_pop (CompareFCost (allNodes st)) (openSet st) = Some (u, open') →
  u ∈ closedSet st →
  inv grid start goal
    {| allNodes := allNodes st; closedSet := closedSet st; openSet := open' |}.
Proof.
  intros Hinv (Hin & _ & Hsub & Hcase)%open_pop_spec Hcl.
  constructor; simpl; try apply Hinv.
  - intros p nd Hp Hns. destruct (inv_fresh _ _ _ _ Hinv _ _ Hp Hns) as (? & ? & Ho).
    split_and!; [done..|]. intros ?. apply Ho. by apply Hsub.
  - intros p nd Hp Hs. destruct (inv_seen _ _ _ _ Hinv _ _ Hp Hs) as [?|Ho]; [by left|].
    destruct (Hcase _ Ho) as [->|?]; [by left|by right].
  - intros p [?|?]; apply (inv_inside _ _ _ _ Hinv); [by left|].
    right. by apply Hsub.
Qed.

(** One direction of the loop over the neighbours of the closed cell [u]. *)
Lemma explore_inv (st st' : state) (u : cell) (cur : Node) (d : Z * Z) :
  inv grid start goal st →
  u ∈ closedSet st → allNodes st !! u = Some cur → d ∈ directions →
  explore grid rows cols gr gc u st d = Some st' →
  inv grid start goal st' ∧
  allNodes st' !! u = Some cur ∧ closedSet st' = closedSet st.
Proof.
  intros Hinv Hucl Hu Hd Hex.
  destruct (inv_key _ _ _ _ Hinv _ _ Hu) as (Hr & Hc & Hg0).
  destruct (explore_char _ _ _ _ _ Hex Hu Hr Hc) as [[-> Hskip]|Hupd]; [done|].
  destruct Hupd as (Hvin & Hvw & Hvcl & nb & nodes & Hnb & Hcond & -> & ->).
  set (v := (u.1 + d.1, u.2 + d.2)) in *.
  assert (v ≠ u) as Hvu by (intros Heq; rewrite Heq in Hvcl; done).
  assert (start ∈ closedSet st) as Hscl by (by eapply (inv_start_closed _ _ _ _ Hinv)).
  assert (v ≠ start) as Hvs by (intros Heq; rewrite Heq in Hvcl; done).
  assert (step grid u v) as Hstepuv by (split_and!; [done..|by exists d]).
  destruct (inv_key _ _ _ _ Hinv _ _ Hnb) as (Hnr & Hnc & _).
  split; [|split; [simpl; by rewrite lookup_insert_ne|done]].
  constructor; simpl.
  - intros p. rewrite lookup_insert. case_decide as Hp; [subst p; by split|].
    apply Hinv.
  - intros p nd. rewrite lookup_insert. case_decide as Hp.
    + intros [= <-]. subst p. simpl. split_and!; [done..|lia].
    + apply Hinv.
  - rewrite lookup_insert_ne by done. apply Hinv.
  - intros p nd q. rewrite lookup_insert. case_decide as Hp.
    + intros [= <-] [= <-]. subst p. simpl.
      split_and!; [done|done| |done].
      exists cur. rewrite lookup_insert_ne by done. done.
    + intros Hnd Hpar.
      destruct (inv_parent _ _ _ _ Hinv _ _ _ Hnd Hpar) as (Hq & ? & (nq & ? & ?) & ?).
      split_and!; [done..| |done]. exists nq.
      rewrite lookup_insert_ne; [done|]. intros Heq. rewrite <- Heq in Hq. done.
  - intros p nd. rewrite lookup_insert. case_decide as Hp.
    + intros [= <-] Hns. exfalso. apply Hns. by right.
    + intros Hnd Hns. destruct (inv_fresh _ _ _ _ Hinv _ _ Hnd Hns) as (? & ? & ?).
      split_and!; [done..|]. intros [?|?]%elem_of_heap_push; done.
  - intros p nd. rewrite lookup_insert. case_decide as Hp.
    + intros _ _. subst p. right. apply elem_of_heap_push. by left.
    + intros Hnd Hs. destruct (inv_seen _ _ _ _ Hinv _ _ Hnd Hs); [by left|].
      right. apply elem_of_heap_push. by right.
  - apply Hinv.
  - apply Hinv.
  - intros p [?|[->|?]%elem_of_heap_push]; [|done|];
      apply (inv_inside _ _ _ _ Hinv); auto.
Qed.

Lemma explore_all_inv (u : cell) (cur : Node) (dl : list (Z * Z)) :
  ∀ (st st' : state),
  inv grid start goal st →
  u ∈ closedSet st → allNodes st !! u = Some cur →
  (∀ d, d ∈ dl → d ∈ directions) →
  explore_all grid rows cols gr gc u st dl = Some st' →
  inv grid start goal st'.
Proof.
  induction dl as [|d dl IH]; intros st st' Hinv Hucl Hu Hdl H; simpl in H.
  - by simplify_eq.
  - destruct (explore grid rows cols gr gc u st d) as [st1|] eqn:Hex; [|done].
    destruct (explore_inv _ _ _ _ _ Hinv Hucl Hu (Hdl d ltac:(left)) Hex)
      as (Hinv1 & Hu1 & Hcl1).
    apply (IH st1); [done|by rewrite Hcl1|done| |done].
    intros d' ?. apply Hdl. by right.
Qed.

Lemma astar_body_inv (st st' : state) :
  inv grid start goal st →
  body grid rows cols gr gc st = inl st' →
  inv grid start goal st'.
Proof.
  intros Hinv H. unfold body in H.
  destruct (heap_pop _ _) as [[u open']|] eqn:Hpop; [|done].
  destruct (allNodes st !! u) as [cur|] eqn:Hu; [|done].
  destruct (node_key _ _ _ Hinv Hu) as [Hk Hug]. rewrite Hk in H.
  destruct (decide (u ∈ closedSet st)) as [Hcl|Hcl].
  { injection H as <-. by eapply discard_inv. }
  destruct (decide (u = (gr, gc))) as [->|Hng]; [done|].
  destruct (explore_all _ _ _ _ _ _ _ _) as [st2|] eqn:Hex; [|done].
  injection H as <-.
  pose proof (close_inv _ _ _ Hinv Hpop Hcl Hng Hug) as Hinv1.
  eapply explore_all_inv in Hex; [done|exact Hinv1|set_solver|exact Hu|done].
Qed.

(** *** The chain of parents *)

Lemma chain_exists (st : state) (p : cell) (nd : Node) :
  inv grid start goal st →
  allNodes st !! p = Some nd → seen start p nd →
  ∃ l, chain (allNodes st) p l ∧
       length l = Datatypes.S (Z.to_nat (gCost nd)) ∧
       rpath grid start (reverse l) p ∧
       (∀ x, x ∈ l → ∃ nx, allNodes st !! x = Some nx ∧ gCost nx ≤ gCost nd) ∧
       NoDup l.
Proof.
  intros Hinv. remember (Z.to_nat (gCost nd)) as g eqn:Hg.
  revert p nd Hg. induction g as [g IH] using lt_wf_ind. intros p nd Hg Hp Hseen.
  destruct (inv_key _ _ _ _ Hinv _ _ Hp) as (_ & _ & Hp0).
  destruct (parent nd) as [q|] eqn:Hpar.
  - destruct (inv_parent _ _ _ _ Hinv _ _ _ Hp Hpar)
      as (Hq & Hstep & (nq & Hnq & Hgq) & _).
    destruct (inv_key _ _ _ _ Hinv _ _ Hnq) as (_ & _ & Hq0).
    assert (seen start q nq) as Hsq.
    { destruct (decide (seen start q nq)) as [?|Hns]; [done|].
      by destruct (inv_fresh _ _ _ _ Hinv _ _ Hnq Hns) as (_ & ? & _). }
    destruct (IH (Z.to_nat (gCost nq)) ltac:(lia) q nq eq_refl Hnq Hsq)
      as (l & Hchain & Hlen & Hpath & Hall & Hnd).
    exists (p :: l). split_and!.
    + by econstructor.
    + simpl. rewrite Hlen. lia.
    + rewrite reverse_cons. by econstructor.
    + intros x [->|Hx]%elem_of_cons; [exists nd; split; [done|lia]|].
      destruct (Hall _ Hx) as (nx & ? & ?). exists nx. split; [done|lia].
    + apply NoDup_cons. split; [|done]. intros Hx.
      destruct (Hall _ Hx) as (nx & Hnx & ?). rewrite Hp in Hnx. injection Hnx as <-. lia.
  - destruct Hseen as [->|?]; [|done].
    exists [start]. split_and!.
    + by econstructor.
    + destruct (inv_start _ _ _ _ Hinv) as (nd' & Hnd' & Hg0 & _).
      rewrite Hp in Hnd'. injection Hnd' as <-. rewrite Hg0 in Hg. by subst g.
    + constructor.
    + intros x ->%list_elem_of_singleton. exists nd. split; [done|lia].
    + apply NoDup_singleton.
Qed.

Lemma run_chain (nodes : gmap cell Node) (p : cell) (l : list cell) :
  (∀ x nx, nodes !! x = Some nx → (row nx, col nx) = x) →
  chain nodes p l →
  ∀ acc, run (Datatypes.S (length l)) (reconstruct_body nodes) (acc, Some p)
         = inr (Returns (acc ++ l)).
Proof.
  intros Hkey. induction 1 as [p nd Hp Hpar|p nd q l Hp Hpar _ IH]; intros acc.
  - simpl. rewrite Hp, Hpar, (Hkey _ _ Hp). done.
  - cbn [length]. rewrite run_S. unfold reconstruct_body at 1.
    rewrite Hp, Hpar, (Hkey _ _ Hp).
    rewrite (IH (acc ++ [p])). by rewrite <- app_assoc.
Qed.

Lemma astar_pow_fuel (n : nat) : (5 * n + 2 < 2 ^ fuel (Z.of_nat n))%nat.
Proof.
  unfold fuel. set (x := 5 * Z.of_nat n + 2).
  assert (0 < x) by (unfold x; lia).
  pose proof (Z.log2_spec x ltac:(done)) as [_ Hlog].
  pose proof (Z.log2_nonneg x).
  apply Nat2Z.inj_lt. rewrite Nat2Z.inj_pow.
  rewrite (Nat2Z.inj_add (Z.to_nat _) 1), Z2Nat.id by lia.
  change (Z.of_nat 2) with 2. change (Z.of_nat 1) with 1.
  replace (Z.log2 x + 1) with (Z.succ (Z.log2 x)) by lia.
  unfold x in *. lia.
Qed.

Lemma reconstruct_chain (st : state) (p : cell) (nd : Node) :
  inv grid start goal st →
  allNodes st !! p = Some nd → seen start p nd →
  ∃ path, reconstruct (allNodes st) p = Returns path ∧
          Z.of_nat (length path) = gCost nd + 1 ∧
          rpath grid start path p ∧ NoDup path.
Proof.
  intros Hinv Hp Hseen.
  destruct (chain_exists _ _ _ Hinv Hp Hseen) as (l & Hchain & Hlen & Hpath & Hall & Hnd).
  destruct (inv_key _ _ _ _ Hinv _ _ Hp) as (_ & _ & Hp0).
  exists (reverse l). split_and!; [|rewrite length_reverse; lia|done|by rewrite reverse_Permutation].
  assert (Hkey : ∀ x nx, allNodes st !! x = Some nx → (row nx, col nx) = x).
  { intros x nx Hx. by destruct (node_key _ _ _ Hinv Hx). }
  assert (length l ≤ size (allNodes st))%nat as Hsize.
  { rewrite <- (size_dom (D := gset cell)), <- (size_list_to_set (C := gset cell) l Hnd).
    apply subseteq_size. intros x Hx%elem_of_list_to_set.
    destruct (Hall _ Hx) as (nx & Hnx & _). by eapply elem_of_dom_2. }
  unfold reconstruct. rewrite while_loop_run.
  rewrite (run_inr_mono (Datatypes.S (length l)) _ _ _ (Returns ([] ++ l))).
  - done.
  - pose proof (astar_pow_fuel (size (allNodes st))). lia.
  - by apply run_chain.
Qed.

(** *** Termination *)

Lemma explore_shape (st st' : state) (u : cell) (d : Z * Z) :
  explore grid rows cols gr gc u st d = Some st' →
  closedSet st' = closedSet st ∧ dom (allNodes st') = dom (allNodes st) ∧
  (length (openSet st') ≤ Datatypes.S (length (openSet st)))%nat.
Proof.
  unfold explore. intros H.
  destruct (allNodes st !! u) as [cur|]; [|done].
  destruct (negb _); [injection H as <-; split_and!; [done..|lia]|].
  destruct (grid_at _ _ _) as [x|]; [|done].
  destruct (x =? 1); [injection H as <-; split_and!; [done..|lia]|].
  destruct (decide _); [injection H as <-; split_and!; [done..|lia]|].
  destruct (allNodes st !! _) as [nb|] eqn:Hnb; [|done].
  destruct (_ || _); injection H as <-; [|split_and!; [done..|lia]].
  cbn [closedSet allNodes openSet]. rewrite length_heap_push.
  split_and!; [done| |done]. apply dom_insert_lookup_L. by eexists.
Qed.

Lemma explore_all_shape (u : cell) (dl : list (Z * Z)) :
  ∀ st st', explore_all grid rows cols gr gc u st dl = Some st' →
  closedSet st' = closedSet st ∧ dom (allNodes st') = dom (allNodes st) ∧
  (length (openSet st') ≤ length dl + length (openSet st))%nat.
Proof.
  induction dl as [|d dl IH]; intros st st' H; simpl in H.
  - injection H as <-. split_and!; [done..|simpl; lia].
  - destruct (explore _ _ _ _ _ _ _ _) as [st1|] eqn:Hex; [|done].
    apply explore_shape in Hex as (Hc1 & Hd1 & ?).
    apply IH in H as (Hc2 & Hd2 & ?).
    split_and!; [congruence..|simpl; lia].
Qed.

Lemma astar_body_measure (st st' : state) :
  inv grid start goal st →
  body grid rows cols gr gc st = inl st' →
  (measure st' < measure st)%nat.
Proof.
  intros Hinv H. unfold body in H.
  destruct (heap_pop _ _) as [[u open']|] eqn:Hpop; [|done].
  pose proof Hpop as (_ & Hlen & _)%open_pop_spec.
  destruct (allNodes st !! u) as [cur|] eqn:Hu; [|done].
  destruct (node_key _ _ _ Hinv Hu) as [Hk Hug]. rewrite Hk in H.
  destruct (decide (u ∈ closedSet st)) as [Hcl|Hcl].
  { injection H as <-. unfold measure. simpl. lia. }
  destruct (decide (u = (gr, gc))) as [->|Hng]; [done|].
  destruct (explore_all _ _ _ _ _ _ _ _) as [st2|] eqn:Hex; [|done].
  injection H as <-. apply explore_all_shape in Hex as (Hc & Hd & Hl). simpl in *.
  unfold measure. rewrite Hc, Hd.
  assert (size (dom (allNodes st) ∖ ({[u]} ∪ closedSet st))
          < size (dom (allNodes st) ∖ closedSet st))%nat.
  { apply subset_size. apply elem_of_dom_2 in Hu. set_solver. }
  lia.
Qed.

Lemma init_measure (st : state) :
  init grid sr sc gr gc = Some st →
  (measure st < 2 ^ fuel (grid_rows grid * grid_cols grid))%nat.
Proof.
  intros (Hs & _ & ->)%astar_init_Some. unfold measure. simpl.
  rewrite difference_empty_L, size_dom, map_size_insert_Some, size_new_nodes.
  2:{ rewrite new_nodes_lookup. unfold in_grid in Hs. cbn [fst snd] in *. rewrite Hs.
      by eexists. }
  pose proof (astar_pow_fuel (Z.to_nat (grid_rows grid) * Z.to_nat (grid_cols grid))) as Hf.
  replace (Z.of_nat (Z.to_nat (grid_rows grid) * Z.to_nat (grid_cols grid)))
    with (grid_rows grid * grid_cols grid) in Hf; [lia|].
  unfold grid_rows, grid_cols. destruct grid; lia.
Qed.

Lemma loop_terminates (st : state) :
  init grid sr sc gr gc = Some st →
  ∃ r, while_loop (fuel (grid_rows grid * grid_cols grid))
         (body grid rows cols gr gc) st = inr r.
Proof.
  intros Hst. rewrite while_loop_run.
  apply (run_terminates (inv grid start goal) measure).
  - intros st1 st2 H1 H2. split; [by eapply astar_body_inv|by eapply astar_body_measure].
  - by apply astar_init_inv.
  - by apply init_measure.
Qed.

(** *** The result *)

(** The three ways out of the loop. *)
Lemma astar_body_result (st : state) (r : outcome (list cell)) :
  inv grid start goal st →
  body grid rows cols gr gc st = inr r →
  (r = Returns [] ∧ openSet st = []) ∨
  r = Undefined ∨
  (∃ open', heap_pop (CompareFCost (allNodes st)) (openSet st) = Some (goal, open') ∧
            (goal ∉ closedSet st) ∧ r = reconstruct (allNodes st) goal).
Proof.
  intros Hinv H. unfold body in H.
  destruct (heap_pop _ _) as [[u open']|] eqn:Hpop.
  2:{ left. apply heap_pop_None in Hpop. by injection H as <-. }
  destruct (allNodes st !! u) as [cur|] eqn:Hu; [|right; left; by injection H as <-].
  destruct (node_key _ _ _ Hinv Hu) as [Hk Hug]. rewrite Hk in H.
  destruct (decide (u ∈ closedSet st)) as [Hcl|Hcl]; [done|].
  destruct (decide (u = (gr, gc))) as [->|Hng].
  - right. right. exists open'. split_and!; [done..|]. by injection H as <-.
  - destruct (explore_all _ _ _ _ _ _ _ _) as [st2|]; [done|].
    right; left; by injection H as <-.
Qed.

(** The sequence that is returned when the goal is popped: as many cells
    as the [gCost] of the goal node, and one more. *)
Lemma goal_popped (st : state) (open' : list cell) :
  inv grid start goal st →
  heap_pop (CompareFCost (allNodes st)) (openSet st) = Some (goal, open') →
  ∃ path ng, reconstruct (allNodes st) goal = Returns path ∧
             allNodes st !! goal = Some ng ∧
             Z.of_nat (length path) = gCost ng + 1 ∧
             rpath grid start path goal ∧ NoDup path.
Proof.
  intros Hinv Hpop. pose proof Hpop as (Hin & _)%open_pop_spec.
  destruct (inv_seen_of _ _ Hinv (or_intror Hin)) as (ng & Hng & Hseen).
  destruct (reconstruct_chain _ _ _ Hinv Hng Hseen) as (path & Hrec & Hlen & Hpath & Hnd).
  exists path, ng. by split_and!.
Qed.

(** What a call returns. *)
Lemma aStarSearch_Returns (path : list cell) :
  aStarSearch grid sr sc gr gc = Returns path →
  in_grid grid start ∧ in_grid grid goal ∧
  (path = [] ∨ (rpath grid start path goal ∧ NoDup path)).
Proof.
  unfold aStarSearch. destruct (init grid sr sc gr gc) as [st|] eqn:Hst; [|done].
  pose proof Hst as (? & ? & _)%astar_init_Some.
  destruct (while_loop _ _ _) as [|r] eqn:Hloop; [done|]. intros ->.
  split_and!; [done..|].
  rewrite while_loop_run in Hloop.
  apply (run_inr_invariant (inv grid start goal)) in Hloop as (st' & Hinv & Hr).
  - apply (astar_body_result _ _ Hinv) in Hr
      as [[[= ->] _]|[?|(open' & Hpop & Hncl & Hr)]]; [by left|done|].
    destruct (goal_popped _ _ Hinv Hpop) as (path' & ng & Hrec & _ & _ & ? & ?).
    rewrite Hrec in Hr. injection Hr as ->. by right.
  - intros ????. by eapply astar_body_inv.
  - by apply astar_init_inv.
Qed.

Lemma aStarSearch_outcome :
  aStarSearch grid sr sc gr gc = Undefined ∨
  ∃ path, aStarSearch grid sr sc gr gc = Returns path.
Proof.
  unfold aStarSearch. destruct (init grid sr sc gr gc) as [st|] eqn:Hst; [|by left].
  destruct (loop_terminates _ Hst) as [r Hloop]. unfold rows, cols in Hloop.
  rewrite Hloop.
  rewrite while_loop_run in Hloop.
  apply (run_inr_invariant (inv grid start goal)) in Hloop as (st' & Hinv & Hr).
  - apply (astar_body_result _ _ Hinv) in Hr as [[-> _]|[->|(open' & Hpop & Hncl & ->)]];
      [eauto..|].
    destruct (goal_popped _ _ Hinv Hpop) as (path' & ng & -> & _). eauto.
  - intros ????. by eapply astar_body_inv.
  - by apply astar_init_inv.
Qed.

(** *** Definedness on a rectangular grid *)






(** *** Sequences of cells *)

Lemma rpath_ends (s v : cell) (l : list cell) :
  rpath grid s l v → head l = Some s ∧ last l = Some v.
Proof.
  induction 1 as [|l u v _ [IH1 IH2] _]; [done|]. split; [|apply last_snoc].
  destruct l; [done|]. done.
Qed.

Lemma rpath_length (s v : cell) (l : list cell) :
  rpath grid s l v → (1 ≤ length l)%nat.
Proof. destruct 1; [done|]. rewrite length_app. simpl. lia. Qed.


Lemma stepwise_snoc (l : list cell) (u v : cell) :
  stepwise l → last l = Some u → adjacent u v → stepwise (l ++ [v]).
Proof.
  induction l as [|p l IH]; [done|]. intros [Hp Hl] Hlast Hadj.
  destruct l as [|q l].
  - simpl in Hlast. injection Hlast as ->. simpl. done.
  - split; [done|]. apply IH; [done| |done]. done.
Qed.

(** A sequence built by the search is a path of the grid when the start is
    walkable. *)
Lemma rpath_grid_path (v : cell) (l : list cell) :
  in_grid grid start → walkable grid start →
  rpath grid start l v → grid_path grid l.
Proof.
  intros Hs Hw. induction 1 as [|l u v Hl [IH1 IH2] Hstep].
  - split; [by apply Forall_singleton|done].
  - pose proof Hstep as (? & ? & ?)%step_adjacent. split.
    + apply Forall_app. split; [done|by apply Forall_singleton].
    + eapply stepwise_snoc; [done| |done]. by apply rpath_ends in Hl as [_ ?].
Qed.

(** *** Start and goal on the same cell *)

Lemma rpath_single (s v : cell) (l : list cell) :
  rpath grid s l v → length l = 1%nat → l = [s].
Proof.
  destruct 1 as [|l u v Hl _]; [done|]. rewrite length_app. simpl.
  apply rpath_length in Hl. lia.
Qed.

Lemma aStarSearch_same_cell :
  in_grid grid start → goal = start →
  aStarSearch grid sr sc gr gc = Returns [start].
Proof.
  intros Hs Hgs. unfold aStarSearch.
  destruct (init grid sr sc gr gc) as [st|] eqn:Hst.
  2:{ assert (is_Some (init grid sr sc gr gc)) as [? ?]; [|congruence].
      eexists. apply astar_init_Some. split_and!; [done| |done]. unfold goal in Hgs. by rewrite Hgs. }
  pose proof (astar_init_inv _ Hst) as Hinv.
  pose proof Hst as (_ & _ & Hst')%astar_init_Some.
  assert (Hpop : heap_pop (CompareFCost (allNodes st)) (openSet st) = Some (goal, [])).
  { rewrite Hst'. simpl. by rewrite Hgs. }
  destruct (goal_popped _ _ Hinv Hpop) as (path & ng & Hrec & Hng & Hlen & Hpath & _).
  destruct (inv_start _ _ _ _ Hinv) as (nd & Hnd & Hg0 & _).
  rewrite Hgs, Hnd in Hng. injection Hng as <-.
  rewrite (while_loop_first _ _ _ (Returns path)).
  - f_equal. rewrite Hgs in Hpath. eapply rpath_single; [done|lia].
  - unfold body. fold rows cols. unfold goal in Hpop. rewrite Hpop.
    destruct (node_key _ _ _ Hinv Hnd) as [Hk _].
    rewrite <- Hgs in Hnd, Hk. unfold goal in Hnd, Hk. rewrite Hnd, Hk.
    rewrite decide_False by (rewrite Hst'; set_solver).
    rewrite decide_True by done. by rewrite <- Hrec.
Qed.

(** *** A blocked goal *)


Lemma aStarSearch_out_of_grid :
  ¬ in_grid grid start ∨ ¬ in_grid grid goal →
  aStarSearch grid sr sc gr gc = Undefined.
Proof.
  intros H. unfold aStarSearch.
  destruct (init grid sr sc gr gc) as [st|] eqn:Hst; [|done].
  apply astar_init_Some in Hst as (? & ? & _). by destruct H.
Qed.

(** *** A cell is expanded once *)

Lemma body_closed_mono (st st' : state) (p : cell) :
  body grid rows cols gr gc st = inl st' → p ∈ closedSet st → p ∈ closedSet st'.
Proof.
  intros H Hp. unfold body in H.
  destruct (heap_pop _ _) as [[u open']|]; [|done].
  destruct (allNodes st !! u) as [cur|]; [|done].
  destruct (decide _); [by injection H as <-|].
  destruct (decide _); [done|].
  destruct (explore_all _ _ _ _ _ _ _ _) as [st2|] eqn:Hex; [|done].
  injection H as <-. apply explore_all_shape in Hex as (-> & _). simpl. set_solver.
Qed.

Lemma expands_closes (st st' : state) (u : cell) :
  inv grid start goal st → expands st u →
  body grid rows cols gr gc st = inl st' → u ∈ closedSet st'.
Proof.
  intros Hinv (open' & Hpop & Hncl) H. unfold body in H. rewrite Hpop in H.
  destruct (allNodes st !! u) as [cur|] eqn:Hu; [|done].
  destruct (node_key _ _ _ Hinv Hu) as [Hk _]. rewrite Hk in H.
  rewrite decide_False in H by done.
  destruct (decide _); [done|].
  destruct (explore_all _ _ _ _ _ _ _ _) as [st2|] eqn:Hex; [|done].
  injection H as <-. apply explore_all_shape in Hex as (-> & _). simpl. set_solver.
Qed.

Lemma reached_inv (st0 st : state) (i : nat) :
  init grid sr sc gr gc = Some st0 →
  run i (body grid rows cols gr gc) st0 = inl st →
  inv grid start goal st.
Proof.
  intros Hst0 Hi.
  eapply (run_inl_invariant (inv grid start goal));
    [|by apply astar_init_inv|exact Hi]. intros ????. by eapply astar_body_inv.
Qed.

Lemma astar_expands_once (st0 sti stj : state) (i j : nat) (u : cell) :
  init grid sr sc gr gc = Some st0 → (i < j)%nat →
  run i (body grid rows cols gr gc) st0 = inl sti →
  run j (body grid rows cols gr gc) st0 = inl stj →
  expands sti u → ¬ expands stj u.
Proof.
  intros Hst0 Hij Hi Hj Hexp.
  pose proof (reached_inv _ _ _ Hst0 Hi) as Hinvi.
  destruct (run_inl_split (Datatypes.S i) j _ _ _ ltac:(lia) Hj) as (st1 & Hi1 & Hrest).
  replace (Datatypes.S i) with (i + 1)%nat in Hi1 by lia.
  rewrite run_add, Hi in Hi1. simpl in Hi1.
  destruct (body grid rows cols gr gc sti) as [st1'|] eqn:Hb; [|done]. simplify_eq.
  pose proof (expands_closes _ _ _ Hinvi Hexp Hb) as Hcl.
  assert (u ∈ closedSet stj) as Hclj.
  { eapply (run_inl_invariant (λ st, u ∈ closedSet st)); [|exact Hcl|exact Hrest].
    intros st st' ? ?. by eapply body_closed_mono. }
  intros (? & _ & ?). done.
Qed.

(** *** The nodes at the start of the search, and the cells never reached *)




(** A popped cell that is closed already is dropped, and nothing else changes. *)
Lemma discards_closed (st0 st : state) (i : nat) (u : cell) (open' : list cell) :
  init grid sr sc gr gc = Some st0 →
  run i (body grid rows cols gr gc) st0 = inl st →
  heap_pop (CompareFCost (allNodes st)) (openSet st) = Some (u, open') →
  u ∈ closedSet st →
  body grid rows cols gr gc st =
  inl {| allNodes := allNodes st; closedSet := closedSet st; openSet := open' |}.
Proof.
  intros Hst0 Hi Hpop Hcl. pose proof (reached_inv _ _ _ Hst0 Hi) as Hinv.
  unfold body. rewrite Hpop.
  destruct (inv_seen_of _ u Hinv (or_introl Hcl)) as (cur & Hcur & _). rewrite Hcur.
  destruct (node_key _ _ _ Hinv Hcur) as [-> _]. by rewrite decide_True.
Qed.

Lemma start_has_no_parent (st0 st : state) (i : nat) :
  init grid sr sc gr gc = Some st0 →
  run i (body grid rows cols gr gc) st0 = inl st →
  ∃ nd, allNodes st !! start = Some nd ∧ parent nd = None.
Proof.
  intros Hst0 Hi. pose proof (reached_inv _ _ _ Hst0 Hi) as Hinv.
  destruct (inv_start _ _ _ _ Hinv) as (nd & ? & _ & ? & _). eauto.
Qed.

Lemma aStarSearch_not_Throws (e : exception) :
  aStarSearch grid sr sc gr gc ≠ Throws e ∧ aStarSearch grid sr sc gr gc ≠ Diverges.
Proof. destruct aStarSearch_outcome as [->|[path ->]]; done. Qed.

End Search.

Lemma rectangularb_true (grid : list (list Z)) :
  rectangularb grid = true → rectangular grid.
Proof.
  intros H line Hin.
  pose proof (DijkstraProofs.forallb_elem _ _ _ H Hin) as Hl. simpl in Hl. lia.
Qed.

Lemma walkableb_true (grid : list (list Z)) (p : cell) :
  walkableb grid p = true ↔ walkable grid p.
Proof.
  unfold walkableb, walkable. destruct (grid_at grid p.1 p.2) as [v|].
  - destruct (v =? 1) eqn:E; simpl; split; try done.
    + intros (x & [= <-] & ?). lia.
    + intros _. exists v. split; [done|lia].
  - split; [done|]. by intros (? & ? & _).
Qed.

Lemma stepwiseb_true (l : list cell) : stepwiseb l = true → stepwise l.
Proof.
  induction l as [|p l IH]; [done|]. cbn [stepwiseb stepwise].
  intros [Hp Hl]%andb_true_iff. split; [|by apply IH].
  destruct l as [|q l]; [done|]. unfold adjacent, adjacentb in *. lia.
Qed.

Lemma grid_pathb_true (grid : list (list Z)) (l : list cell) :
  grid_pathb grid l = true → grid_path grid l.
Proof.
  unfold grid_pathb, grid_path. intros [Hall Hsw]%andb_true_iff.
  split; [|by apply stepwiseb_true]. apply Forall_forall. intros p Hp.
  pose proof (DijkstraProofs.forallb_elem _ _ _ Hall Hp) as Hb.
  apply andb_true_iff in Hb as [? ?]. split; [done|by apply walkableb_true].
Qed.

End AStarProofs.

(** * The start cell is never read: proofs *)

Module AStarStartProofs.
Import AStar AStarSpec.

Section StartCell.
Variables (grid grid' : list (list Z)) (sr sc gr gc : Z).
Hypothesis Hrows : grid_rows grid' = grid_rows grid.
Hypothesis Hcols : grid_cols grid' = grid_cols grid.
Hypothesis Hother :
  ∀ r c, (r, c) ≠ (sr, sc) → grid_at grid' r c = grid_at grid r c.
Hypothesis Hstart :
  is_Some (grid_at grid' sr sc) ↔ is_Some (grid_at grid sr sc).






End StartCell.

End AStarStartProofs.

(** * The claims of the specification *)

Section Claims.
Import Dijkstra DijkstraSpec AStar AStarSpec.

(** C1, as the specification states it, fails: in [heavy] the node 2 is
    reachable from 0 and the minimum sum of edge weights is
    [INT_MAX + 1], but the array returned holds [INT_MAX] for it. *)
Lemma C1_counterexample :
  ¬ (nonneg_weights heavy → 0 ≤ 0 < 3 →
     ∀ dist v W, dijkstra 3 heavy 0 = Returns dist →
                 shortest heavy 0 v W → vec_at dist v = Some W).
Proof.
  intros H.
  assert (nonneg_weights heavy) as Hnn by (by apply DijkstraProofs.nonneg_weightsb_true).
  specialize (H Hnn ltac:(lia) [0; 2147483647; 2147483647] 2 2147483648).
  assert (dijkstra 3 heavy 0 = Returns [0; 2147483647; 2147483647]) as Hrun
    by (vm_compute; reflexivity).
  specialize (H Hrun DijkstraProofs.heavy_shortest). vm_compute in H. discriminate H.
Qed.

(** C1, amended: for a graph of [n] adjacency lists with edges into
    [[0, n)] and non-negative weights, a source in [[0, n)], and no sum of
    a shortest distance below [INT_MAX] and the weight of an edge out of
    its node above [INT_MAX], [dijkstra] returns an array of length [n]
    that holds, for every node reachable from the source, the minimum sum
    of edge weights over the paths from the source, cut at [INT_MAX], and
    [INT_MAX] for every node that is not reachable. *)
Theorem C1_dijkstra_shortest_distances (n : Z) (graph : graph_t) (source : Z) :
  well_formed n graph → nonneg_weights graph → 0 ≤ source < n →
  no_overflow graph source →
  ∃ dist, dijkstra n graph source = Returns dist ∧
          Z.of_nat (length dist) = n ∧
          ∀ v, 0 ≤ v < n →
            ∃ d, vec_at dist v = Some d ∧
                 (∀ W, shortest graph source v W → d = Z.min W INF) ∧
                 (¬ reachable graph source v → d = INF).
Proof.
  intros Hwf Hnn Hsrc Hno.
  destruct (DijkstraProofs.dijkstra_defined _ _ _ Hnn Hsrc Hwf Hno) as [dist Hd].
  destruct (DijkstraProofs.dijkstra_Returns _ _ _ Hnn Hsrc _ Hd) as [Hlen Hdist].
  exists dist. split_and!; [done..|]. intros v Hv.
  destruct (Hdist v Hv) as (d & Hdv & HINF & Hlow & Hwalk).
  exists d. split_and!; [done| |].
  - intros W [HW Hmin]. specialize (Hlow _ HW).
    destruct (decide (d < INF)) as [Hlt|Hge]; [|lia].
    specialize (Hmin _ (Hwalk Hlt)). lia.
  - intros Hnr. destruct (decide (d < INF)) as [Hlt|Hge]; [|lia].
    destruct Hnr. exists d. by apply Hwalk.
Qed.

Lemma C1_witness :
  ∃ dist, dijkstra 5 sample 0 = Returns dist ∧
          Z.of_nat (length dist) = 5 ∧
          ∀ v, 0 ≤ v < 5 →
            ∃ d, vec_at dist v = Some d ∧
                 (∀ W, shortest sample 0 v W → d = Z.min W INF) ∧
                 (¬ reachable sample 0 v → d = INF).
Proof.
  apply (C1_dijkstra_shortest_distances 5 sample 0).
  - apply DijkstraProofs.well_formedb_true. reflexivity.
  - apply DijkstraProofs.nonneg_weightsb_true. reflexivity.
  - lia.
  - apply DijkstraProofs.sample_no_overflow.
Defined.

(** C2: the parts of the claim on the steps, the cells and the two ends
    hold, and the one on the length does not.  A relaxation changes the
    [fCost] of a node that is in [openSet] already and pushes the node
    again, and the heap is not put in order for the entry that was
    there, so a later [top] need not be the open node of least [fCost].
    On [detour], a grid of 3 lines of 7 cells, from the walkable cell
    (1, 1) to the walkable cell (0, 6), the sequence returned is longer
    than a path of the grid between the two cells. *)
Theorem C2_detour_is_not_shortest :
  rectangular detour ∧ walkable detour (1, 1) ∧ walkable detour (0, 6) ∧
  ∃ path q,
    aStarSearch detour 1 1 0 6 = Returns path ∧ path ≠ [] ∧
    grid_path detour q ∧ head q = Some (1, 1) ∧ last q = Some (0, 6) ∧
    length path = 11%nat ∧ length q = 9%nat.
Proof.
  split_and!.
  - apply AStarProofs.rectangularb_true. reflexivity.
  - apply AStarProofs.walkableb_true. reflexivity.
  - apply AStarProofs.walkableb_true. reflexivity.
  - exists [(1, 1); (0, 1); (0, 2); (0, 3); (0, 4); (1, 4); (2, 4); (2, 5);
            (2, 6); (1, 6); (0, 6)],
           [(1, 1); (2, 1); (2, 2); (2, 3); (2, 4); (2, 5); (2, 6); (1, 6); (0, 6)].
    split_and!; [vm_compute; reflexivity|discriminate| |reflexivity..].
    apply AStarProofs.grid_pathb_true. reflexivity.
Qed.




(** C4, as the specification states it, fails: with zero nodes, and with
    an empty grid, the call has undefined behaviour; no
    [EmptyGraphError] is raised. *)
Lemma C4_counterexample :
  dijkstra 0 [] 0 = Undefined ∧
  dijkstra 0 [] 0 ≠ Throws EmptyGraphError ∧
  aStarSearch [] 0 0 0 0 = Undefined ∧
  aStarSearch [] 0 0 0 0 ≠ Throws EmptyGraphError.
Proof. vm_compute. by split_and!. Qed.

(** C4, amended: with zero nodes, and with a grid of zero rows or zero
    columns, neither function raises [EmptyGraphError]: the first vector
    access of the call ([dist[source]], [grid[0]],
    [allNodes[startRow][startCol]]) is out of range, which is undefined
    behaviour, before the search loop. *)
Theorem C4_empty_input_is_undefined :
  (∀ graph source, dijkstra 0 graph source = Undefined) ∧
  (∀ grid sr sc gr gc,
     grid_rows grid = 0 ∨ grid_cols grid = 0 →
     aStarSearch grid sr sc gr gc = Undefined) ∧
  (∀ n graph source, dijkstra n graph source ≠ Throws EmptyGraphError) ∧
  (∀ grid sr sc gr gc, aStarSearch grid sr sc gr gc ≠ Throws EmptyGraphError).
Proof.
  split_and!.
  - intros. apply DijkstraProofs.dijkstra_source_out_of_range; lia.
  - intros grid sr sc gr gc Hempty. apply AStarProofs.aStarSearch_out_of_grid. left.
    unfold in_grid. intros [? ?]%AStarProofs.isValid_true. simpl in *. lia.
  - intros. apply DijkstraProofs.dijkstra_not_Throws_spec.
  - intros. apply AStarProofs.aStarSearch_not_Throws.
Qed.

Lemma C4_witness :
  dijkstra 0 sample 0 = Undefined ∧ aStarSearch [[]; []] 0 0 0 0 = Undefined.
Proof.
  destruct C4_empty_input_is_undefined as (H1 & H2 & _ & _). split.
  - apply H1.
  - apply H2. right. reflexivity.
Defined.




(** C6: the Dijkstra loop drops an entry whose key is above the
    distance recorded for its node, leaving the distances as they are, and
    on a graph with non-negative weights, as the specification has them,
    a node that an iteration has expanded is not expanded by any later
    iteration; the A* loop drops a popped cell that is closed, and a cell
    that an iteration has expanded is not expanded by any later
    iteration. *)
Theorem C6_expanded_at_most_once :
  (∀ graph dist pq c u pq' du,
     pq_pop pair_leb pq = Some ((c, u), pq') → vec_at dist u = Some du → c > du →
     Dijkstra.body graph (dist, pq) = inl (dist, pq')) ∧
  (∀ n graph source st0 i j sti stj u,
     nonneg_weights graph →
     Dijkstra.init n source = Some st0 → (i < j)%nat →
     run i (Dijkstra.body graph) st0 = inl sti →
     run j (Dijkstra.body graph) st0 = inl stj →
     DijkstraSpec.expands sti u → ¬ DijkstraSpec.expands stj u) ∧
  (∀ grid sr sc gr gc st0 i st u open',
     AStar.init grid sr sc gr gc = Some st0 →
     run i (AStar.body grid (grid_rows grid) (grid_cols grid) gr gc) st0 = inl st →
     heap_pop (CompareFCost (allNodes st)) (openSet st) = Some (u, open') →
     u ∈ closedSet st →
     AStar.body grid (grid_rows grid) (grid_cols grid) gr gc st =
     inl {| allNodes := allNodes st; closedSet := closedSet st; openSet := open' |}) ∧
  (∀ grid sr sc gr gc st0 i j sti stj u,
     AStar.init grid sr sc gr gc = Some st0 → (i < j)%nat →
     run i (AStar.body grid (grid_rows grid) (grid_cols grid) gr gc) st0 = inl sti →
     run j (AStar.body grid (grid_rows grid) (grid_cols grid) gr gc) st0 = inl stj →
     AStarSpec.expands sti u → ¬ AStarSpec.expands stj u).
Proof.
  split_and!.
  - intros graph dist pq c u pq' du Hpop Hu Hstale. unfold Dijkstra.body.
    rewrite Hpop, Hu. destruct (du <? c) eqn:E; [done|lia].
  - intros n graph source st0 i j sti stj u Hnn Hst0.
    pose proof Hst0 as [Hsrc _]%DijkstraProofs.init_Some.
    intros Hij Hi Hj Hexp.
    by eapply (DijkstraProofs.expands_once n graph source); eauto.
  - intros grid sr sc gr gc st0 i st u open'. apply AStarProofs.discards_closed.
  - intros grid sr sc gr gc st0 i j sti stj u. apply AStarProofs.astar_expands_once.
Qed.

Lemma C6_witness :
  ¬ DijkstraSpec.expands
      ([0; 4; 2; 2147483647; 2147483647], [(2, 2); (4, 1)]) 0.
Proof.
  destruct C6_expanded_at_most_once as (_ & H & _ & _).
  apply (H 5 sample 0 ([0; 2147483647; 2147483647; 2147483647; 2147483647], [(0, 0)])
           0%nat 1%nat
           ([0; 2147483647; 2147483647; 2147483647; 2147483647], [(0, 0)])).
  - apply DijkstraProofs.nonneg_weightsb_true. reflexivity.
  - reflexivity.
  - lia.
  - reflexivity.
  - vm_compute. reflexivity.
  - exists 0, [], 0. split_and!; [reflexivity|reflexivity|lia].
Defined.

(** C7, as the specification states it, fails: in [brink] the weights are
    non-negative and the node 2 is at the distance [INT_MAX] of the node
    0; with the weight of its edge increased by one, the sum
    [dist[u] + weight] leaves [int], which is undefined behaviour, and the
    run returns no array to compare (with wrap-around the entry of the
    node 2 would be [INT_MIN], below the one of the first run). *)
Lemma C7_counterexample :
  ¬ (∀ n graph source (u i : nat) edges v w w',
       well_formed n graph → nonneg_weights graph → 0 ≤ source < n →
       graph !! u = Some edges → edges !! i = Some (v, w) → w ≤ w' →
       ∃ dist dist',
         dijkstra n graph source = Returns dist ∧
         dijkstra n (set_weight graph u i w') source = Returns dist' ∧
         Forall2 Z.le dist dist').
Proof.
  intros H.
  destruct (H 3 brink 0 1%nat 0%nat [(2, 2147483646)] 2 2147483646 2147483647)
    as (dist & dist' & Hd & Hd' & _).
  - apply DijkstraProofs.well_formedb_true. reflexivity.
  - apply DijkstraProofs.nonneg_weightsb_true. reflexivity.
  - lia.
  - reflexivity.
  - reflexivity.
  - lia.
  - vm_compute in Hd'. discriminate Hd'.
Qed.

(** C7, amended: for a graph of [n] adjacency lists with edges into
    [[0, n)] and non-negative weights and a source in [[0, n)], when the
    weight of one edge is increased, nothing else changes, and on the
    graph before and on the graph after no sum of a shortest distance
    below [INT_MAX] and the weight of an edge out of its node is above
    [INT_MAX], [dijkstra] returns an array for both graphs and no entry
    of the array for the new graph is below the entry of the array for
    the old one. *)
Theorem C7_weight_increase_monotone (n : Z) (graph : graph_t) (source : Z)
    (u i : nat) (edges : list (Z * Z)) (v w w' : Z) :
  well_formed n graph → nonneg_weights graph → 0 ≤ source < n →
  graph !! u = Some edges → edges !! i = Some (v, w) → w ≤ w' →
  no_overflow graph source → no_overflow (set_weight graph u i w') source →
  ∃ dist dist',
    dijkstra n graph source = Returns dist ∧
    dijkstra n (set_weight graph u i w') source = Returns dist' ∧
    Forall2 Z.le dist dist'.
Proof. apply DijkstraProofs.dijkstra_monotone_total. Qed.

Lemma C7_witness :
  ∃ dist dist',
    dijkstra 5 sample 0 = Returns dist ∧
    dijkstra 5 (set_weight sample 0 0 9) 0 = Returns dist' ∧
    Forall2 Z.le dist dist'.
Proof.
  apply (C7_weight_increase_monotone 5 sample 0 0 0 [(1, 4); (2, 2)] 1 4 9).
  - apply DijkstraProofs.well_formedb_true. reflexivity.
  - apply DijkstraProofs.nonneg_weightsb_true. reflexivity.
  - lia.
  - reflexivity.
  - reflexivity.
  - lia.
  - apply DijkstraProofs.sample_no_overflow.
  - apply DijkstraProofs.sample_raised_no_overflow.
Defined.

(** C8: when the start cell and the goal cell are the same cell, inside
    the grid and walkable, [aStarSearch] returns the sequence of that one
    cell. *)
Theorem C8_start_is_goal (grid : list (list Z)) (r c : Z) :
  in_grid grid (r, c) → walkable grid (r, c) →
  aStarSearch grid r c r c = Returns [(r, c)].
Proof.
  intros Hin _. by apply AStarProofs.aStarSearch_same_cell.
Qed.

Lemma C8_witness : aStarSearch grid3 2 1 2 1 = Returns [(2, 1)].
Proof.
  apply (C8_start_is_goal grid3 2 1).
  - reflexivity.
  - apply AStarProofs.walkableb_true. reflexivity.
Defined.

(** C10: the reconstruction of the path always ends, and a non-empty
    sequence returned by [aStarSearch] holds no cell twice, begins with
    the start cell and ends with the goal cell; in every state of the
    search the start node has no parent. *)
Theorem C10_path_has_no_repeated_cell (grid : list (list Z)) (sr sc gr gc : Z) :
  aStarSearch grid sr sc gr gc ≠ Diverges ∧
  (∀ st0 st i,
     init grid sr sc gr gc = Some st0 →
     run i (body grid (grid_rows grid) (grid_cols grid) gr gc) st0 = inl st →
     ∃ nd, allNodes st !! (sr, sc) = Some nd ∧ parent nd = None) ∧
  (∀ path,
     aStarSearch grid sr sc gr gc = Returns path → path ≠ [] →
     NoDup path ∧ head path = Some (sr, sc) ∧ last path = Some (gr, gc)).
Proof.
  split_and!.
  - apply (AStarProofs.aStarSearch_not_Throws grid sr sc gr gc std_length_error).
  - intros st0 st i. apply AStarProofs.start_has_no_parent.
  - intros path Hret Hne.
    apply AStarProofs.aStarSearch_Returns in Hret as (_ & _ & [?|(Hrp & Hnd)]); [done|].
    destruct (AStarProofs.rpath_ends _ _ _ _ Hrp). done.
Qed.

Lemma C10_witness :
  NoDup [(0, 0); (1, 0); (2, 0); (2, 1); (2, 2)] ∧
  head [(0, 0); (1, 0); (2, 0); (2, 1); (2, 2)] = Some (0, 0) ∧
  last [(0, 0); (1, 0); (2, 0); (2, 1); (2, 2)] = Some (2, 2).
Proof.
  destruct (C10_path_has_no_repeated_cell grid3 0 0 2 2) as (_ & _ & H).
  apply H.
  - vm_compute. reflexivity.
  - discriminate.
Defined.

(** X1: the sequence returned by [aStarSearch] is not always a shortest
    path.  A relaxation changes the [fCost] of a node that is in [openSet]
    already and pushes the node again; the heap is not put in order for
    the entry that was there.  On [detour], from the cell (1, 1) to the
    cell (0, 6), the sequence returned has 11 cells, and a path of 9 cells
    exists. *)
Lemma X1_path_not_always_shortest :
  walkable detour (1, 1) ∧
  aStarSearch detour 1 1 0 6 =
    Returns [(1, 1); (0, 1); (0, 2); (0, 3); (0, 4); (1, 4); (2, 4); (2, 5);
             (2, 6); (1, 6); (0, 6)] ∧
  ∃ q, grid_path detour q ∧ head q = Some (1, 1) ∧ last q = Some (0, 6) ∧
       length q = 9%nat.
Proof.
  split_and!.
  - apply AStarProofs.walkableb_true. reflexivity.
  - vm_compute. reflexivity.
  - exists [(1, 1); (2, 1); (2, 2); (2, 3); (2, 4); (2, 5); (2, 6); (1, 6); (0, 6)].
    split_and!; [|reflexivity..]. apply AStarProofs.grid_pathb_true. reflexivity.
Qed.

(** X2: the loop of [dijkstra] ends on every input, negative weights and
    cycles included: each iteration either drops a queue entry or lowers a
    distance, and a distance is never below [INT_MIN]. *)
Lemma X2_dijkstra_terminates (n : Z) (graph : graph_t) (source : Z) :
  dijkstra n graph source ≠ Diverges.
Proof. apply DijkstraProofs.dijkstra_not_Diverges. Qed.



End Claims.

(** * A*: what the search reaches *)

Module AStarReach.
Import AStar AStarSpec.

Lemma stepwise_snoc_inv (l : list cell) (v : cell) :
  stepwise (l ++ [v]) → stepwise l ∧ ∀ u, last l = Some u → adjacent u v.
Proof.
  induction l as [|p l IH]; [by split|]. intros [Hp Hl]. simpl in Hl.
  destruct (IH Hl) as [IH1 IH2]. destruct l as [|q l].
  - split; [done|]. intros u [= <-]. done.
  - split; [by split|]. intros u Hu. apply IH2. done.
Qed.

(** A path of the grid is a sequence of steps from its first cell. *)
Lemma grid_path_rpath (grid : list (list Z)) (l : list cell) (s v : cell) :
  grid_path grid l → head l = Some s → last l = Some v → rpath grid s l v.
Proof.
  revert v. induction l as [|x l IH] using rev_ind; intros v [Hall Hsw] Hhd Hlast; [done|].
  rewrite last_snoc in Hlast. injection Hlast as ->.
  apply Forall_app in Hall as [Hall [Hx1 Hx2]%Forall_singleton].
  apply stepwise_snoc_inv in Hsw as [Hsw Hadj].
  destruct (last l) as [u|] eqn:Hu.
  - assert (head l = Some s) as Hhd' by (destruct l; [done|by simpl in *]).
    econstructor; [by apply IH|].
    apply AStarProofs.step_adjacent. split_and!; [done..|by apply Hadj].
  - apply last_None in Hu as ->. simpl in *. injection Hhd as ->. constructor.
Qed.

Section Search.
Variables (grid : list (list Z)) (sr sc gr gc : Z).
Let start : cell := (sr, sc).
Let goal : cell := (gr, gc).
Let rows : Z := grid_rows grid.
Let cols : Z := grid_cols grid.

Lemma close_covered (st : state) (u : cell) (open' : list cell) :
  covered grid none_pending st →
  heap_pop (CompareFCost (allNodes st)) (openSet st) = Some (u, open') →
  covered grid (pending_of u [])
    {| allNodes := allNodes st; closedSet := {[u]} ∪ closedSet st; openSet := open' |}.
Proof.
  intros Hcov (_ & _ & _ & Hcase)%AStarProofs.open_pop_spec c v Hc Hstep. simpl in *.
  apply elem_of_union in Hc as [->%elem_of_singleton|Hc].
  - left. split; [done|]. intros d Hd. by apply elem_of_nil in Hd.
  - destruct (Hcov _ _ Hc Hstep) as [[]|[?|Ho]]; [set_solver|].
    destruct (Hcase _ Ho) as [->|?]; [set_solver|auto].
Qed.

Lemma discard_covered (st : state) (u : cell) (open' : list cell) :
  covered grid none_pending st →
  heap_pop (CompareFCost (allNodes st)) (openSet st) = Some (u, open') →
  u ∈ closedSet st →
  covered grid none_pending
    {| allNodes := allNodes st; closedSet := closedSet st; openSet := open' |}.
Proof.
  intros Hcov (_ & _ & _ & Hcase)%AStarProofs.open_pop_spec Hu c v Hc Hstep. simpl in *.
  destruct (Hcov _ _ Hc Hstep) as [[]|[?|Ho]]; [auto|].
  destruct (Hcase _ Ho) as [->|?]; auto.
Qed.

(** One direction of the loop over the neighbours of the closed cell [u]. *)
Lemma explore_covered (st st' : state) (u : cell) (cur : Node) (ds : list (Z * Z))
    (d : Z * Z) :
  inv grid start goal st → covered grid (pending_of u ds) st →
  allNodes st !! u = Some cur →
  explore grid rows cols gr gc u st d = Some st' →
  covered grid (pending_of u (d :: ds)) st'.
Proof.
  intros Hinv Hcov Hu Hex.
  destruct (inv_key _ _ _ _ Hinv _ _ Hu) as (Hr & Hc & _).
  destruct (AStarProofs.explore_char _ _ _ _ _ _ _ _ Hex Hu Hr Hc) as [[-> Hskip]|Hupd].
  - intros c v Hccl Hstep.
    destruct (Hcov _ _ Hccl Hstep) as [[-> Hpend]|?]; [|auto].
    destruct (decide (v = (u.1 + d.1, u.2 + d.2))) as [->|Hne].
    2:{ left. split; [done|]. intros d' [->|?]%elem_of_cons; auto. }
    right. destruct Hstep as (Hvin & (x & Hx & Hx1) & _).
    destruct Hskip as [?|[?|[?|(nb & Hnb & _ & Hpar)]]]; [done|congruence|auto|].
    apply (inv_seen _ _ _ _ Hinv _ _ Hnb). by right.
  - destruct Hupd as (_ & _ & _ & nb & nodes & _ & _ & _ & ->).
    intros c v Hccl Hstep. simpl in *.
    destruct (Hcov _ _ Hccl Hstep) as [[-> Hpend]|[?|?]].
    + destruct (decide (v = (u.1 + d.1, u.2 + d.2))) as [->|Hne].
      * right. right. apply elem_of_heap_push. by left.
      * left. split; [done|]. intros d' [->|?]%elem_of_cons; auto.
    + auto.
    + right. right. apply elem_of_heap_push. by right.
Qed.

Lemma explore_all_covered (u : cell) (cur : Node) (dl : list (Z * Z)) :
  ∀ (st st' : state) (ds : list (Z * Z)),
  inv grid start goal st → covered grid (pending_of u ds) st →
  u ∈ closedSet st → allNodes st !! u = Some cur →
  (∀ d, d ∈ dl → d ∈ directions) →
  explore_all grid rows cols gr gc u st dl = Some st' →
  covered grid (pending_of u (reverse dl ++ ds)) st'.
Proof.
  induction dl as [|d dl IH]; intros st st' ds Hinv Hcov Hucl Hu Hdl H; simpl in H.
  - by simplify_eq.
  - destruct (explore grid rows cols gr gc u st d) as [st1|] eqn:Hex; [|done].
    destruct (AStarProofs.explore_inv _ _ _ _ _ _ _ _ _ _ Hinv Hucl Hu (Hdl d ltac:(left)) Hex)
      as (Hinv1 & Hu1 & Hcl1).
    pose proof (explore_covered _ _ _ _ _ _ Hinv Hcov Hu Hex) as Hcov1.
    rewrite reverse_cons, <- app_assoc. simpl.
    apply (IH st1); [done|done|by rewrite Hcl1|done| |done].
    intros d' ?. apply Hdl. by right.
Qed.

Lemma body_covered (st st' : state) :
  inv grid start goal st → covered grid none_pending st →
  body grid rows cols gr gc st = inl st' →
  covered grid none_pending st'.
Proof.
  intros Hinv Hcov H. unfold body in H.
  destruct (heap_pop _ _) as [[u open']|] eqn:Hpop; [|done].
  destruct (allNodes st !! u) as [cur|] eqn:Hu; [|done].
  destruct (AStarProofs.node_key _ _ _ _ _ _ _ _ Hinv Hu) as [Hk Hug]. rewrite Hk in H.
  destruct (decide (u ∈ closedSet st)) as [Hcl|Hcl].
  { injection H as <-. by eapply discard_covered. }
  destruct (decide (u = (gr, gc))) as [->|Hng]; [done|].
  destruct (explore_all _ _ _ _ _ _ _ _) as [st2|] eqn:Hex; [|done].
  injection H as <-.
  pose proof (AStarProofs.close_inv _ _ _ _ _ _ _ _ Hinv Hpop Hcl Hng Hug) as Hinv1.
  pose proof (close_covered _ _ _ Hcov Hpop) as Hcov1.
  eapply explore_all_covered in Hex; [|exact Hinv1|exact Hcov1|set_solver|exact Hu|done].
  intros c v Hc Hstep. destruct (Hex _ _ Hc Hstep) as [[-> Hp]|?]; [|auto].
  destruct Hstep as (_ & _ & d & Hd & ->). exfalso. apply (Hp d); [|done].
  apply elem_of_app. left. by apply elem_of_reverse.
Qed.

(** In every state of the search the neighbours of the closed cells have
    been reached. *)
Lemma reached_covered (st0 st : state) (i : nat) :
  init grid sr sc gr gc = Some st0 →
  run i (body grid rows cols gr gc) st0 = inl st →
  inv grid start goal st ∧ covered grid none_pending st.
Proof.
  intros Hst0 Hi.
  eapply (run_inl_invariant (λ st, inv grid start goal st ∧ covered grid none_pending st));
    [| |exact Hi].
  - intros s1 s2 [H1 H2] Hb. split; [by eapply AStarProofs.astar_body_inv|by eapply body_covered].
  - split; [by apply AStarProofs.astar_init_inv|].
    apply AStarProofs.astar_init_Some in Hst0 as (_ & _ & ->). intros c v Hc. set_solver.
Qed.

(** When the queue is empty every cell that steps lead to is closed. *)
Lemma exhausted_closed (st : state) (l : list cell) (v : cell) :
  inv grid start goal st → covered grid none_pending st → openSet st = [] →
  rpath grid start l v → v ∈ closedSet st.
Proof.
  intros Hinv Hcov Hopen. induction 1 as [|l u v _ IH Hstep].
  - destruct (inv_start _ _ _ _ Hinv) as (nd & Hnd & _).
    destruct (inv_seen _ _ _ _ Hinv _ _ Hnd) as [?|Ho]; [by left|done|].
    rewrite Hopen in Ho. by apply elem_of_nil in Ho.
  - destruct (Hcov _ _ IH Hstep) as [[]|[?|Ho]]; [done|].
    rewrite Hopen in Ho. by apply elem_of_nil in Ho.
Qed.

(** The empty sequence is returned only when no steps lead from the start
    to the goal. *)
Lemma aStarSearch_empty (l : list cell) :
  aStarSearch grid sr sc gr gc = Returns [] → ¬ rpath grid start l goal.
Proof.
  unfold aStarSearch. destruct (init grid sr sc gr gc) as [st0|] eqn:Hst0; [|done].
  destruct (while_loop _ _ _) as [|r] eqn:Hloop; [done|]. intros -> Hpath.
  rewrite while_loop_run in Hloop.
  apply (run_inr_invariant (λ st, inv grid start goal st ∧ covered grid none_pending st))
    in Hloop as (st & [Hinv Hcov] & Hr).
  - apply (AStarProofs.astar_body_result _ _ _ _ _ _ _ Hinv) in Hr
      as [[_ Hopen]|[?|(open' & Hpop & _ & Hr)]]; [|done|].
    + pose proof (exhausted_closed _ _ _ Hinv Hcov Hopen Hpath).
      by apply (inv_goal _ _ _ _ Hinv).
    + destruct (AStarProofs.goal_popped _ _ _ _ _ _ _ Hinv Hpop)
        as (path & ng & Hrec & _ & _ & Hrp & _).
      rewrite Hrec in Hr. injection Hr as <-.
      apply AStarProofs.rpath_length in Hrp. simpl in Hrp. lia.
  - intros s1 s2 [H1 H2] Hb. split; [by eapply AStarProofs.astar_body_inv|by eapply body_covered].
  - split; [by apply AStarProofs.astar_init_inv|].
    apply AStarProofs.astar_init_Some in Hst0 as (_ & _ & ->). intros c v Hc. set_solver.
Qed.

(** The cells of a sequence of steps from a cell of the grid are cells of
    the grid. *)
Lemma rpath_in_grid (l : list cell) (v : cell) :
  in_grid grid start → rpath grid start l v → ∀ p, p ∈ l → in_grid grid p.
Proof.
  intros Hs. induction 1 as [|l u v _ IH (Hv & _)].
  - by intros p ->%list_elem_of_singleton.
  - intros p [?| ->%list_elem_of_singleton]%elem_of_app; auto.
Qed.

(** The loop ends within five iterations a cell, and two more. *)
Lemma loop_bound (st0 : state) :
  init grid sr sc gr gc = Some st0 →
  ∃ r, run (5 * (Z.to_nat rows * Z.to_nat cols) + 2) (body grid rows cols gr gc) st0
       = inr r.
Proof.
  intros Hst0.
  apply (run_terminates (inv grid start goal) measure).
  - intros st1 st2 H1 H2.
    split; [by eapply AStarProofs.astar_body_inv|by eapply AStarProofs.astar_body_measure].
  - by apply AStarProofs.astar_init_inv.
  - apply AStarProofs.astar_init_Some in Hst0 as (Hs & _ & ->). unfold measure. simpl.
    rewrite difference_empty_L, size_dom, map_size_insert_Some, AStarProofs.size_new_nodes.
    + unfold rows, cols. lia.
    + rewrite AStarProofs.new_nodes_lookup. unfold in_grid in Hs. cbn [fst snd] in *.
      rewrite Hs. by eexists.
Qed.

End Search.

Lemma rpath_stepwise (grid : list (list Z)) (s v : cell) (l : list cell) :
  rpath grid s l v → stepwise l.
Proof.
  induction 1 as [|l u v Hl IH Hstep]; [done|].
  apply AStarProofs.step_adjacent in Hstep as (_ & _ & ?).
  eapply AStarProofs.stepwise_snoc; [done| |done].
  by apply AStarProofs.rpath_ends in Hl as [_ ?].
Qed.

(** One step changes the Manhattan distance to a cell by one at most. *)
Lemma heuristic_step (p q g : cell) :
  adjacent p q →
  heuristicManhattan p.1 p.2 g.1 g.2 ≤ heuristicManhattan q.1 q.2 g.1 g.2 + 1.
Proof. unfold adjacent, heuristicManhattan. lia. Qed.

Lemma heuristic_stepwise (l : list cell) (p q : cell) :
  stepwise l → head l = Some p → last l = Some q →
  heuristicManhattan p.1 p.2 q.1 q.2 ≤ Z.of_nat (length l) - 1.
Proof.
  revert p. induction l as [|x l IH]; intros p Hsw Hhd Hlast; [done|].
  injection Hhd as ->. destruct l as [|y l].
  - injection Hlast as ->. unfold heuristicManhattan. simpl. lia.
  - destruct Hsw as [Hadj Hsw]. change (last (p :: y :: l)) with (last (y :: l)) in Hlast.
    specialize (IH y Hsw eq_refl Hlast).
    pose proof (heuristic_step p y q Hadj). rewrite length_cons. lia.
Qed.

End AStarReach.

(** * Streams: lemmas *)

Section Streams.
Import IO.

Lemma extract_literal (s : istream) (z : Z) (rest : list Z) :
  failed s = false → literals s = z :: rest → in_int z →
  extract s = (Some z, {| literals := rest; garbage := garbage s; failed := false |}).
Proof.
  intros Hf Hl Hz. unfold extract. rewrite Hf, Hl. unfold in_int in Hz.
  destruct (INT_MIN <=? z) eqn:E1; [|lia]. destruct (z <=? INT_MAX) eqn:E2; [|lia]. done.
Qed.

(** An extraction that leaves the stream in order has read a literal. *)
Lemma extract_good (s s' : istream) (v : option Z) :
  extract s = (v, s') → failed s' = false →
  ∃ z, v = Some z ∧ in_int z ∧ failed s = false ∧ literals s = z :: literals s' ∧
       garbage s' = garbage s.
Proof.
  unfold extract. destruct (failed s) eqn:Hf.
  { intros [= <- <-] Hf'. congruence. }
  destruct (literals s) as [|z rest] eqn:Hl.
  { intros [= <- <-] Hf'. done. }
  destruct (INT_MIN <=? z) eqn:E1; destruct (z <=? INT_MAX) eqn:E2; simpl;
    intros [= <- <-] Hf'; try done.
  exists z. unfold in_int. split_and!; [done|lia|lia|done..].
Qed.

(** Whatever an extraction writes is an [int]. *)
Lemma extract_in_int (s s' : istream) (z : Z) :
  extract s = (Some z, s') → in_int z.
Proof.
  unfold extract, clamp, in_int, INT_MIN, INT_MAX. destruct (failed s); [done|].
  destruct (literals s) as [|y rest].
  { destruct (garbage s); intros [= <- <-]; lia. }
  destruct (_ <=? y) eqn:E1; destruct (y <=? _) eqn:E2; simpl; intros [= <- <-]; try lia;
    repeat case_match; lia.
Qed.

(** The value written on a stream that fails by it: 0 for text that is no
    literal, a bound of [int] for a literal outside [int]. *)
Lemma extract_bad (s s' : istream) (z : Z) :
  extract s = (Some z, s') → failed s' = true →
  failed s = false ∧
  ((literals s = [] ∧ garbage s = true ∧ z = 0) ∨ z = INT_MIN ∨ z = INT_MAX).
Proof.
  unfold extract. destruct (failed s) eqn:Hf; [done|].
  destruct (literals s) as [|y rest] eqn:Hl.
  { destruct (garbage s); intros [= <- <-] _; auto. }
  destruct (INT_MIN <=? y) eqn:E1; destruct (y <=? INT_MAX) eqn:E2; simpl;
    intros [= <- <-] Hf'; try done; split; try done; right; unfold clamp;
    repeat case_match; auto; lia.
Qed.

Lemma extract_failed (s : istream) : failed s = true → extract s = (None, s).
Proof. intros Hf. unfold extract. by rewrite Hf. Qed.

End Streams.

(** * [main] of dijkstra.cpp: proofs *)

Module DijkstraMainProofs.
Import IO Dijkstra DijkstraSpec DijkstraMain MainSpec.

Lemma push_back_Some (graph graph' : graph_t) (u : Z) (e : Z * Z) :
  push_back graph u e = Some graph' →
  0 ≤ u < Z.of_nat (length graph) ∧ length graph' = length graph ∧
  ∀ x y w, edge graph' x y w ↔ edge graph x y w ∨ (x = u ∧ (y, w) = e).
Proof.
  unfold push_back. destruct (vec_at graph u) as [edges|] eqn:Hu; [|done].
  intros [= <-]. pose proof (vec_at_range _ _ _ Hu) as Hr.
  split_and!; [lia..|by rewrite length_insert|].
  intros x y w. unfold edge. destruct (decide (x = u)) as [->|Hne].
  - rewrite (vec_at_insert_eq _ _ _ _ Hu). split.
    + intros (l & [= <-] & [?| ->%list_elem_of_singleton]%elem_of_app); eauto.
    + intros [(l & Hl & Hin)|[_ <-]].
      * rewrite Hu in Hl. injection Hl as <-. eexists. split; [done|].
        apply elem_of_app. by left.
      * eexists. split; [done|]. apply elem_of_app. right. by left.
  - rewrite vec_at_insert_ne by lia. split; [by left|]. by intros [?|[? _]].
Qed.

Lemma push_back_is_Some (graph : graph_t) (u : Z) (e : Z * Z) :
  0 ≤ u < Z.of_nat (length graph) → is_Some (push_back graph u e).
Proof.
  intros Hu. unfold push_back. destruct (vec_at_is_Some graph u Hu) as [edges ->].
  by eexists.
Qed.

(** One iteration: an edge, in both directions. *)
Lemma read_edge_Some (graph graph' : graph_t) (s s' : istream) :
  read_edge graph s = Some (graph', s') →
  ∃ u v w s1 s2,
    extract s = (Some u, s1) ∧ extract s1 = (Some v, s2) ∧ extract s2 = (Some w, s') ∧
    0 ≤ u < Z.of_nat (length graph) ∧ 0 ≤ v < Z.of_nat (length graph) ∧
    length graph' = length graph ∧
    ∀ x y k, edge graph' x y k ↔ edge graph x y k ∨ joins [(u, v, w)] x y k.
Proof.
  unfold read_edge. destruct (extract s) as [u s1] eqn:H1.
  destruct (extract s1) as [v s2] eqn:H2. destruct (extract s2) as [w s3] eqn:H3.
  destruct u as [u|]; [|done]. destruct v as [v|]; [|done]. destruct w as [w|]; [|done].
  destruct (push_back graph u (v, w)) as [g1|] eqn:Hg1; [|done].
  destruct (push_back g1 v (u, w)) as [g2|] eqn:Hg2; [|done].
  intros [= <- <-].
  apply push_back_Some in Hg1 as (Hu & Hl1 & He1).
  apply push_back_Some in Hg2 as (Hv & Hl2 & He2).
  rewrite Hl1 in Hv. exists u, v, w, s1, s2. split_and!; [done|done|done|lia|lia|lia|lia|congruence|].
  intros x y k. rewrite He2, He1. unfold joins. rewrite !list_elem_of_singleton.
  split; [intros [[?|[-> [= -> ->]]]|[-> [= -> ->]]]|intros [?|[[= -> -> ->]|[= -> -> ->]]]];
    auto.
Qed.

Lemma read_edge_is_Some (graph : graph_t) (s s1 s2 s3 : istream) (u v w : Z) :
  extract s = (Some u, s1) → extract s1 = (Some v, s2) → extract s2 = (Some w, s3) →
  0 ≤ u < Z.of_nat (length graph) → 0 ≤ v < Z.of_nat (length graph) →
  ∃ graph', read_edge graph s = Some (graph', s3).
Proof.
  intros H1 H2 H3 Hu Hv. unfold read_edge. rewrite H1, H2, H3.
  destruct (push_back_is_Some graph u (v, w) Hu) as [g1 Hg1]. rewrite Hg1.
  apply push_back_Some in Hg1 as (_ & Hl1 & _).
  destruct (push_back_is_Some g1 v (u, w)) as [g2 ->]; [lia|]. by eexists.
Qed.

(** The loop over the edges: the graph holds the edges it had and the
    edges that were read, each in both directions. *)
Lemma read_edges_Some (m : nat) :
  ∀ (graph graph' : graph_t) (s s' : istream),
  read_edges m graph s = Some (graph', s') →
  length graph' = length graph ∧
  ∃ triples, length triples = m ∧
             endpoints_in (Z.of_nat (length graph)) triples ∧
             (∀ x y k, edge graph' x y k ↔ edge graph x y k ∨ joins triples x y k) ∧
             (failed s' = false →
              failed s = false ∧ literals s = flat triples ++ literals s' ∧
              Forall in_int (flat triples) ∧ garbage s' = garbage s).
Proof.
  induction m as [|m IH]; intros graph graph' s s' H; cbn [read_edges] in H.
  - injection H as <- <-. split; [done|]. exists []. split_and!; [done|constructor| |done].
    intros x y k. unfold joins. split; [auto|]. intros [?|[?%elem_of_nil|?%elem_of_nil]]; done.
  - destruct (read_edge graph s) as [[g1 s1]|] eqn:Hre; [|done].
    apply read_edge_Some in Hre
      as (u & v & w & t1 & t2 & H1 & H2 & H3 & Hu & Hv & Hl1 & He1).
    apply IH in H as (Hl & triples & Hlen & Hend & He & Hstream).
    split; [congruence|]. exists ((u, v, w) :: triples). split_and!.
    + simpl. by rewrite Hlen.
    + constructor; [done|]. by rewrite <- Hl1.
    + intros x y k. rewrite He, He1. unfold joins.
      rewrite !elem_of_cons, !elem_of_nil. tauto.
    + intros Hf'. destruct (Hstream Hf') as (Hf1 & Hlit1 & Hint & Hg1).
      destruct (extract_good _ _ _ H3 Hf1) as (? & [= <-] & ? & Hf2 & Hlit2 & Hg2).
      destruct (extract_good _ _ _ H2 Hf2) as (? & [= <-] & ? & Hf3 & Hlit3 & Hg3).
      destruct (extract_good _ _ _ H1 Hf3) as (? & [= <-] & ? & Hf4 & Hlit4 & Hg4).
      split_and!; [done| | |congruence].
      * simpl. rewrite Hlit4, Hlit3, Hlit2, Hlit1. done.
      * simpl. by repeat apply Forall_cons_2.
Qed.

(** The graph that [main] builds has an adjacency list for each of the
    [n] nodes, edges between these nodes only, and each edge in both
    directions. *)
Lemma read_edges_graph (m n : nat) (graph : graph_t) (s s' : istream) :
  read_edges m (replicate n []) s = Some (graph, s') →
  well_formed (Z.of_nat n) graph ∧ undirected graph ∧
  ∃ triples, length triples = m ∧ endpoints_in (Z.of_nat n) triples ∧
             ∀ x y k, edge graph x y k ↔ joins triples x y k.
Proof.
  intros (Hl & triples & Hlen & Hend & He & _)%read_edges_Some.
  rewrite length_replicate in Hl, Hend.
  assert (Hedge : ∀ x y k, edge graph x y k ↔ joins triples x y k).
  { intros x y k. rewrite He. split; [|auto]. intros [(l & Hx & Hin)|?]; [|done].
    apply vec_at_Some in Hx as [_ Hx]. apply lookup_replicate in Hx as [-> _].
    by apply elem_of_nil in Hin. }
  split_and!.
  - split; [by rewrite Hl|]. intros u edges v w Hu Hin.
    assert (edge graph u v w) as [Hj|Hj]%Hedge by (by exists edges);
      unfold endpoints_in in Hend; rewrite Forall_forall in Hend;
      apply Hend in Hj; simpl in Hj; lia.
  - intros u v w [?|?]%Hedge; apply Hedge; [by right|by left].
  - by exists triples.
Qed.

(** The same, with what the loop has taken from the stream. *)
Lemma read_edges_graph_stream (m n : nat) (graph : graph_t) (s s' : istream) :
  read_edges m (replicate n []) s = Some (graph, s') →
  well_formed (Z.of_nat n) graph ∧ undirected graph ∧
  ∃ triples, length triples = m ∧ endpoints_in (Z.of_nat n) triples ∧
             (∀ x y k, edge graph x y k ↔ joins triples x y k) ∧
             (failed s' = false →
              failed s = false ∧ literals s = flat triples ++ literals s' ∧
              Forall in_int (flat triples) ∧ garbage s' = garbage s).
Proof.
  intros (Hl & triples & Hlen & Hend & He & Hstream)%read_edges_Some.
  rewrite length_replicate in Hl, Hend.
  assert (Hedge : ∀ x y k, edge graph x y k ↔ joins triples x y k).
  { intros x y k. rewrite He. split; [|auto]. intros [(l & Hx & Hin)|?]; [|done].
    apply vec_at_Some in Hx as [_ Hx]. apply lookup_replicate in Hx as [-> _].
    by apply elem_of_nil in Hin. }
  split_and!.
  - split; [by rewrite Hl|]. intros u edges v w Hu Hin.
    assert (edge graph u v w) as [Hj|Hj]%Hedge by (by exists edges);
      unfold endpoints_in in Hend; rewrite Forall_forall in Hend;
      apply Hend in Hj; simpl in Hj; lia.
  - intros u v w [?|?]%Hedge; apply Hedge; [by right|by left].
  - by exists triples.
Qed.

(** The loop over the distances writes the lines of [report]. *)
Lemma print_distances_spec (l2 : list Z) :
  ∀ l1 : list Z,
  print_distances (length l2) (Z.of_nat (length l1)) (l1 ++ l2) =
  Some (mjoin (imap (λ i d, print_distance (Z.of_nat (length l1 + i)) d) l2)).
Proof.
  induction l2 as [|d l2 IH]; intros l1; [done|]. cbn [length print_distances].
  assert (vec_at (l1 ++ d :: l2) (Z.of_nat (length l1)) = Some d) as ->.
  { apply vec_at_Some. split; [lia|]. rewrite Nat2Z.id. by apply list_lookup_middle. }
  specialize (IH (l1 ++ [d])). rewrite <- app_assoc, length_app in IH. simpl in IH.
  replace (Z.of_nat (length l1) + 1) with (Z.of_nat (length l1 + 1)) by lia.
  rewrite IH. csimpl. rewrite Nat.add_0_r. do 3 f_equal.
  apply imap_ext. intros i x _. simpl. do 2 f_equal. lia.
Qed.

Lemma print_distances_report (dist : list Z) :
  print_distances (length dist) 0 dist = Some (report dist).
Proof. apply (print_distances_spec dist []). Qed.

(** *** Paths of an undirected graph *)

Lemma walk_trans (graph : graph_t) (s u v W1 W2 : Z) :
  walk graph s u W1 → walk graph u v W2 → walk graph s v (W1 + W2).
Proof.
  intros H1. induction 1 as [|x W edges y w _ IH Hx Hin].
  - by rewrite Z.add_0_r.
  - rewrite Z.add_assoc. by econstructor.
Qed.

Lemma walk_reverse (graph : graph_t) (s v W : Z) :
  undirected graph → walk graph s v W → walk graph v s W.
Proof.
  intros Hund. induction 1 as [|u W edges v w _ IH Hu Hin]; [constructor|].
  destruct (Hund u v w) as (edges' & Hv & Hin'); [by exists edges|].
  replace (W + w) with ((0 + w) + W) by lia.
  eapply walk_trans; [|done]. econstructor; [constructor|done..].
Qed.

(** In an undirected graph the distance from [s] to [t] is the distance
    from [t] to [s]. *)
Lemma dijkstra_symmetric (n : Z) (graph : graph_t) (s t : Z) (ds dt : list Z) :
  undirected graph → nonneg_weights graph →
  dijkstra n graph s = Returns ds → dijkstra n graph t = Returns dt →
  ∃ d, vec_at ds t = Some d ∧ vec_at dt s = Some d.
Proof.
  intros Hund Hnn Hs Ht.
  assert (Hrange : ∀ x dx, dijkstra n graph x = Returns dx → 0 ≤ x < n).
  { intros x dx Hx. unfold dijkstra in Hx. destruct (n <? 0); [done|].
    destruct (init n x) as [st|] eqn:Hst; [|done].
    by apply DijkstraProofs.init_Some in Hst as [? _]. }
  pose proof (Hrange _ _ Hs) as Hsr. pose proof (Hrange _ _ Ht) as Htr.
  destruct (DijkstraProofs.dijkstra_Returns _ _ _ Hnn Hsr _ Hs) as [_ Hds].
  destruct (DijkstraProofs.dijkstra_Returns _ _ _ Hnn Htr _ Ht) as [_ Hdt].
  destruct (Hds t Htr) as (d1 & Hd1 & HI1 & Hlow1 & Hw1).
  destruct (Hdt s Hsr) as (d2 & Hd2 & HI2 & Hlow2 & Hw2).
  exists d1. split; [done|]. rewrite Hd2. f_equal.
  assert (d1 ≤ d2).
  { destruct (decide (d2 < INF)) as [Hlt|?]; [|lia].
    apply Hlow1, walk_reverse; auto. }
  assert (d2 ≤ d1).
  { destruct (decide (d1 < INF)) as [Hlt|?]; [|lia].
    apply Hlow2, walk_reverse; auto. }
  lia.
Qed.

(** *** The array that [dijkstra] returns *)

Lemma dijkstra_array (n : Z) (graph : graph_t) (source : Z) (dist : list Z) :
  nonneg_weights graph → dijkstra n graph source = Returns dist →
  vec_at dist source = Some 0 ∧
  Forall (λ d, 0 ≤ d ≤ INT_MAX) dist ∧
  ∀ u v w du dv, edge graph u v w → vec_at dist u = Some du → du < INF →
                 vec_at dist v = Some dv → dv ≤ du + w.
Proof.
  intros Hnn Hret.
  assert (0 ≤ source < n) as Hsrc.
  { unfold dijkstra in Hret. destruct (n <? 0); [done|].
    destruct (init n source) as [st|] eqn:Hst; [|done].
    by apply DijkstraProofs.init_Some in Hst as [? _]. }
  destruct (DijkstraProofs.dijkstra_Returns _ _ _ Hnn Hsrc _ Hret) as [Hlen Hdist].
  assert (Hpos : ∀ v d, vec_at dist v = Some d → 0 ≤ d ≤ INF ∧ (d < INF → walk graph source v d)).
  { intros v d Hv. pose proof (vec_at_range _ _ _ Hv) as Hr. rewrite Hlen in Hr.
    destruct (Hdist v Hr) as (d' & Hd' & HI & _ & Hw). rewrite Hv in Hd'. injection Hd' as <-.
    split; [|done]. split; [|done].
    destruct (decide (d < INF)) as [Hlt|?]; [|unfold INF, INT_MAX in *; lia].
    by eapply DijkstraProofs.walk_nonneg; eauto. }
  split_and!.
  - destruct (Hdist source Hsrc) as (d & Hd & HI & Hlow & Hw).
    specialize (Hlow 0 (walk_here _ _)). destruct (Hpos _ _ Hd) as [[? _] _].
    rewrite Hd. f_equal. lia.
  - apply Forall_lookup. intros i d Hi.
    assert (vec_at dist (Z.of_nat i) = Some d) as Hv.
    { apply vec_at_Some. split; [lia|]. by rewrite Nat2Z.id. }
    by destruct (Hpos _ _ Hv) as [? _].
  - intros u v w du dv (edges & Hu & Hin) Hdu Hlt Hdv.
    destruct (Hpos _ _ Hdu) as [_ Hwalk]. specialize (Hwalk Hlt).
    pose proof (vec_at_range _ _ _ Hdv) as Hr. rewrite Hlen in Hr.
    destruct (Hdist v Hr) as (d' & Hd' & _ & Hlow & _). rewrite Hdv in Hd'. injection Hd' as <-.
    apply Hlow. by econstructor.
Qed.

(** *** [main] *)

Lemma dijkstra_source_range (n : Z) (graph : graph_t) (source : Z) (dist : list Z) :
  dijkstra n graph source = Returns dist → 0 ≤ source < n.
Proof.
  unfold dijkstra. destruct (n <? 0); [done|].
  destruct (init n source) as [st|] eqn:Hst; [|done].
  by apply DijkstraProofs.init_Some in Hst as [? _].
Qed.

(** On an input that gives a graph with non-negative weights on which no
    addition overflows, [main] writes the distances. *)
Lemma main_valid (cin s1 s2 s3 s4 : istream) (n m source : Z) (graph : graph_t) :
  extract cin = (Some n, s1) → extract s1 = (Some m, s2) →
  read_edges (Z.to_nat m) (replicate (Z.to_nat n) []) s2 = Some (graph, s3) →
  extract s3 = (Some source, s4) → 0 ≤ source < n →
  nonneg_weights graph → no_overflow graph source →
  ∃ dist,
    main cin = Returns ([Cout "Shortest distances from vertex "; Cout (pretty source);
                         Cout (":" +:+ nl)] ++ report dist, 0) ∧
    Z.of_nat (length dist) = n ∧
    ∀ v, 0 ≤ v < n →
      ∃ d, vec_at dist v = Some d ∧
           (∀ W, shortest graph source v W → d = Z.min W INF) ∧
           (¬ reachable graph source v → d = INF).
Proof.
  intros H1 H2 Hre H3 Hsrc Hnn Hno.
  destruct (read_edges_graph _ _ _ _ _ Hre) as (Hwf & _). rewrite Z2Nat.id in Hwf by lia.
  destruct (DijkstraProofs.dijkstra_defined _ _ _ Hnn Hsrc Hwf Hno) as [dist Hd].
  destruct (DijkstraProofs.dijkstra_Returns _ _ _ Hnn Hsrc _ Hd) as [Hlen Hdist].
  exists dist. split_and!; [|done|].
  - unfold main. rewrite H1, H2. destruct (n <? 0) eqn:E; [lia|].
    rewrite Hre, H3. cbn [fst]. rewrite Hd.
    replace (Z.to_nat n) with (length dist) by lia.
    by rewrite print_distances_report.
  - intros v Hv. destruct (Hdist v Hv) as (d & Hdv & HINF & Hlow & Hwalk).
    exists d. split_and!; [done| |].
    + intros W [HW Hmin]. specialize (Hlow _ HW).
      destruct (decide (d < INF)) as [Hlt|Hge]; [|lia].
      specialize (Hmin _ (Hwalk Hlt)). lia.
    + intros Hnr. destruct (decide (d < INF)) as [Hlt|Hge]; [|lia].
      destruct Hnr. exists d. by apply Hwalk.
Qed.

(** [main] returns only when the numbers it reads are there. *)
Lemma main_Returns (cin : istream) (out : list output) (status : Z) :
  main cin = Returns (out, status) →
  status = 0 ∧
  ∃ n m triples tail,
    failed cin = false ∧ literals cin = n :: m :: flat triples ++ tail ∧
    Forall in_int (n :: m :: flat triples) ∧ 0 ≤ n ∧
    length triples = Z.to_nat m ∧ endpoints_in n triples ∧
    ((∃ source rest, tail = source :: rest ∧ 0 ≤ source < n) ∨
     (tail = [] ∧ garbage cin = true ∧ 0 < n)).
Proof.
  unfold main. destruct (extract cin) as [n s1] eqn:H1.
  destruct (extract s1) as [m s2] eqn:H2.
  destruct n as [n|]; [|done]. destruct (n <? 0) eqn:Hn; [done|].
  destruct m as [m|]; [|done].
  destruct (read_edges _ _ _) as [[graph s3]|] eqn:Hre; [|done].
  destruct (extract s3) as [src s4] eqn:H3. cbn [fst].
  destruct src as [source|]; [|done].
  destruct (dijkstra n graph source) as [dist| | |] eqn:Hd; try done.
  destruct (print_distances _ _ _) as [lines|]; [|done]. intros [= <- <-].
  split; [done|].
  apply dijkstra_source_range in Hd.
  assert (failed s3 = false) as Hf3.
  { destruct (failed s3) eqn:E; [|done]. rewrite (extract_failed _ E) in H3. done. }
  apply read_edges_Some in Hre as (_ & triples & Hlen & Hend & _ & Hstream).
  destruct (Hstream Hf3) as (Hf2 & Hlit2 & Hint & Hg2).
  destruct (extract_good _ _ _ H2 Hf2) as (? & [= <-] & Hm & Hf1 & Hlit1 & Hg1).
  destruct (extract_good _ _ _ H1 Hf1) as (? & [= <-] & Hnint & Hf0 & Hlit0 & Hg0).
  rewrite length_replicate, Z2Nat.id in Hend by lia.
  exists n, m, triples, (literals s3). split_and!; [done| | |lia|done|done|].
  - rewrite Hlit0, Hlit1, Hlit2. done.
  - by repeat apply Forall_cons_2.
  - destruct (failed s4) eqn:Hf4.
    + destruct (extract_bad _ _ _ H3 Hf4) as (_ & [(Hl & Hg & ->)|[->| ->]]).
      * right. split_and!; [done|congruence|lia].
      * unfold INT_MIN in Hd. lia.
      * unfold in_int in Hnint. lia.
    + destruct (extract_good _ _ _ H3 Hf4) as (? & [= <-] & _ & _ & Hl & _).
      left. exists source, (literals s4). done.
Qed.

End DijkstraMainProofs.

(** * [main] of a_star.cpp: proofs *)

Module AStarMainProofs.
Import IO AStar AStarSpec AStarMain MainSpec.

Lemma read_line_length (cols : nat) (s : istream) :
  length (read_line cols s).1 = cols.
Proof.
  revert s. induction cols as [|cols IH]; intros s; [done|]. cbn [read_line].
  destruct (extract s) as [x s1]. specialize (IH s1).
  destruct (read_line cols s1) as [line s2]. simpl in *. by rewrite IH.
Qed.

Lemma read_grid_shape (rows cols : nat) (s : istream) :
  shape rows cols (read_grid rows cols s).1.
Proof.
  revert s. induction rows as [|rows IH]; intros s; [by split|]. cbn [read_grid].
  pose proof (read_line_length cols s) as Hl.
  destruct (read_line cols s) as [line s1]. specialize (IH s1).
  destruct (read_grid rows cols s1) as [grid s2]. simpl in *.
  destruct IH as [IH1 IH2]. split; [simpl; by rewrite IH1|by constructor].
Qed.

(** The cells of a line are the next literals of the stream; the cells
    for which there is none are 0. *)
Lemma read_line_values (cols : nat) :
  ∀ (s : istream) (k : nat), Forall in_int (literals s) → (cols ≤ k)%nat →
  (read_line cols s).1 = take cols (readable s ++ replicate k 0) ∧
  readable (read_line cols s).2 = drop cols (readable s) ∧
  Forall in_int (literals (read_line cols s).2).
Proof.
  induction cols as [|cols IH]; intros s k Hint Hk.
  { simpl. by rewrite drop_0. }
  destruct k as [|k]; [lia|]. cbn [read_line].
  destruct (extract s) as [x s1] eqn:Hx.
  assert ((readable s = [] ∧ default 0 x = 0 ∧ readable s1 = [] ∧ literals s1 = [] ∨
           readable s = [] ∧ default 0 x = 0 ∧ s1 = s ∧ failed s = true) ∨
          (∃ rest, readable s = default 0 x :: rest ∧ readable s1 = rest ∧
                   literals s1 = rest)) as Hcases.
  { unfold extract in Hx. destruct (failed s) eqn:Hf.
    - injection Hx as <- <-. left. right. unfold readable. by rewrite Hf.
    - destruct (literals s) as [|z rest] eqn:Hl.
      + injection Hx as <- <-. left. left. unfold readable. rewrite Hf, Hl. simpl.
        by destruct (garbage s).
      + apply Forall_cons in Hint as [Hz _]. unfold in_int in Hz.
        destruct (INT_MIN <=? z) eqn:E1; [|lia]. destruct (z <=? INT_MAX) eqn:E2; [|lia].
        injection Hx as <- <-. right. exists rest. unfold readable. by rewrite Hf, Hl. }
  destruct Hcases as [[(Hr & Hd & Hr1 & Hl1)|(Hr & Hd & -> & Hf)]|(rest & Hr & Hr1 & Hl1)].
  - destruct (IH s1 k) as (H1 & H2 & H3); [rewrite Hl1; constructor|lia|].
    destruct (read_line cols s1) as [line s2]. cbn [fst snd] in *.
    rewrite Hr, Hd, H1, H2, Hr1. simpl. by rewrite drop_nil.
  - destruct (IH s k) as (H1 & H2 & H3); [done|lia|].
    destruct (read_line cols s) as [line s2]. cbn [fst snd] in *.
    rewrite Hd, H1, H2, Hr. simpl. by rewrite drop_nil.
  - destruct (IH s1 (Datatypes.S k)) as (H1 & H2 & H3).
    { rewrite Hl1. unfold readable in Hr. destruct (failed s); [done|].
      rewrite Hr in Hint. by apply Forall_cons in Hint as [_ ?]. }
    { lia. }
    destruct (read_line cols s1) as [line s2]. cbn [fst snd] in *.
    rewrite Hr, H1, H2, Hr1. done.
Qed.

(** The grid is the next [rows * cols] literals of the stream, line after
    line; the cells for which there is none are 0. *)
Lemma read_grid_values (rows cols : nat) :
  ∀ (s : istream) (k : nat), Forall in_int (literals s) → (rows * cols ≤ k)%nat →
  mjoin (read_grid rows cols s).1 = take (rows * cols) (readable s ++ replicate k 0).
Proof.
  induction rows as [|rows IH]; intros s k Hint Hk; [done|].
  cbn [read_grid].
  destruct (read_line_values cols s k Hint ltac:(lia)) as (H1 & H2 & H3).
  destruct (read_line cols s) as [line s1]. simpl in H1, H2, H3.
  specialize (IH s1 (k - (cols - length (readable s)))%nat H3).
  destruct (read_grid rows cols s1) as [grid s2]. simpl in *.
  rewrite IH by lia. rewrite H1, H2.
  rewrite <- take_take_drop. f_equal. rewrite drop_app, drop_replicate. done.
Qed.

(** Only the value 1 is an obstacle: [grid[r][c]] is looked at by the test
    [== 1] alone. *)
Lemma grid_at_obstacles_only (grid : list (list Z)) (r c : Z) :
  grid_at (obstacles_only grid) r c
  = (λ v : Z, if v =? 1 then 1 else 0) <$> grid_at grid r c.
Proof.
  unfold grid_at, obstacles_only, vec_at. destruct (0 <=? r); [|done].
  rewrite list_lookup_fmap. destruct (grid !! Z.to_nat r) as [line|]; [|done]. simpl.
  destruct (0 <=? c); [|done]. by rewrite list_lookup_fmap.
Qed.

Lemma explore_obstacles_only (grid : list (list Z)) (rows cols gr gc : Z)
    (u : cell) (st : state) (d : Z * Z) :
  explore (obstacles_only grid) rows cols gr gc u st d
  = explore grid rows cols gr gc u st d.
Proof.
  unfold explore. destruct (allNodes st !! u) as [cur|]; [|done].
  destruct (negb _); [done|]. rewrite grid_at_obstacles_only.
  destruct (grid_at grid _ _) as [v|]; [|done]. simpl.
  destruct (v =? 1) eqn:E; [done|]. done.
Qed.

Lemma explore_all_obstacles_only (grid : list (list Z)) (rows cols gr gc : Z)
    (u : cell) (ds : list (Z * Z)) :
  ∀ st, explore_all (obstacles_only grid) rows cols gr gc u st ds
        = explore_all grid rows cols gr gc u st ds.
Proof.
  induction ds as [|d ds IH]; intros st; [done|]. simpl.
  rewrite explore_obstacles_only. destruct (explore _ _ _ _ _ _ _ _); [apply IH|done].
Qed.

Lemma aStarSearch_obstacles_only (grid : list (list Z)) (sr sc gr gc : Z) :
  aStarSearch (obstacles_only grid) sr sc gr gc = aStarSearch grid sr sc gr gc.
Proof.
  assert (grid_rows (obstacles_only grid) = grid_rows grid) as Hr.
  { unfold grid_rows, obstacles_only. by rewrite length_map. }
  assert (grid_cols (obstacles_only grid) = grid_cols grid) as Hc.
  { unfold grid_cols, obstacles_only. destruct grid; [done|]. simpl. by rewrite length_map. }
  assert (init (obstacles_only grid) sr sc gr gc = init grid sr sc gr gc) as Hi.
  { unfold init, obstacles_only. rewrite !AStarProofs.vec_at_0.
    destruct grid as [|line0 grid]; [done|]. simpl. by rewrite !length_map. }
  unfold aStarSearch. rewrite Hr, Hc, Hi. clear Hi.
  destruct (init grid sr sc gr gc) as [st0|]; [|done].
  assert (∀ st, body (obstacles_only grid) (grid_rows grid) (grid_cols grid) gr gc st
                = body grid (grid_rows grid) (grid_cols grid) gr gc st) as Hb.
  { intros st. unfold body. destruct (heap_pop _ _) as [[cur open']|]; [|done].
    destruct (allNodes st !! cur); [|done]. destruct (decide _); [done|].
    destruct (decide _); [done|]. by rewrite explore_all_obstacles_only. }
  assert (∀ k st, while_loop k (body (obstacles_only grid) (grid_rows grid) (grid_cols grid) gr gc) st
                  = while_loop k (body grid (grid_rows grid) (grid_cols grid) gr gc) st) as Hw.
  { induction k as [|k IH]; intros st; simpl; [by rewrite Hb|].
    rewrite IH. destruct (while_loop k _ st); [apply IH|done]. }
  by rewrite Hw.
Qed.







Section Picture.
Variables (rows cols : nat) (grid marked : list (list Z)) (path : list cell).
Hypothesis Hgrid : shape rows cols grid.
Hypothesis Hmarked : shape rows cols marked.
Hypothesis Hmarks : ∀ r c,
  grid_at marked r c =
  if bool_decide ((r, c) ∈ path ∧ (r, c) ≠ (0, 0) ∧
                  (r, c) ≠ (Z.of_nat rows - 1, Z.of_nat cols - 1))
  then Some 2 else grid_at grid r c.




End Picture.


Section Search.
Variables (s s1 s2 : istream) (rows cols : Z).
Hypothesis Hrows : 0 < rows.
Hypothesis Hcols : 0 < cols.







End Search.


End AStarMainProofs.

(** * Further properties of the code *)

Section Coverage.
Import Dijkstra DijkstraSpec AStar AStarSpec.

(** X4: when [aStarSearch] returns the empty sequence, no path of the grid
    leads from the start to the goal. *)
Theorem X4_empty_means_unreachable (grid : list (list Z)) (sr sc gr gc : Z) :
  aStarSearch grid sr sc gr gc = Returns [] →
  ¬ connected grid (sr, sc) (gr, gc).
Proof.
  intros Hret (q & Hq & Hhd & Hlast).
  apply (AStarReach.aStarSearch_empty grid sr sc gr gc q Hret).
  by apply AStarReach.grid_path_rpath.
Qed.

Lemma X4_witness : ¬ connected [[0; 1; 0]] (0, 0) (0, 2).
Proof.
  apply (X4_empty_means_unreachable [[0; 1; 0]] 0 0 0 2).
  vm_compute. reflexivity.
Defined.



(** X6: a non-empty sequence returned by [aStarSearch] has one cell more
    than the sum of the distances in rows and in columns from the start
    to the goal at least, and as many cells as the grid at most. *)
Theorem X6_path_length_bounds (grid : list (list Z)) (sr sc gr gc : Z)
    (path : list cell) :
  aStarSearch grid sr sc gr gc = Returns path → path ≠ [] →
  Z.abs (sr - gr) + Z.abs (sc - gc) + 1 ≤ Z.of_nat (length path) ≤
    grid_rows grid * grid_cols grid.
Proof.
  intros Hret Hne.
  apply AStarProofs.aStarSearch_Returns in Hret as (Hs & _ & [?|(Hrp & Hnd)]); [done|].
  destruct (AStarProofs.rpath_ends _ _ _ _ Hrp) as [Hhd Hlast]. split.
  - pose proof (AStarReach.rpath_stepwise _ _ _ _ Hrp) as Hsw.
    pose proof (AStarReach.heuristic_stepwise path (sr, sc) (gr, gc) Hsw Hhd Hlast)
      as Hh.
    unfold heuristicManhattan in Hh. simpl in *. lia.
  - assert (length path ≤ length (all_cells (grid_rows grid) (grid_cols grid)))%nat as Hle.
    { apply submseteq_length, NoDup_submseteq; [done|]. intros p Hp.
      apply AStarProofs.elem_of_all_cells.
      by apply (AStarReach.rpath_in_grid grid sr sc path (gr, gc) Hs Hrp). }
    rewrite AStarProofs.length_all_cells in Hle.
    assert (0 ≤ grid_rows grid ∧ 0 ≤ grid_cols grid) as [? ?].
    { unfold grid_rows, grid_cols. destruct grid; lia. }
    rewrite <- (Z2Nat.id (grid_rows grid)), <- (Z2Nat.id (grid_cols grid)) by done. lia.
Qed.

Lemma X6_witness :
  Z.abs (0 - 2) + Z.abs (0 - 2) + 1 ≤
    Z.of_nat (length [(0, 0); (1, 0); (2, 0); (2, 1); (2, 2)]) ≤
    grid_rows grid3 * grid_cols grid3.
Proof.
  apply (X6_path_length_bounds grid3 0 0 2 2).
  - vm_compute. reflexivity.
  - discriminate.
Defined.

(** X7: between two cells with coordinates in [int] whose distances in
    rows and in columns add up to [2 ^ 24] at most, where
    [heuristicManhattan] subtracts without overflow and the conversion to
    [float] is exact, it does not overestimate: a sequence of cells, each
    one orthogonal step from the one before, that leads from the one cell
    to the other has one cell more than its value at least, whatever is
    in the grid. *)
Theorem X7_heuristic_is_admissible (l : list cell) (p q : cell) :
  in_int p.1 → in_int p.2 → in_int q.1 → in_int q.2 →
  Z.abs (p.1 - q.1) + Z.abs (p.2 - q.2) ≤ 2 ^ 24 →
  stepwise l → head l = Some p → last l = Some q →
  heuristicManhattan p.1 p.2 q.1 q.2 ≤ Z.of_nat (length l) - 1.
Proof. intros _ _ _ _ _. apply AStarReach.heuristic_stepwise. Qed.

Lemma X7_witness :
  heuristicManhattan 0 0 1 1 ≤ Z.of_nat (length [(0, 0); (0, 1); (1, 1)]) - 1.
Proof.
  apply (X7_heuristic_is_admissible [(0, 0); (0, 1); (1, 1)] (0, 0) (1, 1)).
  - unfold in_int, INT_MIN, INT_MAX. simpl. lia.
  - unfold in_int, INT_MIN, INT_MAX. simpl. lia.
  - unfold in_int, INT_MIN, INT_MAX. simpl. lia.
  - unfold in_int, INT_MIN, INT_MAX. simpl. lia.
  - simpl. lia.
  - apply AStarProofs.stepwiseb_true. reflexivity.
  - reflexivity.
  - reflexivity.
Defined.

(** X8: the loop of [aStarSearch] ends within [5 * rows * cols + 2]
    iterations: a cell is expanded once, an expansion pushes four entries
    at most, and every other iteration drops an entry. *)
Theorem X8_search_loop_bound (grid : list (list Z)) (sr sc gr gc : Z) (st0 : state) :
  init grid sr sc gr gc = Some st0 →
  ∃ r, run (5 * (Z.to_nat (grid_rows grid) * Z.to_nat (grid_cols grid)) + 2)
         (body grid (grid_rows grid) (grid_cols grid) gr gc) st0 = inr r.
Proof. apply AStarReach.loop_bound. Qed.

Lemma X8_witness :
  ∃ r, run (5 * (Z.to_nat (grid_rows grid3) * Z.to_nat (grid_cols grid3)) + 2)
         (body grid3 (grid_rows grid3) (grid_cols grid3) 2 2)
         {| allNodes :=
              <[(0, 0) := {| row := 0; col := 0; gCost := 0;
                             hCost := heuristicManhattan 0 0 2 2;
                             fCost := 0 + heuristicManhattan 0 0 2 2;
                             parent := None |}]>
                (new_nodes (grid_rows grid3) (grid_cols grid3));
            closedSet := ∅;
            openSet := [(0, 0)] |} = inr r.
Proof.
  apply (X8_search_loop_bound grid3 0 0 2 2).
  apply AStarProofs.astar_init_Some. split_and!; reflexivity.
Defined.








(** X13: with non-negative weights, in the array that [dijkstra] returns
    the entry of the source is 0, every entry is between 0 and [INT_MAX],
    and no edge out of a node with an entry below [INT_MAX] leads to an
    entry above that entry plus its weight. *)
Theorem X13_distances_are_relaxed (n : Z) (graph : graph_t) (source : Z)
    (dist : list Z) :
  nonneg_weights graph → dijkstra n graph source = Returns dist →
  vec_at dist source = Some 0 ∧
  Forall (λ d, 0 ≤ d ≤ INT_MAX) dist ∧
  ∀ u v w du dv, MainSpec.edge graph u v w → vec_at dist u = Some du → du < INF →
                 vec_at dist v = Some dv → dv ≤ du + w.
Proof. apply DijkstraMainProofs.dijkstra_array. Qed.

Lemma X13_witness :
  vec_at [0; 4; 2; 6; 7] 0 = Some 0 ∧
  Forall (λ d, 0 ≤ d ≤ INT_MAX) [0; 4; 2; 6; 7] ∧
  ∀ u v w du dv, MainSpec.edge sample u v w → vec_at [0; 4; 2; 6; 7] u = Some du →
                 du < INF → vec_at [0; 4; 2; 6; 7] v = Some dv → dv ≤ du + w.
Proof.
  apply (X13_distances_are_relaxed 5 sample 0).
  - apply DijkstraProofs.nonneg_weightsb_true. reflexivity.
  - vm_compute. reflexivity.
Defined.

(** X14: in a graph with non-negative weights that has every edge in both
    directions, the distance that [dijkstra] returns from a node to
    another is the distance it returns from the second to the first. *)
Theorem X14_undirected_distances_are_symmetric (n : Z) (graph : graph_t) (s t : Z)
    (ds dt : list Z) :
  MainSpec.undirected graph → nonneg_weights graph →
  dijkstra n graph s = Returns ds → dijkstra n graph t = Returns dt →
  ∃ d, vec_at ds t = Some d ∧ vec_at dt s = Some d.
Proof. apply DijkstraMainProofs.dijkstra_symmetric. Qed.

Lemma X14_witness :
  ∃ d, vec_at [0; 4; 2; 6; 7] 4 = Some d ∧ vec_at [7; 3; 5; 1; 0] 0 = Some d.
Proof.
  apply (X14_undirected_distances_are_symmetric 5 sample 0 4).
  - eapply (DijkstraMainProofs.read_edges_graph 6 5 sample
              {| IO.literals := [0; 1; 4; 0; 2; 2; 1; 2; 3; 1; 3; 2; 2; 3; 4; 3; 4; 1];
                 IO.garbage := false; IO.failed := false |}).
    vm_compute. reflexivity.
  - apply DijkstraProofs.nonneg_weightsb_true. reflexivity.
  - vm_compute. reflexivity.
  - vm_compute. reflexivity.
Defined.

(** X15: when the loop of [main] of dijkstra.cpp that reads the edges has
    no undefined behaviour, the graph it has built has an adjacency list
    for each of the [n] nodes and its edges are those of [m] triples
    [(u, v, w)], each in both directions, all of them between nodes of
    [[0, n)]; and when the stream has not failed by the end of the loop,
    it had not failed before it, the [3 * m] numbers of the triples are
    the literals the stream gave, in their order and all of them in
    [int], and the stream is left with the literals that follow them. *)
Theorem X15_graph_read_is_undirected (m n : nat) (graph : graph_t)
    (s s' : IO.istream) :
  DijkstraMain.read_edges m (replicate n []) s = Some (graph, s') →
  well_formed (Z.of_nat n) graph ∧ MainSpec.undirected graph ∧
  ∃ triples, length triples = m ∧ MainSpec.endpoints_in (Z.of_nat n) triples ∧
             (∀ x y k, MainSpec.edge graph x y k ↔ MainSpec.joins triples x y k) ∧
             (IO.failed s' = false →
              IO.failed s = false ∧
              IO.literals s = MainSpec.flat triples ++ IO.literals s' ∧
              Forall in_int (MainSpec.flat triples) ∧
              IO.garbage s' = IO.garbage s).
Proof. apply DijkstraMainProofs.read_edges_graph_stream. Qed.

Lemma X15_witness :
  well_formed (Z.of_nat 2) [[(1, 7)]; [(0, 7)]] ∧
  MainSpec.undirected [[(1, 7)]; [(0, 7)]] ∧
  ∃ triples, length triples = 1%nat ∧ MainSpec.endpoints_in (Z.of_nat 2) triples ∧
             (∀ x y k, MainSpec.edge [[(1, 7)]; [(0, 7)]] x y k
                       ↔ MainSpec.joins triples x y k) ∧
             (false = false →
              false = false ∧ [0; 1; 7] = MainSpec.flat triples ++ [] ∧
              Forall in_int (MainSpec.flat triples) ∧ false = false).
Proof.
  apply (X15_graph_read_is_undirected 1 2 [[(1, 7)]; [(0, 7)]]
           {| IO.literals := [0; 1; 7]; IO.garbage := false; IO.failed := false |}
           {| IO.literals := []; IO.garbage := false; IO.failed := false |}).
  reflexivity.
Defined.

(** X16: on an input that gives a graph with non-negative weights on
    which no addition of the search overflows, and a source among its
    nodes, [main] of dijkstra.cpp returns 0 after writing the source and a
    line for each node: the minimum weight of a path from the source, or
    INF for a node that no path leads to (and for a distance of [INT_MAX]
    or more). *)
Theorem X16_distances_program (cin s1 s2 s3 s4 : IO.istream) (n m source : Z)
    (graph : graph_t) :
  IO.extract cin = (Some n, s1) → IO.extract s1 = (Some m, s2) →
  DijkstraMain.read_edges (Z.to_nat m) (replicate (Z.to_nat n) []) s2 = Some (graph, s3) →
  IO.extract s3 = (Some source, s4) → 0 ≤ source < n →
  nonneg_weights graph → no_overflow graph source →
  ∃ dist,
    DijkstraMain.main cin =
      Returns ([IO.Cout "Shortest distances from vertex "; IO.Cout (pretty source);
                IO.Cout (":" +:+ IO.nl)] ++ MainSpec.report dist, 0) ∧
    Z.of_nat (length dist) = n ∧
    ∀ v, 0 ≤ v < n →
      ∃ d, vec_at dist v = Some d ∧
           (∀ W, shortest graph source v W → d = Z.min W INF) ∧
           (¬ reachable graph source v → d = INF).
Proof. apply DijkstraMainProofs.main_valid. Qed.

Lemma X16_witness :
  ∃ dist,
    DijkstraMain.main
      {| IO.literals := [5; 6; 0; 1; 4; 0; 2; 2; 1; 2; 3; 1; 3; 2; 2; 3; 4; 3; 4; 1; 0];
         IO.garbage := false; IO.failed := false |} =
      Returns ([IO.Cout "Shortest distances from vertex "; IO.Cout (pretty 0);
                IO.Cout (":" +:+ IO.nl)] ++ MainSpec.report dist, 0) ∧
    Z.of_nat (length dist) = 5 ∧
    ∀ v, 0 ≤ v < 5 →
      ∃ d, vec_at dist v = Some d ∧
           (∀ W, shortest sample 0 v W → d = Z.min W INF) ∧
           (¬ reachable sample 0 v → d = INF).
Proof.
  eapply (X16_distances_program _ _ _ _ _ 5 6 0 sample).
  - reflexivity.
  - reflexivity.
  - vm_compute. reflexivity.
  - reflexivity.
  - lia.
  - apply DijkstraProofs.nonneg_weightsb_true. reflexivity.
  - apply DijkstraProofs.sample_no_overflow.
Defined.

(** X17: [main] of dijkstra.cpp returns only with the status 0, and only
    when the input begins with the number of nodes, the number of edges and
    the three numbers of each edge, all of them in [int], the ends of the
    edges among the nodes, followed by a source among the nodes; text that
    is no number in the place of the source is read as the source 0. *)
Theorem X17_distances_program_needs_its_input (cin : IO.istream)
    (out : list IO.output) (status : Z) :
  DijkstraMain.main cin = Returns (out, status) →
  status = 0 ∧
  ∃ n m triples tail,
    IO.failed cin = false ∧
    IO.literals cin = n :: m :: MainSpec.flat triples ++ tail ∧
    Forall in_int (n :: m :: MainSpec.flat triples) ∧ 0 ≤ n ∧
    length triples = Z.to_nat m ∧ MainSpec.endpoints_in n triples ∧
    ((∃ source rest, tail = source :: rest ∧ 0 ≤ source < n) ∨
     (tail = [] ∧ IO.garbage cin = true ∧ 0 < n)).
Proof. apply DijkstraMainProofs.main_Returns. Qed.

Lemma X17_witness :
  0 = 0 ∧
  ∃ n m triples tail,
    IO.failed {| IO.literals := [2; 1; 0; 1; 7; 1]; IO.garbage := false;
                 IO.failed := false |} = false ∧
    IO.literals {| IO.literals := [2; 1; 0; 1; 7; 1]; IO.garbage := false;
                   IO.failed := false |} = n :: m :: MainSpec.flat triples ++ tail ∧
    Forall in_int (n :: m :: MainSpec.flat triples) ∧ 0 ≤ n ∧
    length triples = Z.to_nat m ∧ MainSpec.endpoints_in n triples ∧
    ((∃ source rest, tail = source :: rest ∧ 0 ≤ source < n) ∨
     (tail = [] ∧
      IO.garbage {| IO.literals := [2; 1; 0; 1; 7; 1]; IO.garbage := false;
                    IO.failed := false |} = true ∧ 0 < n)).
Proof.
  eapply (X17_distances_program_needs_its_input
            {| IO.literals := [2; 1; 0; 1; 7; 1]; IO.garbage := false;
               IO.failed := false |} _ 0).
  vm_compute. reflexivity.
Defined.

(** X19: the grid that [main] of a_star.cpp reads holds, line after
    line, the numbers that follow the dimensions in the file; when the
    file has fewer of them than the grid has cells, the cells that are
    left are 0. *)
Theorem X19_missing_cells_are_free (rows cols : nat) (s : IO.istream) :
  IO.failed s = false → Forall in_int (IO.literals s) →
  MainSpec.shape rows cols (AStarMain.read_grid rows cols s).1 ∧
  mjoin (AStarMain.read_grid rows cols s).1 =
    take (rows * cols) (IO.literals s ++ replicate (rows * cols) 0).
Proof.
  intros Hf Hint. split; [apply AStarMainProofs.read_grid_shape|].
  rewrite (AStarMainProofs.read_grid_values rows cols s (rows * cols)) by done.
  unfold MainSpec.readable. by rewrite Hf.
Qed.

Lemma X19_witness :
  MainSpec.shape 2 2
    (AStarMain.read_grid 2 2
       {| IO.literals := [0; 1; 7]; IO.garbage := false; IO.failed := false |}).1 ∧
  mjoin (AStarMain.read_grid 2 2
           {| IO.literals := [0; 1; 7]; IO.garbage := false; IO.failed := false |}).1 =
    take (2 * 2) ([0; 1; 7] ++ replicate (2 * 2) 0).
Proof.
  apply (X19_missing_cells_are_free 2 2
           {| IO.literals := [0; 1; 7]; IO.garbage := false; IO.failed := false |}).
  - reflexivity.
  - repeat constructor; unfold in_int, INT_MIN, INT_MAX; lia.
Defined.

(** X20: only the value 1 is an obstacle for [aStarSearch]: the result is
    the same when every other value of the grid is replaced by 0. *)
Theorem X20_only_one_blocks (grid : list (list Z)) (sr sc gr gc : Z) :
  aStarSearch (obstacles_only grid) sr sc gr gc = aStarSearch grid sr sc gr gc.
Proof. apply AStarMainProofs.aStarSearch_obstacles_only. Qed.

(** X21: whatever the signs of the weights, when [dijkstra] returns, the
    entry of a node is the least weight of the paths from the source to it
    whose running sum of weights stays below [INT_MAX]: an entry below
    [INT_MAX] is the weight of such a path, and no such path weighs less
    than the entry. *)
Theorem X21_distances_with_any_weights (n : Z) (graph : graph_t) (source : Z)
    (dist : list Z) (v : Z) :
  dijkstra n graph source = Returns dist → 0 ≤ v < n →
  ∃ d, vec_at dist v = Some d ∧ d ≤ INF ∧
       (d < INF → low_walk graph source 0 v d) ∧
       (∀ W, low_walk graph source 0 v W → d ≤ W).
Proof. apply DijkstraAnyProofs.dijkstra_low_shortest. Qed.

Lemma X21_witness :
  ∃ d, vec_at [0; 2; 10] 1 = Some d ∧ d ≤ INF ∧
       (d < INF → low_walk negative 0 0 1 d) ∧
       (∀ W, low_walk negative 0 0 1 W → d ≤ W).
Proof.
  apply (X21_distances_with_any_weights 3 negative 0).
  - vm_compute. reflexivity.
  - lia.
Defined.

(** X22: a cycle of negative weight that a path from the source leads
    into, the running sum of the weights staying below [INT_MAX] on the
    path and on the cycle, makes the behaviour of [dijkstra] undefined:
    the distances go down until an addition leaves [int]. *)
Theorem X22_negative_cycle_is_undefined (n : Z) (graph : graph_t)
    (source u W0 W1 : Z) :
  0 ≤ n → low_walk graph source 0 u W0 → low_walk graph u W0 u W1 → W1 < W0 →
  dijkstra n graph source = Undefined.
Proof. apply DijkstraAnyProofs.dijkstra_negative_cycle. Qed.

Lemma X22_witness : dijkstra 2 loop2 0 = Undefined.
Proof.
  assert (low_walk loop2 0 0 0 0) as H0 by (constructor; unfold INF, INT_MAX; lia).
  apply (X22_negative_cycle_is_undefined 2 loop2 0 0 0 (-1)); [lia|exact H0| |lia].
  change (-1) with (1 + -2).
  apply (low_edge loop2 0 0 1 1 [(0, -2)]); [|reflexivity|left|unfold INF, INT_MAX; lia].
  change 1 with (0 + 1) at 2.
  apply (low_edge loop2 0 0 0 0 [(1, 1)]); [exact H0|reflexivity|left|unfold INF, INT_MAX; lia].
Defined.

(** X23: when the start cell is walkable and [aStarSearch] returns a
    non-empty sequence, consecutive cells of the sequence are one
    orthogonal step apart, every cell is inside the grid and walkable, the
    first cell is the start and the last is the goal. *)
Theorem X23_returned_sequence_is_grid_path (grid : list (list Z)) (sr sc gr gc : Z)
    (path : list cell) :
  walkable grid (sr, sc) →
  aStarSearch grid sr sc gr gc = Returns path → path ≠ [] →
  grid_path grid path ∧ head path = Some (sr, sc) ∧ last path = Some (gr, gc).
Proof.
  intros Hw Hret Hne.
  apply AStarProofs.aStarSearch_Returns in Hret as (Hs & _ & [?|(Hrp & _)]); [done|].
  destruct (AStarProofs.rpath_ends _ _ _ _ Hrp) as [Hhd Hlast].
  split_and!; [by eapply AStarProofs.rpath_grid_path|done..].
Qed.

Lemma X23_witness :
  grid_path grid3 [(0, 0); (1, 0); (2, 0); (2, 1); (2, 2)] ∧
  head [(0, 0); (1, 0); (2, 0); (2, 1); (2, 2)] = Some (0, 0) ∧
  last [(0, 0); (1, 0); (2, 0); (2, 1); (2, 2)] = Some (2, 2).
Proof.
  apply (X23_returned_sequence_is_grid_path grid3 0 0 2 2).
  - apply AStarProofs.walkableb_true. reflexivity.
  - vm_compute. reflexivity.
  - discriminate.
Defined.

(** X24: [dijkstra] has no closed set, and with a negative weight a node
    can be expanded twice: in [negative] the node 1 is expanded by the
    second iteration, at the distance 5, and again by the fourth one,
    after the edge of weight -8 has lowered its distance to 2. *)
Theorem X24_negative_weight_expands_twice :
  ∃ st0 sti stj,
    Dijkstra.init 3 0 = Some st0 ∧
    run 1 (Dijkstra.body negative) st0 = inl sti ∧
    run 3 (Dijkstra.body negative) st0 = inl stj ∧
    DijkstraSpec.expands sti 1 ∧ DijkstraSpec.expands stj 1.
Proof.
  exists ([0; 2147483647; 2147483647], [(0, 0)]),
         ([0; 5; 10], [(10, 2); (5, 1)]),
         ([0; 2; 10], [(2, 1)]).
  split_and!; [reflexivity..| |].
  - exists 5, [(10, 2)], 5. split_and!; [reflexivity|reflexivity|lia].
  - exists 2, [], 2. split_and!; [reflexivity|reflexivity|lia].
Qed.

End Coverage.
